(** * sequelize-simple-cache: a shallow embedding of [SequelizeSimpleCache.js]

    The development follows the class [SequelizeSimpleCache]: the per-model
    entry stores (JavaScript [Map]s, kept in insertion order), the purge
    scan, the association map with its breadth-first [clear], and the
    intercepting callable that [init] installs for the cached methods.

    Conventions.
    - A JavaScript [Map] with string keys is an association list in
      insertion order whose keys are pairwise distinct ([JsMap.wf]).
    - [this.config] and [this.cache] are plain objects: an association
      list holds their own properties in insertion order, and reading
      [obj[type]] for a [type] that is not among them falls through to
      the prototype ([config_slot], [cache_slot]).  The assignment
      [this.cache['__proto__'] = new Map()] does not create a property but
      makes that [Map] the prototype of [this.cache], where reading
      [this.cache['__proto__']] finds it again: the entry of [cache] under
      the key [__proto__] stands for this prototype, and [Object.keys]
      leaves it out ([own_keys]).
    - Numbers are integers ([Z]): [Date.now()] is a count of milliseconds
      and the configured [ttl] and [limit] are taken to be integral.
    - [Date.now()] is an input of every operation that reads the clock.
    - Calls of the wrapped model ([target[prop](...args)]) are answered by
      a [response] given as an input and are recorded in the ghost field
      [calls] of the state.
    - An [async] function that throws is a function whose promise
      rejects: both are the outcome [Throw].
    - [init] is run once for a model, so that the [Map] its closures hold
      is the one stored in [this.cache].
    - The delegate that [log] calls when [debug] is set is outside the
      cache object and is left out. *)

From Stdlib Require Import ZArith String List Lia.
From stdpp Require Import base decidable list strings gmap.

Local Open Scope string_scope.
Local Open Scope list_scope.
Local Open Scope Z_scope.
Local Set Warnings "-register-all,-clear-no-such-hyp".

(** ** JavaScript values *)

Inductive value : Type :=
  | VUndefined
  | VNull
  | VBool (b : bool)
  | VNum (n : Z)
  | VStr (s : string)
  | VObj (props : list (string * value))
  | VArr (elems : list value)
  | VFunc (ref : nat).

(** [ToBoolean]. *)
Definition truthy (v : value) : bool :=
  match v with
  | VUndefined | VNull => false
  | VBool b => b
  | VNum n => negb (n =? 0)
  | VStr s => negb (bool_decide (s = ""))
  | VObj _ | VArr _ | VFunc _ => true
  end.

Definition nullish (v : value) : bool :=
  match v with
  | VUndefined | VNull => true
  | _ => false
  end.

Fixpoint assoc {A : Type} (k : string) (l : list (string * A)) : option A :=
  match l with
  | [] => None
  | (k', a) :: r => if decide (k = k') then Some a else assoc k r
  end.

(** [v[name]] for a value that is not [null] or [undefined]: only plain
    objects carry properties of their own here. *)
Definition get_prop (name : string) (v : value) : value :=
  match v with
  | VObj props => default VUndefined (assoc name props)
  | _ => VUndefined
  end.

(** ** The JavaScript [Map] *)

Module JsMap.

Definition t (V : Type) : Type := list (string * V).

Definition empty {V} : t V := [].

Definition get {V} (k : string) (m : t V) : option V := assoc k m.

Definition has {V} (k : string) (m : t V) : bool :=
  match get k m with Some _ => true | None => false end.

(** [m.set(k, v)]: an existing key keeps its position, a new key goes
    to the end. *)
Fixpoint set {V} (k : string) (v : V) (m : t V) : t V :=
  match m with
  | [] => [(k, v)]
  | (k', v') :: r =>
      if decide (k = k') then (k, v) :: r else (k', v') :: set k v r
  end.

Fixpoint delete {V} (k : string) (m : t V) : t V :=
  match m with
  | [] => []
  | (k', v') :: r =>
      if decide (k = k') then r else (k', v') :: delete k r
  end.

Definition size {V} (m : t V) : nat := length m.

Definition keys {V} (m : t V) : list string := m.*1.

(** The keys of a [Map] are pairwise distinct. *)
Definition wf {V} (m : t V) : Prop := NoDup (keys m).

End JsMap.

(** ** Cache entries *)

(** The [expires] field: [false] or a timestamp. *)
Inductive expiry : Type :=
  | EFalse
  | ENum (t : Z).

Definition expiry_truthy (e : expiry) : bool :=
  match e with
  | EFalse => false
  | ENum t => negb (t =? 0)
  end.

(** [ToNumber], as the relational operators apply it. *)
Definition expiry_num (e : expiry) : Z :=
  match e with
  | EFalse => 0
  | ENum t => t
  end.

Record item : Type := Item { data : value; expires : expiry }.

Definition store : Type := JsMap.t item.

(** ** [purge]: the scan of one store *)

Record oldest_t : Type := Oldest { o_hash : string; o_expires : expiry }.

Record scan : Type :=
  Scan { s_cache : store; s_oldest : option oldest_t; s_purged : nat }.

(** [expires && expires <= now] *)
Definition is_expired (now : Z) (e : expiry) : bool :=
  expiry_truthy e && (expiry_num e <=? now).

(** [!oldest || expires < oldest.expires] *)
Definition is_older (e : expiry) (oldest : option oldest_t) : bool :=
  match oldest with
  | None => true
  | Some o => expiry_num e <? expiry_num (o_expires o)
  end.

(** The callback of [cache.forEach] in [purge].  [s_purged] counts the
    ['purge'] events logged so far. *)
Definition purge_visit (now : Z) (s : scan) (entry : string * item) : scan :=
  let '(hash, it) := entry in
  if is_expired now (expires it) then
    Scan (JsMap.delete hash (s_cache s)) (s_oldest s) (S (s_purged s))
  else if is_older (expires it) (s_oldest s) then
    Scan (s_cache s) (Some (Oldest hash (expires it))) (s_purged s)
  else s.

(** [forEach] visits the entries in insertion order; the callback only
    ever deletes the entry it is visiting, so the entries visited are
    those of the store at the start of the scan. *)
Definition purge_scan (now : Z) (cache : store) : scan :=
  fold_left (purge_visit now) cache (Scan cache None 0).

(** [if (cache.size > limit && oldest) { cache.delete(oldest.hash); log }] *)
Definition purge_evict (limit : Z) (s : scan) : store * nat :=
  match s_oldest s with
  | Some o =>
      if Z.of_nat (JsMap.size (s_cache s)) >? limit
      then (JsMap.delete (o_hash o) (s_cache s), S (s_purged s))
      else (s_cache s, s_purged s)
  | None => (s_cache s, s_purged s)
  end.

(** The body of [types.forEach] in [purge] for one store and its
    [limit]: the store afterwards and the number of ['purge'] events. *)
Definition purge_store (now limit : Z) (cache : store) : store * nat :=
  purge_evict limit (purge_scan now cache).

(** ** The cache object *)

(** [ttl]: a number of seconds or [false]. *)
Inductive ttl_t : Type :=
  | TtlFalse
  | TtlNum (n : Z).

(** [ttl > 0 ? Date.now() + ttl * 1000 : false] *)
Definition expires_at (ttl : ttl_t) (now : Z) : expiry :=
  match ttl with
  | TtlNum n => if 0 <? n then ENum (now + n * 1000) else EFalse
  | TtlFalse => EFalse
  end.

Record cfg : Type :=
  Cfg { ttl : ttl_t;
        methods : list string;
        methodsUpdate : list string;
        limit : Z;
        clearOnUpdate : bool }.

Record stats_t : Type :=
  Stats { st_hit : nat; st_miss : nat; st_load : nat; st_purge : nat }.

(** One call of a method of the wrapped model (ghost). *)
Record call : Type :=
  Call { c_type : string; c_prop : string; c_args : list value }.

Record state : Type :=
  State { config : JsMap.t cfg;
          cache : JsMap.t store;
          associations : JsMap.t (list string);
          stats : stats_t;
          calls : list call }.

Definition with_cache (c : JsMap.t store) (st : state) : state :=
  State (config st) c (associations st) (stats st) (calls st).

Definition with_associations (a : JsMap.t (list string)) (st : state) : state :=
  State (config st) (cache st) a (stats st) (calls st).

Definition with_stats (s : stats_t) (st : state) : state :=
  State (config st) (cache st) (associations st) s (calls st).

Definition with_calls (c : list call) (st : state) : state :=
  State (config st) (cache st) (associations st) (stats st) c.

(** *** Errors and the state monad of the methods *)

Inductive error : Type :=
  | TypeError
  | AssertionError
  | Thrown (e : value).

Inductive outcome (A : Type) : Type :=
  | Ok (a : A)
  | Throw (e : error)
  | OutOfFuel.
Arguments Ok {A} a.
Arguments Throw {A} e.
Arguments OutOfFuel {A}.

Definition M (A : Type) : Type := state -> state * outcome A.

Definition ret {A} (a : A) : M A := fun st => (st, Ok a).

Definition throw {A} (e : error) : M A := fun st => (st, Throw e).

Definition bind {A B} (m : M A) (k : A -> M B) : M B :=
  fun st =>
    match m st with
    | (st', Ok a) => k a st'
    | (st', Throw e) => (st', Throw e)
    | (st', OutOfFuel) => (st', OutOfFuel)
    end.

Definition modify (f : state -> state) : M unit := fun st => (f st, Ok tt).

Notation "'let*' x ':=' m 'in' k" := (bind m (fun x => k))
  (at level 10, x name, m at level 100, k at level 200).
Notation "m '>>' k" := (bind m (fun _ => k))
  (at level 100, k at level 200, right associativity).

(** [arr.forEach(f)] *)
Fixpoint forEach {A} (f : A -> M unit) (l : list A) : M unit :=
  match l with
  | [] => ret tt
  | a :: r => f a >> forEach f r
  end.

(** *** [log] *)

Inductive event : Type := EvInit | EvHit | EvMiss | EvLoad | EvPurge | EvOps.

(** [if (this.stats[event] >= 0) this.stats[event] += 1].  The call of
    the delegate that follows does not touch the cache object. *)
Definition bump (ev : event) (s : stats_t) : stats_t :=
  match ev with
  | EvHit => Stats (S (st_hit s)) (st_miss s) (st_load s) (st_purge s)
  | EvMiss => Stats (st_hit s) (S (st_miss s)) (st_load s) (st_purge s)
  | EvLoad => Stats (st_hit s) (st_miss s) (S (st_load s)) (st_purge s)
  | EvPurge => Stats (st_hit s) (st_miss s) (st_load s) (S (st_purge s))
  | EvInit | EvOps => s
  end.

Definition log (ev : event) : M unit :=
  modify (fun st => with_stats (bump ev (stats st)) st).

(** *** The plain objects [this.config] and [this.cache] *)

(** The string-named members of [Object.prototype]: on a plain object
    without an own property of that name, [obj[name]] is a function
    ([Object.prototype] itself for [__proto__]). *)
Definition object_prototype : list string :=
  ["constructor"; "__defineGetter__"; "__defineSetter__"; "hasOwnProperty";
   "__lookupGetter__"; "__lookupSetter__"; "isPrototypeOf";
   "propertyIsEnumerable"; "toString"; "valueOf"; "__proto__";
   "toLocaleString"].

(** The string-named members of [Map.prototype]; all are functions but
    [size], an accessor without a setter whose getter throws on a
    receiver that is not a [Map]. *)
Definition map_prototype : list string :=
  ["constructor"; "get"; "set"; "has"; "delete"; "clear"; "entries";
   "forEach"; "keys"; "size"; "values"].

(** What reading [obj[type]] gives: the own property, a member of the
    prototype chain, or [undefined]. *)
Inductive slot (V : Type) : Type :=
  | Own (v : V)
  | Inherited
  | Absent.
Arguments Own {V} v.
Arguments Inherited {V}.
Arguments Absent {V}.

(** [this.config[type]]: the configuration the constructor stored, or a
    member of [Object.prototype] (truthy, and without any of the
    properties [ttl], [methods], [methodsUpdate], [limit],
    [clearOnUpdate]), or [undefined]. *)
Definition config_slot (type : string) (st : state) : slot cfg :=
  match JsMap.get type (config st) with
  | Some cf => Own cf
  | None =>
      if bool_decide (type ∈ object_prototype) then Inherited else Absent
  end.

(** [this.cache[type]]: the [Map] stored for [type], or a member of the
    prototype chain (truthy, without [clear], [forEach] or [size]), or
    [undefined].  The chain is [Object.prototype] alone, or a [Map],
    [Map.prototype] and [Object.prototype] once [init] has assigned
    [this.cache['__proto__']]; the getter of [size] then throws. *)
Definition cache_slot (type : string) (st : state) : outcome (slot store) :=
  match JsMap.get type (cache st) with
  | Some c => Ok (Own c)
  | None =>
      if JsMap.has "__proto__" (cache st) then
        if bool_decide (type = "size") then Throw TypeError
        else if bool_decide (type ∈ map_prototype ++ object_prototype)
        then Ok Inherited
        else Ok Absent
      else if bool_decide (type ∈ object_prototype) then Ok Inherited
      else Ok Absent
  end.

(** [Object.keys(this.cache)] *)
Definition own_keys (st : state) : list string :=
  filter (fun type => type ≠ "__proto__") (JsMap.keys (cache st)).

(** *** [purge] *)

(** The types an argument list of [clear], [size] or [purge] stands for:
    [modelNames.length ? modelNames : Object.keys(this.cache)]. *)
Definition types_of (modelNames : list string) (st : state) : list string :=
  match modelNames with
  | [] => own_keys st
  | _ => modelNames
  end.

(** [n] more ['purge'] events. *)
Definition purged (n : nat) (s : stats_t) : stats_t :=
  Nat.iter n (bump EvPurge) s.

(** The ['purge'] events of a scan, logged one by one in the source. *)
Definition log_purges (n : nat) : M unit :=
  modify (fun st => with_stats (purged n (stats st)) st).

(** The body of [types.forEach] in [purge].  A member of the prototype
    chain passes [if (!cache) return] and has no [forEach].  The entries
    are scanned before [this.config[type]] is destructured, which throws
    on [undefined]; a member of [Object.prototype] has no [limit], and
    [cache.size > undefined] is false. *)
Definition purge_type (now : Z) (type : string) : M unit :=
  fun st =>
    match cache_slot type st with
    | Ok Absent => ret tt st
    | Ok Inherited => throw TypeError st
    | Ok (Own c) =>
        let s := purge_scan now c in
        let scanned :=
          modify (with_cache (JsMap.set type (s_cache s) (cache st))) >>
          log_purges (s_purged s) in
        match config_slot type st with
        | Absent => (scanned >> throw TypeError) st
        | Inherited => scanned st
        | Own cf =>
            let '(c', n) := purge_evict (limit cf) s in
            (modify (with_cache (JsMap.set type c' (cache st))) >>
             log_purges n) st
        end
    | Throw e => throw e st
    | OutOfFuel => (st, OutOfFuel)
    end.

Definition purge (now : Z) (modelNames : list string) : M unit :=
  fun st => forEach (purge_type now) (types_of modelNames st) st.

(** *** [size] *)

(** The number [size] returns: a count, or [NaN]. *)
Inductive number : Type :=
  | Num (n : nat)
  | NaN.

(** [(type) => this.cache[type]], where it returns. *)
Definition has_slot (st : state) (type : string) : bool :=
  match cache_slot type st with
  | Ok Absent => false
  | _ => true
  end.

(** [acc + this.cache[type].size]: a member of the prototype chain has
    no [size], and a sum with [undefined] or [NaN] is [NaN]. *)
Definition size_add (st : state) (acc : number) (type : string) : number :=
  match acc, cache_slot type st with
  | Num n, Ok (Own c) => Num (n + JsMap.size c)
  | _, _ => NaN
  end.

(** [types.filter((type) => this.cache[type]).reduce(..., 0)]: the
    filter reads the slot of every type, and throws where the getter of
    [size] does. *)
Definition size (modelNames : list string) (st : state) : outcome number :=
  let types := types_of modelNames st in
  match
    List.find
      (fun type => match cache_slot type st with Ok _ => false | _ => true end)
      types
  with
  | Some _ => Throw TypeError
  | None => Ok (fold_left (size_add st) (List.filter (has_slot st) types) (Num 0))
  end.

(** *** [clear] *)

(** [set.add(x)] on a JavaScript [Set] kept in insertion order. *)
Definition Set_add (x : string) (s : list string) : list string :=
  if decide (x ∈ s) then s else s ++ [x].

(** What the [while] loop of [clear] leaves behind: the set
    [typesToClear] and, as a ghost, the types for which the body ran past
    the [visited] guard, in that order. *)
Record closure : Type :=
  Closure { typesToClear : list string; visits : list string }.

(** The [while (queue.length)] loop: one unit of fuel per iteration. *)
Fixpoint clear_loop (assocs : JsMap.t (list string)) (fuel : nat)
    (queue : list string) (visited : gset string) (acc : closure)
    : option closure :=
  match queue with
  | [] => Some acc
  | type :: queue =>
      match fuel with
      | O => None
      | S fuel =>
          if decide (type ∈ visited) then
            clear_loop assocs fuel queue visited acc
          else
            let visited := {[type]} ∪ visited in
            let acc :=
              Closure (Set_add type (typesToClear acc)) (visits acc ++ [type]) in
            match JsMap.get type assocs with
            | Some assocTypes =>
                clear_loop assocs fuel
                  (queue ++ filter (fun assocType => assocType ∉ visited) assocTypes)
                  visited acc
            | None => clear_loop assocs fuel queue visited acc
            end
      end
  end.

(** [if (this.cache[type]) this.cache[type].clear()]: a member of the
    prototype chain is truthy and has no [clear]. *)
Definition clear_type (type : string) : M unit :=
  fun st =>
    match cache_slot type st with
    | Ok (Own _) =>
        modify (with_cache (JsMap.set type JsMap.empty (cache st))) st
    | Ok Absent => ret tt st
    | Ok Inherited => throw TypeError st
    | Throw e => throw e st
    | OutOfFuel => (st, OutOfFuel)
    end.

Definition clear (fuel : nat) (modelNames : list string) : M unit :=
  fun st =>
    match clear_loop (associations st) fuel (types_of modelNames st) ∅
            (Closure [] []) with
    | Some c => forEach clear_type (typesToClear c) st
    | None => (st, OutOfFuel)
    end.

(** *** Associations *)

(** A Sequelize model as the cache reads it: its [name], whether
    [associate] is a function, and [associations] (if truthy) as the list
    of the [association.target?.name] of its values, [None] standing for
    [undefined]. *)
Record model : Type :=
  Model { name : string;
          has_associate : bool;
          model_associations : option (list (option string)) }.

Definition _addAssociations (modelName : string)
    (associatedModels : list string) : M unit :=
  modify (fun st =>
    with_associations
      (JsMap.set modelName associatedModels (associations st)) st).

(** The body of the [for ... of] loop. *)
Definition add_reverse (modelName : string)
    (a : JsMap.t (list string)) (associatedModel : string)
    : JsMap.t (list string) :=
  let a :=
    if JsMap.has associatedModel a then a
    else JsMap.set associatedModel [] a in
  match JsMap.get associatedModel a with
  | Some l =>
      if decide (modelName ∈ l) then a
      else JsMap.set associatedModel (l ++ [modelName]) a
  | None => a
  end.

(** The array iterated is the one just stored under [modelName]; the loop
    pushes to it only if it lacks [modelName] while being the list of
    [modelName] itself, which cannot happen, so it is iterated as it
    was. *)
Definition _addReverseAssociations (modelName : string)
    (associatedModels : list string) : M unit :=
  modify (fun st =>
    with_associations
      (fold_left (add_reverse modelName) associatedModels (associations st))
      st).

(** [.map((association) => association.target?.name).filter(Boolean)] *)
Definition associated_names (l : list (option string)) : list string :=
  omap (fun n =>
          match n with
          | Some s => if decide (s = "") then None else Some s
          | None => None
          end) l.

Definition _registerAssociations (target : model) : M unit :=
  match model_associations target with
  | None => ret tt
  | Some assocs =>
      let associatedModels := associated_names assocs in
      match associatedModels with
      | [] => ret tt
      | _ =>
          _addAssociations (name target) associatedModels >>
          _addReverseAssociations (name target) associatedModels
      end
  end.

(** The function [_wrapAssociateMethod] returns, called on a model whose
    own [associate] has run and left [target] behind. *)
Definition associate_wrapper (target : model) : M unit :=
  _registerAssociations target.

(** ** [init]: the proxy around a model *)

(** How a promise returned by the model settles. *)
Inductive settled : Type :=
  | Resolved (v : value)
  | Rejected (e : value).

(** What [target[prop](...args)] does: it throws, or returns a promise,
    or [undefined]/[null], or some other value without a [then]. *)
Inductive response : Type :=
  | RThrow (e : value)
  | RPromise (p : settled)
  | RNullish
  | ROther.

(** What the members of the proxy are. *)
Inductive member : Type :=
  | AssociateWrapper
  | NoCache
  | ClearCache
  | ClearCacheAll
  | Original
  | Fn (cf : cfg).

(** What the caching callable returns when its body has run. *)
Inductive fn_value : Type :=
  | Bypassed (p : settled)
  | FromCache (d : value)
  | Loading (key hash : string) (p : settled).

(** The closure variable [cache] of [init] is the [Map] stored at
    [this.cache[type]], which [init] has created before any call. *)
Definition store_of (type : string) (st : state) : store :=
  default JsMap.empty (JsMap.get type (cache st)).

Definition set_store (type : string) (c : store) : M unit :=
  modify (fun st => with_cache (JsMap.set type c (cache st)) st).

(** [(acc, { transaction }) => acc || transaction]; destructuring
    [undefined] or [null] throws a [TypeError]. *)
Definition txn_step (acc : outcome value) (arg : value) : outcome value :=
  match acc with
  | Ok a =>
      if nullish arg then Throw TypeError
      else Ok (if truthy a then a else get_prop "transaction" arg)
  | _ => acc
  end.

(** [args.reduce(..., false)] *)
Definition withinTxn (args : list value) : outcome value :=
  fold_left txn_step args (Ok (VBool false)).

(** [!expires || expires > Date.now()] *)
Definition is_live (now : Z) (e : expiry) : bool :=
  negb (expiry_truthy e) || (now <? expiry_num e).

(** [const promise = target[prop](...args); assert(promise.then, ...)] *)
Definition call_target (type prop : string) (args : list value)
    (r : response) : M settled :=
  modify (fun st => with_calls (calls st ++ [Call type prop args]) st) >>
  match r with
  | RThrow e => throw (Thrown e)
  | RPromise p => ret p
  | RNullish => throw TypeError
  | ROther => throw AssertionError
  end.

(** [this.cache[type] = new Map()], in strict mode: the assignment
    throws where it meets an inherited accessor without a setter, which
    is where reading throws. *)
Definition assign_store (type : string) : M unit :=
  fun st =>
    match cache_slot type st with
    | Ok _ => modify (with_cache (JsMap.set type JsMap.empty (cache st))) st
    | _ => throw TypeError st
    end.

(** [init], up to the proxy it returns: the store is created whenever
    [this.config[type]] is truthy. *)
Definition init (target : model) : M unit :=
  fun st =>
    match config_slot (name target) st with
    | Absent => log EvInit st
    | Own _ | Inherited => (assign_store (name target) >> log EvInit) st
    end.

Section Interception.

(** [util.inspect] with the options of [key], and the hexadecimal MD5
    digest of [crypto]: functions of the platform. *)
Variable inspect : value -> string.
Variable md5_hex : string -> string.

Definition key (obj : value) : string := inspect obj.

Definition key_of (type prop : string) (args : list value) : string :=
  key (VObj [("type", VStr type); ("prop", VStr prop); ("args", VArr args)]).

Definition hash_of (type prop : string) (args : list value) : string :=
  md5_hex (key_of type prop args).

(** The body of [fn], up to the value it returns; [now] is the clock
    read by the hit test. *)
Definition fn (type prop : string) (now : Z) (args : list value)
    (r : response) : M fn_value :=
  let* txn := (fun st => (st, withinTxn args)) in
  if truthy txn then
    let* promise := call_target type prop args r in
    ret (Bypassed promise)
  else
    let key := key_of type prop args in
    let hash := md5_hex key in
    let* item := (fun st => ret (JsMap.get hash (store_of type st)) st) in
    match item with
    | Some (Item data expires) =>
        if is_live now expires then
          log EvHit >> ret (FromCache data)
        else
          log EvMiss >>
          let* promise := call_target type prop args r in
          ret (Loading key hash promise)
    | None =>
        log EvMiss >>
        let* promise := call_target type prop args r in
        ret (Loading key hash promise)
    end.

(** The callback given to [promise.then]; [now] is the clock read for
    [expires], [now'] the one read by [purge]. *)
Definition fn_then (type : string) (cf : cfg) (hash : string)
    (now now' : Z) (data : value) : M value :=
  if negb (nullish data) then
    let expires := expires_at (ttl cf) now in
    (fun st =>
       set_store type (JsMap.set hash (Item data expires) (store_of type st)) st) >>
    log EvLoad >>
    (fun st =>
       if Z.of_nat (JsMap.size (store_of type st)) >? limit cf
       then purge now' [type] st
       else ret tt st) >>
    ret data
  else ret data.

(** What the caller of [fn] gets once the promises have settled. *)
Definition fn_settle (type : string) (cf : cfg) (now now' : Z)
    (v : fn_value) : M value :=
  match v with
  | Bypassed (Resolved d) => ret d
  | Bypassed (Rejected e) => throw (Thrown e)
  | FromCache d => ret d
  | Loading _ hash (Resolved d) => fn_then type cf hash now now' d
  | Loading _ _ (Rejected e) => throw (Thrown e)
  end.

(** The [get] trap of the proxy.  [config] is [this.config[type]] as
    [init] read it; when it is a member of [Object.prototype] its
    [methods] is [undefined] and the spread [[...methods, ...]] throws. *)
Definition proxy_get (fuel : nat) (target : model) (prop : string)
    : M member :=
  fun st =>
    let type := name target in
    if bool_decide (prop = "associate") && has_associate target then
      ret AssociateWrapper st
    else if bool_decide (prop = "noCache") then ret NoCache st
    else if bool_decide (prop = "clearCache") then ret ClearCache st
    else if bool_decide (prop = "clearCacheAll") then ret ClearCacheAll st
    else
      match config_slot type st with
      | Absent => ret Original st
      | Inherited => throw TypeError st
      | Own cf =>
          if negb (bool_decide (prop ∈ methods cf ++ methodsUpdate cf)) then
            ret Original st
          else if bool_decide (prop ∈ methodsUpdate cf) then
            ((if clearOnUpdate cf then clear fuel [type] else ret tt) >>
             ret Original) st
          else ret (Fn cf) st
      end.

End Interception.

(** ** The constructor *)

(** The options given for one model: [None] is a property left out (or
    [undefined]), for which the destructuring takes the default. *)
Record options_t : Type :=
  Options { o_ttl : option ttl_t;
            o_methods : option (list string);
            o_methodsUpdate : option (list string);
            o_limit : option Z;
            o_clearOnUpdate : option bool }.

(** [defaults] *)
Definition defaults : cfg :=
  Cfg (TtlNum (60 * 60))
    ["findOne"; "findAndCountAll"; "findByPk"; "findAll"; "count"; "min";
     "max"; "sum"; "find"; "findAndCount"; "findById"; "findByPrimary"; "all"]
    ["create"; "bulkCreate"; "update"; "destroy"; "upsert"; "findOrBuild";
     "insertOrUpdate"; "findOrInitialize"; "updateAttributes"; "save"]
    50 true.

(** The destructuring of one value of [config], with its defaults. *)
Definition with_defaults (o : options_t) : cfg :=
  Cfg (default (ttl defaults) (o_ttl o))
    (default (methods defaults) (o_methods o))
    (default (methodsUpdate defaults) (o_methodsUpdate o))
    (default (limit defaults) (o_limit o))
    (default (clearOnUpdate defaults) (o_clearOnUpdate o)).

(** [Object.entries(config).reduce((acc, [type, {...}]) =>
    ({ ...acc, [type]: {...} }), {})] *)
Definition configure (config : JsMap.t options_t) : JsMap.t cfg :=
  fold_left (fun acc e => JsMap.set e.1 (with_defaults e.2) acc) config
    JsMap.empty.

(** The cache object the constructor leaves; [debug], [ops], the
    delegate and the timer of [ops] are outside the state. *)
Definition constructor (config : JsMap.t options_t) : state :=
  State (configure config) JsMap.empty JsMap.empty (Stats 0 0 0 0) [].

(** ** The members the proxy adds *)

(** [() => model] *)
Definition noCache (target : model) : model := target.

(** [() => this.clear(type)] *)
Definition clearCache (fuel : nat) (target : model) : M unit :=
  clear fuel [name target].

(** [() => this.clear()] *)
Definition clearCacheAll (fuel : nat) : M unit := clear fuel [].

(** * Specifications *)

(** ** [purge] *)

(** The entries the scan does not delete. *)
Definition kept (now : Z) (m : list (string * item)) : store :=
  filter (fun e => is_expired now (expires e.2) = false) m.

(** The number of entries the scan deletes. *)
Definition expired_count (now : Z) (m : list (string * item)) : nat :=
  length (filter (fun e => is_expired now (expires e.2) = true) m).

(** The candidate after one more entry. *)
Definition track (o : option oldest_t) (e : string * item) : option oldest_t :=
  if is_older (expires e.2) o then Some (Oldest e.1 (expires e.2)) else o.

(** [o] is the entry of [l] on which the scan settles: the first entry
    whose expiry, read as a number, is minimal. *)
Definition first_earliest (o : oldest_t) (l : store) : Prop :=
  exists a it b,
    l = a ++ (o_hash o, it) :: b /\
    expires it = o_expires o /\
    (forall e, e ∈ a -> expiry_num (o_expires o) < expiry_num (expires e.2)) /\
    (forall e, e ∈ b -> expiry_num (o_expires o) <= expiry_num (expires e.2)).

(** Well-formedness of a concrete [Map], by computation. *)
Ltac solve_wf :=
  unfold JsMap.wf; apply (bool_decide_unpack _); vm_compute; exact I.

(** The entry has expired at [now]: its expiry is a timestamp other
    than 0 (which is falsy) that is at most [now]. *)
Definition expired_at (now : Z) (it : item) : Prop :=
  match expires it with
  | ENum t => t <> 0 /\ t <= now
  | EFalse => False
  end.

#[global] Instance expired_at_dec now it : Decision (expired_at now it).
Proof. unfold expired_at. destruct (expires it); apply _. Defined.

(** The entries that have not expired, in their order. *)
Definition fresh (now : Z) (m : list (string * item)) : store :=
  filter (fun e => ~ expired_at now e.2) m.




Definition purge_example : store :=
  [("a", Item (VNum 1) (ENum 50)); ("b", Item (VNum 2) (ENum 300));
   ("c", Item (VNum 3) (ENum 200)); ("d", Item (VNum 4) (ENum 400))].

(** C2 as stated: an entry whose expiry is [false] is never the tracked
    oldest entry of a scan and is never deleted by a purge. *)
Definition purge_spares_never_expiring : Prop :=
  forall (now limit : Z) (m : store) h it,
    JsMap.wf m -> (h, it) ∈ m -> expires it = EFalse ->
    (forall o, s_oldest (purge_scan now m) = Some o -> o_hash o <> h) /\
    (h, it) ∈ (purge_store now limit m).1.

(** ** Names and the prototype chain *)

(** [this.cache] inherits a member called [type]: one of
    [Object.prototype], or one of [Map.prototype] once a [Map] is its
    prototype. *)
Definition inherits (st : state) (type : string) : Prop :=
  type ∈ object_prototype \/
  (is_Some (JsMap.get "__proto__" (cache st)) /\ type ∈ map_prototype).

(** Reading [this.cache[type]] gives the store kept for [type], or
    [undefined] when there is none. *)
Definition plain (st : state) (type : string) : Prop :=
  is_Some (JsMap.get type (cache st)) \/ ~ inherits st type.

(** ** [clear] *)

(** [t] is one of [roots] or can be reached from them along the lists of
    the association map. *)
Inductive reachable (assocs : JsMap.t (list string)) (roots : list string)
    : string -> Prop :=
  | reach_root t : t ∈ roots -> reachable assocs roots t
  | reach_step s l t :
      reachable assocs roots s -> JsMap.get s assocs = Some l -> t ∈ l ->
      reachable assocs roots t.

(** The total length of the lists of the types not visited yet. *)
Fixpoint weight (assocs : list (string * list string))
    (visited : gset string) : nat :=
  match assocs with
  | [] => 0%nat
  | (k, l) :: r =>
      ((if decide (k ∈ visited) then 0 else length l) + weight r visited)%nat
  end.

(** Fuel that is enough for the loop of [clear] started on [roots]. *)
Definition clear_fuel (assocs : JsMap.t (list string)) (roots : list string)
    : nat :=
  (length roots + weight assocs ∅)%nat.

(** What [clear] has to establish for a closure [c]. *)
Definition is_closure (assocs : JsMap.t (list string)) (roots : list string)
    (c : closure) : Prop :=
  typesToClear c = visits c /\
  NoDup (visits c) /\
  forall t, t ∈ visits c <-> reachable assocs roots t.

(** The state [st'] is [st] with the stores of the types in [P] emptied. *)
Definition cleared (P : string -> Prop) (st st' : state) : Prop :=
  config st' = config st /\
  associations st' = associations st /\
  stats st' = stats st /\
  calls st' = calls st /\
  JsMap.keys (cache st') = JsMap.keys (cache st) /\
  (forall t, P t ->
     JsMap.get t (cache st') = (fun _ => JsMap.empty) <$> JsMap.get t (cache st)) /\
  (forall t, ~ P t -> JsMap.get t (cache st') = JsMap.get t (cache st)).

(** Three models associated in a cycle, each with one cached entry. *)
Definition cycle_state : state :=
  State []
    [("A", [("h1", Item (VNum 1) EFalse)]);
     ("B", [("h2", Item (VNum 2) EFalse)]);
     ("C", [("h3", Item (VNum 3) EFalse)]);
     ("D", [("h4", Item (VNum 4) EFalse)])]
    [("A", ["B"; "C"]); ("B", ["A"; "C"]); ("C", ["A"; "B"])]
    (Stats 0 0 0 0) [].

(** ** The [get] trap *)

(** The members the proxy answers itself, whatever the configuration. *)
Definition own_member (target : model) (prop : string) : bool :=
  bool_decide (prop = "associate") && has_associate target
  || bool_decide (prop = "noCache")
  || bool_decide (prop = "clearCache")
  || bool_decide (prop = "clearCacheAll").



(** Models [A] and [B] associated, [C] apart. *)
Definition update_state : state :=
  State [("A", Cfg (TtlNum 60) ["findOne"] ["update"] 50 true)]
    [("A", [("h1", Item (VNum 1) (ENum 1000))]);
     ("B", [("h2", Item (VNum 2) (ENum 1000))]);
     ("C", [("h3", Item (VNum 3) (ENum 1000))])]
    [("A", ["B"]); ("B", ["A"])]
    (Stats 0 0 0 0) [].

(** ** Associations *)


(** The association map is symmetric. *)
Definition associations_symmetric (a : JsMap.t (list string)) : Prop :=
  forall x y l,
    JsMap.get x a = Some l -> y ∈ l ->
    exists l', JsMap.get y a = Some l' /\ x ∈ l'.

Definition empty_state : state := State [] [] [] (Stats 0 0 0 0) [].

(** ** The caching callable *)

(** The state after [target[prop](...args)] has been called. *)
Definition called (type prop : string) (args : list value) (st : state) : state :=
  with_calls (calls st ++ [Call type prop args]) st.

(** What the two lines [const promise = target[prop](...args);
    assert(promise.then, ...)] leave of a response. *)
Definition asserted (r : response) : outcome settled :=
  match r with
  | RThrow e => Throw (Thrown e)
  | RPromise p => Ok p
  | RNullish => Throw TypeError
  | ROther => Throw AssertionError
  end.

Definition map_outcome {A B} (f : A -> B) (o : outcome A) : outcome B :=
  match o with
  | Ok a => Ok (f a)
  | Throw e => Throw e
  | OutOfFuel => OutOfFuel
  end.

(** An argument carries a transaction marker. *)
Definition has_transaction (arg : value) : bool :=
  truthy (get_prop "transaction" arg).

(** An entry of the store that a lookup at [now] answers from. *)
Definition live_entry (now : Z) (c : store) (hash : string) (it : item) : Prop :=
  JsMap.get hash c = Some it /\
  (expires it = EFalse \/ exists t, expires it = ENum t /\ now < t).

(** No entry carries the timestamp 0. *)
Definition store_ok (c : store) : Prop :=
  forall h it, JsMap.get h c = Some it -> expires it <> ENum 0.

(** C7 as stated: a call one of whose arguments carries a transaction
    marker goes to the model, whose promise is returned, and leaves the
    cache object as it was but for the record of the call. *)
Definition transaction_bypasses : Prop :=
  forall (inspect : value -> string) (md5_hex : string -> string)
    (type prop : string) (now : Z) (args : list value) (p : settled)
    (st : state),
    (exists a, a ∈ args /\ has_transaction a = true) ->
    fn inspect md5_hex type prop now args (RPromise p) st
    = (called type prop args st, Ok (Bypassed p)).

(** Demonstration stand-ins for [util.inspect] and the MD5 digest. *)
Definition demo_inspect (v : value) : string :=
  match v with
  | VObj [(_, VStr type); (_, VStr prop); (_, VArr args)] =>
      type +:+ "." +:+ prop +:+ "/" +:+ String.concat "" ((fun _ => "_") <$> args)
  | _ => "?"
  end.

Definition demo_md5 (s : string) : string := "#" +:+ s.

Definition user_cfg : cfg := Cfg (TtlNum 5) ["findOne"] ["update"] 2 true.

Definition user_state : state :=
  State [("User", user_cfg)]
    [("User", [("#User.findOne/_", Item (VNum 7) (ENum 5000))])]
    [] (Stats 0 1 1 0) [Call "User" "findOne" [VObj [("where", VNum 1)]]].


(** ** The invariant of the cache object *)

(** A store is a [Map] none of whose entries carries the timestamp 0. *)
Definition store_wf (c : store) : Prop := JsMap.wf c /\ store_ok c.

(** Every store of the cache object is well formed. *)
Definition state_ok (st : state) : Prop :=
  JsMap.wf (cache st) /\
  forall type c, JsMap.get type (cache st) = Some c -> store_wf c.

(** ** Further vocabulary *)

(** Purges of one store in a row, one for each reading of the clock. *)
Definition purge_rounds (limit : Z) (nows : list Z) (c : store) : store :=
  fold_left (fun c now => (purge_store now limit c).1) nows c.

(** Every store belongs to a model for which [this.config[type]] is
    truthy: a model that has a configuration, or one named like a member
    of [Object.prototype]. *)
Definition configured (st : state) : Prop :=
  forall type c,
    JsMap.get type (cache st) = Some c ->
    is_Some (JsMap.get type (config st)) \/ type ∈ object_prototype.

(** The stores of [st'] are those of [st] with entries removed, the rest
    of the cache object but the counters being the same. *)
Definition shrunk (st st' : state) : Prop :=
  config st' = config st /\
  associations st' = associations st /\
  calls st' = calls st /\
  JsMap.keys (cache st') = JsMap.keys (cache st) /\
  forall type c,
    JsMap.get type (cache st) = Some c ->
    exists c', JsMap.get type (cache st') = Some c' /\ c' `sublist_of` c.

(** The stores are [Map]s. *)
Definition stores_wf (st : state) : Prop :=
  forall type c, JsMap.get type (cache st) = Some c -> JsMap.wf c.

(** The whole of a call of the caching callable: the body of [fn] at the
    clock [now0], then the promises settling, the callback of
    [promise.then] reading the clocks [now] and [now']. *)
Definition whole_call (inspect : value -> string) (md5_hex : string -> string)
    (type prop : string) (cf : cfg) (now0 now now' : Z) (args : list value)
    (r : response) : M value :=
  let* v := fn inspect md5_hex type prop now0 args r in
  fn_settle type cf now now' v.

(** The list of a type after [modelName] has been registered as one of
    its associations: [modelName] is appended unless it is there. *)
Definition with_reverse (modelName : string) (o : option (list string))
    : list string :=
  let l := default [] o in
  if decide (modelName ∈ l) then l else l ++ [modelName].

(** ** The life of a cache object *)

(** No store holds more entries than the limit of its model (none at
    all under a negative limit). *)
Definition bounded (st : state) : Prop :=
  forall type cf,
    JsMap.get type (config st) = Some cf ->
    Z.of_nat (JsMap.size (store_of type st)) <= Z.max 0 (limit cf).

(** One use of the cache object: a method of the class, a read of a
    member of a proxy, a call of the caching callable of a configured
    model, or the callback of such a call, which reads a clock that is
    not negative.  The state kept is the one the operation leaves,
    whether it returns or throws. *)
Inductive step (st : state) : state -> Prop :=
  | step_init target : step st (init target st).1
  | step_get fuel target prop : step st (proxy_get fuel target prop st).1
  | step_fn inspect md5_hex type prop now args r :
      step st (fn inspect md5_hex type prop now args r st).1
  | step_then type cf hash now now' data :
      JsMap.get type (config st) = Some cf -> 0 <= now ->
      step st (fn_then type cf hash now now' data st).1
  | step_clear fuel modelNames : step st (clear fuel modelNames st).1
  | step_purge now modelNames : step st (purge now modelNames st).1
  | step_associate target : step st (associate_wrapper target st).1.

(** The states a cache object built from [raw] goes through. *)
Inductive reachable_state (raw : JsMap.t options_t) : state -> Prop :=
  | reachable_new : reachable_state raw (constructor raw)
  | reachable_step st st' :
      reachable_state raw st -> step st st' -> reachable_state raw st'.

(** What holds of the cache object throughout. *)
Definition invariant (cfgs : JsMap.t cfg) (st : state) : Prop :=
  config st = cfgs /\ state_ok st /\ configured st /\ bounded st.

(** ** Names that meet the prototype chain *)

(** [A] is associated with a model named [constructor], for which the
    cache holds no store, and with [B]. *)
Definition inherited_state : state :=
  State []
    [("A", [("h1", Item (VNum 1) EFalse)]);
     ("B", [("h2", Item (VNum 2) EFalse)])]
    [("A", ["constructor"; "B"])]
    (Stats 0 0 0 0) [].
(** * Properties *)

(** ** The JavaScript [Map] *)

Module JsMapFacts.
Import JsMap.

Section Facts.
Context {V : Type}.
Implicit Types (m a b : t V) (k : string) (v : V).

Lemma get_set_eq k v m : get k (set k v m) = Some v.
Proof.
  unfold get. induction m as [|[k' v'] m IH]; simpl.
  - by rewrite decide_True.
  - destruct (decide (k = k')); simpl.
    + by rewrite decide_True.
    + by rewrite decide_False.
Qed.

Lemma get_set_ne k k' v m : k ≠ k' -> get k' (set k v m) = get k' m.
Proof.
  unfold get. intros Hne. induction m as [|[k0 v0] m IH]; simpl.
  - by rewrite decide_False.
  - destruct (decide (k = k0)) as [->|]; simpl.
    + by rewrite !decide_False.
    + destruct (decide (k' = k0)); auto.
Qed.

Lemma get_set k k' v m :
  get k' (set k v m) = if decide (k = k') then Some v else get k' m.
Proof.
  destruct (decide (k = k')) as [->|].
  - apply get_set_eq.
  - by apply get_set_ne.
Qed.

Lemma get_None k m : get k m = None <-> k ∉ keys m.
Proof.
  unfold get, keys. induction m as [|[k' v'] m IH]; simpl.
  - split; [intros _; apply not_elem_of_nil | done].
  - rewrite not_elem_of_cons. destruct (decide (k = k')) as [->|Hne].
    + split; [done | intros [? _]; done].
    + rewrite IH. tauto.
Qed.

Lemma get_Some_elem k v m : get k m = Some v -> (k, v) ∈ m.
Proof.
  unfold get. induction m as [|[k' v'] m IH]; simpl; [done|].
  destruct (decide (k = k')) as [->|].
  - intros [= ->]. left.
  - intros. right. auto.
Qed.

Lemma elem_get k v m : wf m -> (k, v) ∈ m -> get k m = Some v.
Proof.
  unfold wf, get, keys. induction m as [|[k' v'] m IH]; simpl.
  - intros _ H. by apply elem_of_nil in H.
  - rewrite NoDup_cons. intros [Hk Hm] [[= -> ->]|H]%elem_of_cons.
    + by rewrite decide_True.
    + rewrite decide_False; [auto|].
      intros ->. apply Hk. apply list_elem_of_fmap. by exists (k', v).
Qed.

Lemma keys_app a b : keys (a ++ b) = keys a ++ keys b.
Proof. apply fmap_app. Qed.

Lemma delete_fresh k m : k ∉ keys m -> delete k m = m.
Proof.
  unfold keys. induction m as [|[k' v'] m IH]; simpl; [done|].
  rewrite not_elem_of_cons. intros [Hne Hk].
  rewrite decide_False by done. by rewrite IH.
Qed.

(** Deleting the key of an entry removes that entry and nothing
    else. *)
Lemma delete_middle k v a b :
  k ∉ keys a -> delete k (a ++ (k, v) :: b) = a ++ b.
Proof.
  unfold keys. induction a as [|[k' v'] a IH]; simpl.
  - intros _. by rewrite decide_True.
  - rewrite not_elem_of_cons. intros [Hne Hk].
    rewrite decide_False by done. by rewrite IH.
Qed.

Lemma keys_set_fresh k v m : k ∉ keys m -> set k v m = m ++ [(k, v)].
Proof.
  unfold keys. induction m as [|[k' v'] m IH]; simpl; [done|].
  rewrite not_elem_of_cons. intros [Hne Hk].
  rewrite decide_False by done. by rewrite IH.
Qed.

Lemma keys_set_present k v m : k ∈ keys m -> keys (set k v m) = keys m.
Proof.
  unfold keys. induction m as [|[k' v'] m IH]; simpl.
  - intros H. by apply elem_of_nil in H.
  - destruct (decide (k = k')) as [->|Hne]; simpl; [done|].
    intros [?|H]%elem_of_cons; [done|]. f_equal. by apply IH.
Qed.

Lemma wf_set k v m : wf m -> wf (set k v m).
Proof.
  unfold wf. intros Hm. destruct (decide (k ∈ keys m)) as [Hin|Hout].
  - by rewrite (keys_set_present k v m Hin).
  - rewrite (keys_set_fresh k v m Hout), keys_app. simpl.
    apply NoDup_app. split_and!; [done| |apply NoDup_singleton].
    intros x Hx ->%list_elem_of_singleton. done.
Qed.

Lemma wf_filter (P : string * V -> Prop) `{!forall e, Decision (P e)} m :
  wf m -> wf (filter P m).
Proof.
  unfold wf, keys. intros Hm.
  apply (sublist_NoDup ((filter P m).*1) (m.*1)); [exact Hm|].
  apply fmap_sublist, sublist_filter.
Qed.

End Facts.
End JsMapFacts.

(** ** [purge] *)

Section Purge.
Variable now : Z.

Lemma purge_visit_expired s h it :
  is_expired now (expires it) = true ->
  purge_visit now s (h, it)
  = Scan (JsMap.delete h (s_cache s)) (s_oldest s) (S (s_purged s)).
Proof. intros H. unfold purge_visit. by rewrite H. Qed.

Lemma purge_visit_kept s h it :
  is_expired now (expires it) = false ->
  purge_visit now s (h, it)
  = Scan (s_cache s) (track (s_oldest s) (h, it)) (s_purged s).
Proof.
  intros H. unfold purge_visit, track. rewrite H. simpl.
  destruct (is_older _ _); [done | by destruct s].
Qed.

Lemma purge_scan_from (l pre : store) o n :
  JsMap.wf (pre ++ l) ->
  fold_left (purge_visit now) l (Scan (pre ++ l) o n)
  = Scan (pre ++ kept now l) (fold_left track (kept now l) o)
      (n + expired_count now l).
Proof.
  unfold JsMap.wf, kept, expired_count.
  revert pre o n. induction l as [|[h it] l IH]; intros pre o n Hwf;
    cbn [fold_left].
  - simpl. f_equal. lia.
  - destruct (is_expired now (expires it)) eqn:He.
    + rewrite purge_visit_expired by done. cbn [s_cache s_oldest s_purged].
      rewrite JsMapFacts.keys_app in Hwf. simpl in Hwf.
      apply NoDup_app in Hwf as (Hpre & Hdisj & Hl).
      rewrite JsMapFacts.delete_middle
        by (intros Hin; apply (Hdisj _ Hin); left).
      rewrite filter_cons_False by (simpl; congruence).
      rewrite filter_cons_True by done.
      rewrite IH.
      * f_equal. simpl. lia.
      * rewrite JsMapFacts.keys_app. apply NoDup_app.
        apply NoDup_cons in Hl as [_ Hl]. split_and!; [done| |done].
        intros x Hx Hx'. apply (Hdisj _ Hx). by right.
    + rewrite purge_visit_kept by done. cbn [s_cache s_oldest s_purged].
      rewrite filter_cons_True by done.
      rewrite filter_cons_False by (simpl; congruence).
      replace (pre ++ (h, it) :: l) with ((pre ++ [(h, it)]) ++ l) in *
        by (by rewrite <- app_assoc).
      rewrite IH by done. simpl. by rewrite <- app_assoc.
Qed.

Lemma purge_scan_spec (m : store) :
  JsMap.wf m ->
  purge_scan now m
  = Scan (kept now m) (fold_left track (kept now m) None) (expired_count now m).
Proof. intros Hwf. apply (purge_scan_from m [] None 0%nat Hwf). Qed.

Lemma track_from (l : store) (o0 : oldest_t) :
  exists o,
    fold_left track l (Some o0) = Some o /\
    ((o = o0 /\
      forall e, e ∈ l -> expiry_num (o_expires o0) <= expiry_num (expires e.2))
     \/ (expiry_num (o_expires o) < expiry_num (o_expires o0) /\
         first_earliest o l)).
Proof.
  revert o0. induction l as [|[h it] l IH]; intros o0; simpl.
  - exists o0. split; [done|]. left. split; [done|].
    intros e He. by apply elem_of_nil in He.
  - unfold track at 2. simpl.
    destruct (expiry_num (expires it) <? expiry_num (o_expires o0)) eqn:Hlt.
    + apply Z.ltb_lt in Hlt.
      destruct (IH (Oldest h (expires it))) as (o & Ho & [[-> Hall]|[Hlt' Hfe]]).
      * exists (Oldest h (expires it)). split; [done|]. right. split; [done|].
        exists [], it, l. simpl. split_and!; [done|done| |done].
        intros e He. by apply elem_of_nil in He.
      * exists o. split; [done|]. right. simpl in Hlt'. split; [lia|].
        destruct Hfe as (a & it' & b & -> & Hexp & Ha & Hb).
        exists ((h, it) :: a), it', b. split_and!; [done|done| |done].
        intros e [->|He]%elem_of_cons; simpl; [lia|auto].
    + apply Z.ltb_ge in Hlt.
      destruct (IH o0) as (o & Ho & [[-> Hall]|[Hlt' Hfe]]).
      * exists o0. split; [done|]. left. split; [done|].
        intros e [->|He]%elem_of_cons; simpl; [lia|auto].
      * exists o. split; [done|]. right. split; [done|].
        destruct Hfe as (a & it' & b & -> & Hexp & Ha & Hb).
        exists ((h, it) :: a), it', b. split_and!; [done|done| |done].
        intros e [->|He]%elem_of_cons; simpl; [lia|auto].
Qed.

Lemma track_spec (l : store) :
  match fold_left track l None with
  | None => l = []
  | Some o => first_earliest o l
  end.
Proof.
  destruct l as [|[h it] l]; simpl; [done|].
  unfold track at 2. simpl.
  destruct (track_from l (Oldest h (expires it)))
    as (o & -> & [[-> Hall]|[Hlt Hfe]]).
  - exists [], it, l. simpl. split_and!; [done|done| |done].
    intros e He. by apply elem_of_nil in He.
  - destruct Hfe as (a & it' & b & -> & Hexp & Ha & Hb). simpl in Hlt.
    exists ((h, it) :: a), it', b. split_and!; [done|done| |done].
    intros e [->|He]%elem_of_cons; simpl; [lia|auto].
Qed.

End Purge.

Section PurgeStore.
Variables now limit : Z.
Variable m : store.
Hypothesis Hwf : JsMap.wf m.

Lemma purge_store_unfold :
  purge_store now limit m
  = purge_evict limit
      (Scan (kept now m) (fold_left track (kept now m) None)
         (expired_count now m)).
Proof. unfold purge_store. by rewrite purge_scan_spec. Qed.

Lemma purge_store_under :
  Z.of_nat (length (kept now m)) <= limit ->
  purge_store now limit m = (kept now m, expired_count now m).
Proof.
  intros Hle. rewrite purge_store_unfold. unfold purge_evict, JsMap.size.
  simpl. destruct (fold_left track (kept now m) None); [|done].
  destruct (Z.gtb_spec (Z.of_nat (length (kept now m))) limit); [lia|done].
Qed.

Lemma purge_store_none :
  kept now m = [] ->
  purge_store now limit m = ([], expired_count now m).
Proof. intros Hnil. rewrite purge_store_unfold, Hnil. done. Qed.

Lemma purge_store_over :
  limit < Z.of_nat (length (kept now m)) -> kept now m <> [] ->
  exists a h it b,
    kept now m = a ++ (h, it) :: b /\
    (forall e, e ∈ a -> expiry_num (expires it) < expiry_num (expires e.2)) /\
    (forall e, e ∈ b -> expiry_num (expires it) <= expiry_num (expires e.2)) /\
    purge_store now limit m = (a ++ b, S (expired_count now m)).
Proof.
  intros Hlt Hne. rewrite purge_store_unfold. unfold purge_evict. simpl.
  pose proof (track_spec (kept now m)) as Ht.
  destruct (fold_left track (kept now m) None) as [o|]; [|done].
  destruct Ht as (a & it & b & Hk & Hexp & Ha & Hb).
  exists a, (o_hash o), it, b. rewrite Hexp. split_and!; [done|done|done|].
  unfold JsMap.size. rewrite (proj2 (Z.gtb_lt _ _)) by lia.
  f_equal. rewrite Hk. apply JsMapFacts.delete_middle.
  assert (Hkwf : JsMap.wf (kept now m)) by by apply JsMapFacts.wf_filter.
  unfold JsMap.wf in Hkwf. rewrite Hk, JsMapFacts.keys_app in Hkwf.
  apply NoDup_app in Hkwf as (_ & Hdisj & _).
  intros Hin. apply (Hdisj _ Hin). left.
Qed.

Lemma purge_store_sound e :
  e ∈ (purge_store now limit m).1 ->
  e ∈ m /\ is_expired now (expires e.2) = false.
Proof.
  intros He.
  assert (e ∈ kept now m) as Hk.
  { destruct (Z.le_gt_cases (Z.of_nat (length (kept now m))) limit) as [Hle|Hgt].
    - by rewrite (purge_store_under Hle) in He.
    - destruct (decide (kept now m = [])) as [Hnil|Hne].
      + rewrite (purge_store_none Hnil) in He. by apply elem_of_nil in He.
      + destruct purge_store_over as (a & h & it & b & Hk & _ & _ & Hra);
          [lia|done|].
        rewrite Hra in He. simpl in He. rewrite Hk.
        apply elem_of_app in He as [?|?]; apply elem_of_app; [by left|].
        right. by right. }
  unfold kept in Hk. apply list_elem_of_filter in Hk. tauto.
Qed.

Lemma kept_all :
  (forall e, e ∈ m -> is_expired now (expires e.2) = false) ->
  kept now m = m /\ expired_count now m = 0%nat.
Proof.
  clear Hwf. unfold kept, expired_count.
  induction m as [|e l IH]; intros Hfresh; [done|].
  destruct IH as [IH1 IH2]; [intros e' He'; apply Hfresh; by right|].
  rewrite filter_cons_True by (apply Hfresh; left).
  rewrite filter_cons_False by (rewrite Hfresh by left; done).
  by rewrite IH1, IH2.
Qed.

End PurgeStore.

(** The scan's test of expiry and order, in the words of the
    specification. *)
Lemma is_expired_spec now it :
  is_expired now (expires it) = true <-> expired_at now it.
Proof.
  unfold is_expired, expired_at. destruct (expires it) as [|t]; simpl; [done|].
  rewrite andb_true_iff, negb_true_iff, Z.eqb_neq, Z.leb_le. tauto.
Qed.

Lemma kept_fresh now (m : list (string * item)) : kept now m = fresh now m.
Proof.
  unfold kept, fresh. induction m as [|e m IH]; [done|].
  destruct (decide (expired_at now e.2)) as [He|He].
  - rewrite !filter_cons_False; [done|tauto|].
    apply is_expired_spec in He. congruence.
  - rewrite !filter_cons_True; [by rewrite IH|done|].
    rewrite <- is_expired_spec in He. by destruct (is_expired _ _).
Qed.





Lemma purge_example_wf : JsMap.wf purge_example.
Proof. solve_wf. Defined.


(** C2, counterexample.  Two entries that never expire under limit 1:
    the scan tracks the first one and the eviction step deletes it. *)
Lemma purge_spares_never_expiring_fails : ~ purge_spares_never_expiring.
Proof.
  intros H.
  destruct (H 0 1
              [("a", Item (VNum 1) EFalse); ("b", Item (VNum 2) EFalse)]
              "a" (Item (VNum 1) EFalse)) as [Ho _].
  - solve_wf.
  - left.
  - done.
  - apply (Ho (Oldest "a" EFalse)); reflexivity.
Qed.

(** C2, amended.  The expiry step of a scan never deletes an entry whose
    expiry is [false], but such an entry is a candidate for eviction: the
    scan tracks it when nothing is tracked yet or when the tracked expiry
    is a number above 0, and a purge of a store over its limit whose
    entries all never expire deletes the first entry. *)
Theorem purge_never_expiring (now limit : Z) (m : store) :
  JsMap.wf m ->
  (forall e, e ∈ m -> expires e.2 = EFalse -> e ∈ s_cache (purge_scan now m)) /\
  (forall s h d,
     purge_visit now s (h, Item d EFalse)
     = Scan (s_cache s)
         (match s_oldest s with
          | None => Some (Oldest h EFalse)
          | Some o =>
              if 0 <? expiry_num (o_expires o) then Some (Oldest h EFalse)
              else Some o
          end)
         (s_purged s)) /\
  (forall h it rest,
     m = (h, it) :: rest ->
     (forall e, e ∈ m -> expires e.2 = EFalse) ->
     limit < Z.of_nat (length m) ->
     purge_store now limit m = (rest, 1%nat)).
Proof.
  intros Hwf. split_and!.
  - intros e He Hexp. rewrite purge_scan_spec by done. simpl.
    unfold kept. apply list_elem_of_filter. split; [|done].
    by rewrite Hexp.
  - intros s h d. unfold purge_visit. simpl.
    destruct s as [c [o|] n]; simpl; [|done].
    by destruct (0 <? expiry_num (o_expires o)).
  - intros h it rest Hm Hall Hlt.
    destruct (kept_all now m) as [Hkm Hcnt].
    { intros e He. by rewrite (Hall e He). }
    destruct (purge_store_over now limit m Hwf)
      as (a & h' & it' & b & Hk & Ha & _ & Hra).
    + by rewrite Hkm.
    + rewrite Hkm, Hm. done.
    + rewrite Hra, Hcnt. rewrite Hkm in Hk. destruct a as [|x a].
      * simpl in *. rewrite Hm in Hk. by simplify_eq.
      * exfalso. specialize (Ha x (list_elem_of_here _ _)).
        assert (expires x.2 = EFalse) as Hx by (apply Hall; rewrite Hk; left).
        assert (expires (h', it').2 = EFalse) as Hh.
        { apply Hall. rewrite Hk. apply elem_of_app. right. left. }
        simpl in Hh. rewrite Hx, Hh in Ha. simpl in Ha. lia.
Qed.

Lemma purge_never_expiring_witness :
  let m := [("a", Item (VNum 1) EFalse); ("b", Item (VNum 2) EFalse)] in
  JsMap.wf m /\
  purge_store 0 1 m = ([("b", Item (VNum 2) EFalse)], 1%nat).
Proof.
  assert (Hwf : JsMap.wf
                  [("a", Item (VNum 1) EFalse); ("b", Item (VNum 2) EFalse)]).
  { solve_wf. }
  split; [exact Hwf|].
  refine (proj2 (proj2 (purge_never_expiring 0 1 _ Hwf)) _ _ _ eq_refl _ _).
  - intros e He. vm_compute in He.
    apply elem_of_cons in He as [->|He]; [done|].
    apply elem_of_cons in He as [->|He]; [done|].
    by apply elem_of_nil in He.
  - simpl. lia.
Defined.

(** ** [clear] *)

Section Weight.
Implicit Types (assocs : list (string * list string)).

Lemma weight_mono assocs t visited :
  (weight assocs ({[t]} ∪ visited) <= weight assocs visited)%nat.
Proof.
  induction assocs as [|[k l] r IH]; simpl; [lia|].
  destruct (decide (k ∈ visited)).
  - rewrite decide_True by set_solver. lia.
  - destruct (decide (k ∈ {[t]} ∪ visited)); lia.
Qed.

Lemma weight_visit assocs t l visited :
  JsMap.get t assocs = Some l -> t ∉ visited ->
  (weight assocs ({[t]} ∪ visited) + length l <= weight assocs visited)%nat.
Proof.
  unfold JsMap.get. induction assocs as [|[k l'] r IH]; simpl; [done|].
  intros Hget Hv. destruct (decide (t = k)) as [->|Hne].
  - injection Hget as ->.
    rewrite decide_True by set_solver. rewrite decide_False by done.
    pose proof (weight_mono r k visited). lia.
  - specialize (IH Hget Hv).
    destruct (decide (k ∈ visited)).
    + rewrite decide_True by set_solver. lia.
    + rewrite decide_False; [lia|].
      rewrite elem_of_union, elem_of_singleton. intros [?|?]; done.
Qed.

End Weight.

Section Closure.
Variable assocs : JsMap.t (list string).

(** The loop ends: every iteration lowers the length of the queue plus
    the weight of the types still to visit. *)
Lemma clear_loop_terminates fuel queue visited acc :
  (length queue + weight assocs visited <= fuel)%nat ->
  exists c, clear_loop assocs fuel queue visited acc = Some c.
Proof.
  revert queue visited acc.
  induction fuel as [|fuel IH]; intros queue visited acc Hle.
  - destruct queue; simpl in *; [eauto | lia].
  - destruct queue as [|type queue]; simpl in *; [eauto|].
    destruct (decide (type ∈ visited)) as [Hin|Hout].
    + apply IH. lia.
    + destruct (JsMap.get type assocs) as [l|] eqn:Hget.
      * apply IH. rewrite length_app.
        pose proof (weight_visit assocs type l visited Hget Hout).
        pose proof (length_filter (fun a => a ∉ {[type]} ∪ visited) l). lia.
      * apply IH. pose proof (weight_mono assocs type visited). lia.
Qed.

Variable roots : list string.

(** The invariant of the loop. *)
Definition loop_inv (queue : list string) (visited : gset string)
    (acc : closure) : Prop :=
  typesToClear acc = visits acc /\
  NoDup (visits acc) /\
  (forall t, t ∈ visits acc <-> t ∈ visited) /\
  (forall t, t ∈ visited -> reachable assocs roots t) /\
  (forall t, t ∈ queue -> reachable assocs roots t) /\
  (forall t, t ∈ roots -> t ∈ visited \/ t ∈ queue) /\
  (forall s l t, s ∈ visited -> JsMap.get s assocs = Some l -> t ∈ l ->
                 t ∈ visited \/ t ∈ queue).

Lemma loop_inv_init : loop_inv roots ∅ (Closure [] []).
Proof.
  unfold loop_inv. simpl. split_and!.
  - done.
  - apply NoDup_nil_2.
  - intros t. split; intros Ht; [by apply elem_of_nil in Ht|].
    by apply not_elem_of_empty in Ht.
  - intros t Ht. by apply not_elem_of_empty in Ht.
  - intros t Ht. by apply reach_root.
  - auto.
  - intros s l t Hs. by apply not_elem_of_empty in Hs.
Qed.

Lemma loop_inv_exit visited acc :
  loop_inv [] visited acc -> is_closure assocs roots acc.
Proof.
  intros (Htc & Hnd & Hv & Hreach & _ & Hroots & Hclosed).
  split_and!; [done|done|].
  intros t. rewrite Hv. split; [auto|].
  induction 1 as [t Ht|s l t _ IH Hget Ht].
  - destruct (Hroots t Ht) as [?|Hq]; [done | by apply elem_of_nil in Hq].
  - destruct (Hclosed s l t IH Hget Ht) as [?|Hq];
      [done | by apply elem_of_nil in Hq].
Qed.

Lemma loop_inv_skip type queue visited acc :
  type ∈ visited ->
  loop_inv (type :: queue) visited acc -> loop_inv queue visited acc.
Proof.
  intros Hin (Htc & Hnd & Hv & Hreach & Hq & Hroots & Hclosed).
  split_and!; try done.
  - intros t Ht. apply Hq. by right.
  - intros t Ht. destruct (Hroots t Ht) as [?|[->|?]%elem_of_cons]; auto.
  - intros s l t Hs Hget Ht.
    destruct (Hclosed s l t Hs Hget Ht) as [?|[->|?]%elem_of_cons]; auto.
Qed.

Lemma loop_inv_visit type queue visited acc :
  type ∉ visited ->
  loop_inv (type :: queue) visited acc ->
  loop_inv
    (queue ++ match JsMap.get type assocs with
              | Some l => filter (fun a => a ∉ {[type]} ∪ visited) l
              | None => []
              end)
    ({[type]} ∪ visited)
    (Closure (Set_add type (typesToClear acc)) (visits acc ++ [type])).
Proof.
  intros Hout (Htc & Hnd & Hv & Hreach & Hq & Hroots & Hclosed).
  assert (Hfresh : type ∉ visits acc) by by rewrite Hv.
  assert (Htype : reachable assocs roots type) by (apply Hq; left).
  unfold loop_inv. simpl. split_and!.
  - unfold Set_add. rewrite Htc. by rewrite decide_False.
  - apply NoDup_app. split_and!; [done| |apply NoDup_singleton].
    intros x Hx ->%list_elem_of_singleton. done.
  - intros t. rewrite elem_of_app, list_elem_of_singleton, Hv. set_solver.
  - intros t [->%elem_of_singleton|Ht]%elem_of_union; auto.
  - intros t [Ht|Ht]%elem_of_app; [apply Hq; by right|].
    destruct (JsMap.get type assocs) as [l|] eqn:Hget;
      [|by apply elem_of_nil in Ht].
    apply list_elem_of_filter in Ht as [_ Ht].
    by apply (reach_step assocs roots type l t).
  - intros t Ht. rewrite elem_of_app.
    destruct (Hroots t Ht) as [?|[->|?]%elem_of_cons]; set_solver.
  - intros s l t [->%elem_of_singleton|Hs]%elem_of_union Hget Ht.
    + rewrite Hget. destruct (decide (t ∈ {[type]} ∪ visited)); [by left|].
      right. apply elem_of_app. right. by apply list_elem_of_filter.
    + rewrite elem_of_app.
      destruct (Hclosed s l t Hs Hget Ht) as [?|[->|?]%elem_of_cons];
        set_solver.
Qed.

Lemma clear_loop_inv fuel queue visited acc c :
  loop_inv queue visited acc ->
  clear_loop assocs fuel queue visited acc = Some c ->
  is_closure assocs roots c.
Proof.
  revert queue visited acc.
  induction fuel as [|fuel IH]; intros queue visited acc Hinv Hrun.
  - destruct queue; simpl in Hrun; [|done].
    injection Hrun as <-. by apply (loop_inv_exit visited).
  - destruct queue as [|type queue]; simpl in Hrun.
    + injection Hrun as <-. by apply (loop_inv_exit visited).
    + destruct (decide (type ∈ visited)) as [Hin|Hout].
      * eapply IH; [|exact Hrun]. by apply (loop_inv_skip type).
      * pose proof (loop_inv_visit type queue visited acc Hout Hinv) as Hinv'.
        destruct (JsMap.get type assocs) as [l|].
        -- eapply IH; [exact Hinv'|exact Hrun].
        -- rewrite app_nil_r in Hinv'. eapply IH; [exact Hinv'|exact Hrun].
Qed.

(** With fuel for [clear_fuel] iterations the loop returns the closure of
    [roots]. *)
Lemma clear_loop_closure fuel :
  (clear_fuel assocs roots <= fuel)%nat ->
  exists c,
    clear_loop assocs fuel roots ∅ (Closure [] []) = Some c /\
    is_closure assocs roots c.
Proof.
  intros Hfuel.
  destruct (clear_loop_terminates fuel roots ∅ (Closure [] [])) as [c Hc];
    [exact Hfuel|].
  exists c. split; [done|].
  by apply (clear_loop_inv fuel roots ∅ (Closure [] [])); [apply loop_inv_init|].
Qed.

End Closure.

(** *** Reading the plain objects *)

Lemma cache_slot_own type st c :
  JsMap.get type (cache st) = Some c -> cache_slot type st = Ok (Own c).
Proof. intros H. unfold cache_slot. by rewrite H. Qed.

Lemma has_proto st :
  JsMap.has "__proto__" (cache st) = true
  <-> is_Some (JsMap.get "__proto__" (cache st)).
Proof.
  unfold JsMap.has. destruct (JsMap.get "__proto__" (cache st)).
  - split; [by eexists | done].
  - split; [done | by intros [? ?]].
Qed.

Lemma cache_slot_absent type st :
  JsMap.get type (cache st) = None -> ~ inherits st type ->
  cache_slot type st = Ok Absent.
Proof.
  intros Hget Hni. unfold cache_slot. rewrite Hget.
  destruct (JsMap.has "__proto__" (cache st)) eqn:Hp.
  - apply has_proto in Hp.
    assert (type ∉ map_prototype) as Hm by (intros ?; apply Hni; by right).
    assert (type ∉ object_prototype) as Ho by (intros ?; apply Hni; by left).
    rewrite bool_decide_false.
    + rewrite bool_decide_false; [done|].
      intros [?|?]%elem_of_app; done.
    + intros ->. apply Hm. by vm_compute; repeat constructor.
  - rewrite bool_decide_false; [done|]. intros ?. apply Hni. by left.
Qed.

Lemma cache_slot_plain type st :
  plain st type ->
  cache_slot type st
  = Ok (match JsMap.get type (cache st) with
        | Some c => Own c
        | None => Absent
        end).
Proof.
  intros [[c Hc]|Hni].
  - rewrite Hc. by apply cache_slot_own.
  - destruct (JsMap.get type (cache st)) as [c|] eqn:Hget.
    + by apply cache_slot_own.
    + by apply cache_slot_absent.
Qed.

(** Under an inherited name without a store, reading [this.cache[type]]
    gives a member of the prototype chain, or throws. *)
Lemma cache_slot_inherited type st :
  JsMap.get type (cache st) = None -> inherits st type ->
  cache_slot type st = Ok Inherited \/ cache_slot type st = Throw TypeError.
Proof.
  intros Hget Hin. unfold cache_slot. rewrite Hget.
  destruct (JsMap.has "__proto__" (cache st)) eqn:Hp.
  - destruct (bool_decide (type = "size")); [by right|]. left.
    rewrite bool_decide_true; [done|]. apply elem_of_app.
    destruct Hin as [?|[_ ?]]; [by right | by left].
  - left. rewrite bool_decide_true; [done|].
    destruct Hin as [?|[Hs _]]; [done|].
    apply has_proto in Hs. congruence.
Qed.

Lemma config_slot_own type st cf :
  JsMap.get type (config st) = Some cf -> config_slot type st = Own cf.
Proof. intros H. unfold config_slot. by rewrite H. Qed.

Lemma clear_type_run type st :
  plain st type ->
  exists st',
    clear_type type st = (st', Ok tt) /\
    cleared (fun t => t = type) st st'.
Proof.
  intros Hp. unfold clear_type. rewrite (cache_slot_plain type st Hp).
  destruct (JsMap.get type (cache st)) as [c|] eqn:Hget.
  - eexists. split; [reflexivity|]. unfold cleared. simpl. split_and!; try done.
    + apply JsMapFacts.keys_set_present.
      apply dec_stable. intros Hout.
      apply JsMapFacts.get_None in Hout. congruence.
    + intros t ->. by rewrite JsMapFacts.get_set_eq, Hget.
    + intros t Hne. apply JsMapFacts.get_set_ne. congruence.
  - exists st. split; [done|]. unfold cleared. split_and!; try done.
    intros t ->. by rewrite Hget.
Qed.

(** Emptying stores changes neither the names that have a store nor
    what is inherited. *)
Lemma cleared_is_Some P st st' t :
  cleared P st st' ->
  is_Some (JsMap.get t (cache st')) <-> is_Some (JsMap.get t (cache st)).
Proof.
  intros (_ & _ & _ & _ & Hk & _ & _).
  rewrite <- !not_eq_None_Some, !JsMapFacts.get_None. by rewrite Hk.
Qed.

Lemma cleared_inherits P st st' t :
  cleared P st st' -> inherits st' t <-> inherits st t.
Proof.
  intros Hc. unfold inherits. by rewrite (cleared_is_Some P st st' "__proto__").
Qed.

Lemma cleared_plain P st st' t :
  cleared P st st' -> plain st' t <-> plain st t.
Proof.
  intros Hc. unfold plain.
  by rewrite (cleared_is_Some P st st' t), (cleared_inherits P st st' t).
Qed.

Lemma forEach_clear_type l st :
  (forall t, t ∈ l -> plain st t) ->
  exists st',
    forEach clear_type l st = (st', Ok tt) /\
    cleared (fun t => t ∈ l) st st'.
Proof.
  revert st. induction l as [|t0 l IH]; intros st Hpl.
  - exists st. split; [done|]. unfold cleared. split_and!; try done.
    intros t Ht. by apply elem_of_nil in Ht.
  - destruct (clear_type_run t0 st) as (st1 & Hrun1 & Hcl1);
      [apply Hpl; left|].
    pose proof Hcl1 as (Hc1 & Ha1 & Hs1 & Hl1 & Hk1 & Hin1 & Hout1).
    destruct (IH st1)
      as (st' & Hrun & Hc & Ha & Hs & Hl & Hk & Hin & Hout).
    { intros t Ht. apply (cleared_plain _ st st1 t Hcl1). apply Hpl. by right. }
    exists st'. split.
    { simpl. unfold bind. by rewrite Hrun1. }
    unfold cleared. split_and!; try congruence.
    + intros t Ht. destruct (decide (t ∈ l)) as [Htl|Htl].
      * rewrite (Hin t Htl). destruct (decide (t = t0)) as [->|Hne].
        -- rewrite (Hin1 t0 eq_refl). by destruct (JsMap.get t0 (cache st)).
        -- by rewrite (Hout1 t Hne).
      * apply elem_of_cons in Ht as [->|?]; [|done].
        rewrite (Hout t0 Htl). by apply Hin1.
    + intros t Ht. apply not_elem_of_cons in Ht as [Hne Htl].
      rewrite (Hout t Htl). by apply Hout1.
Qed.

Lemma cleared_ext (P Q : string -> Prop) st st' :
  (forall t, P t <-> Q t) -> cleared P st st' -> cleared Q st st'.
Proof.
  intros HPQ (Hc & Ha & Hs & Hl & Hk & Hin & Hout).
  unfold cleared. split_and!; try done.
  - intros t Ht. apply Hin. by apply HPQ.
  - intros t Ht. apply Hout. by rewrite HPQ.
Qed.

(** [clear] with enough fuel: the loop returns the closure of the roots,
    and the stores of exactly these types are emptied when none of them
    stands for an inherited member. *)
Lemma clear_run fuel modelNames st :
  (clear_fuel (associations st) (types_of modelNames st) <= fuel)%nat ->
  exists c,
    clear_loop (associations st) fuel (types_of modelNames st) ∅
      (Closure [] []) = Some c /\
    is_closure (associations st) (types_of modelNames st) c /\
    ((forall t, reachable (associations st) (types_of modelNames st) t ->
                plain st t) ->
     exists st',
       clear fuel modelNames st = (st', Ok tt) /\
       cleared (reachable (associations st) (types_of modelNames st)) st st').
Proof.
  intros Hfuel.
  destruct (clear_loop_closure (associations st) (types_of modelNames st)
              fuel Hfuel) as (c & Hloop & Hcl).
  exists c. split_and!; [done|done|]. intros Hpl.
  destruct Hcl as (Htc & _ & Hreach).
  destruct (forEach_clear_type (typesToClear c) st) as (st' & Hrun & Hcleared).
  { intros t Ht. apply Hpl, Hreach. by rewrite <- Htc. }
  exists st'. split.
  - unfold clear. by rewrite Hloop.
  - apply (cleared_ext (fun t => t ∈ typesToClear c)); [|done].
    intros t. by rewrite Htc.
Qed.

Lemma types_of_roots modelNames roots st :
  (modelNames <> [] -> roots = modelNames) ->
  (modelNames = [] ->
   roots = filter (fun type => type ≠ "__proto__") (JsMap.keys (cache st))) ->
  types_of modelNames st = roots.
Proof.
  intros Hne Hnil. destruct modelNames as [|m l].
  - by rewrite Hnil.
  - by rewrite Hne.
Qed.

(** C4, the code at the failing input.  [A] is associated with a model
    named [constructor], for which the cache holds no store, and with
    [B].  The loop of [clear('A')] ends and finds the closure [A],
    [constructor], [B], each once.  The store of [A] is emptied; then
    [this.cache['constructor']] is the function every plain object
    inherits, which is truthy and has no [clear]: [clear] throws a
    [TypeError], and the store of [B], which is reachable from [A], still
    holds its entry. *)
Theorem clear_stops_at_inherited_name :
  clear_loop (associations inherited_state) 5 ["A"] ∅ (Closure [] [])
  = Some (Closure ["A"; "constructor"; "B"] ["A"; "constructor"; "B"]) /\
  reachable (associations inherited_state) ["A"] "B" /\
  JsMap.get "constructor" (cache inherited_state) = None /\
  clear 5 ["A"] inherited_state
  = (with_cache [("A", []); ("B", [("h2", Item (VNum 2) EFalse)])]
       inherited_state,
     Throw TypeError).
Proof.
  split_and!; [reflexivity| |reflexivity|reflexivity].
  apply (reach_step _ _ "A" ["constructor"; "B"] "B");
    [apply reach_root; left | reflexivity | right; left].
Qed.

(** The cycle of three: one [clear] from [A] visits [A], [B] and [C] once
    each and empties their stores. *)
Example clear_cycle :
  clear_loop (associations cycle_state) 7 ["A"] ∅ (Closure [] [])
  = Some (Closure ["A"; "B"; "C"] ["A"; "B"; "C"]) /\
  (clear 7 ["A"] cycle_state).1
  = with_cache [("A", []); ("B", []); ("C", []);
                ("D", [("h4", Item (VNum 4) EFalse)])] cycle_state.
Proof. split; reflexivity. Qed.






(** ** The caching callable *)

Lemma txn_fold_throw args e : fold_left txn_step args (Throw e) = Throw e.
Proof. induction args as [|a args IH]; [done | apply IH]. Qed.

(** One argument that is [null] or [undefined] makes the reduction
    throw, wherever it stands. *)
Lemma txn_fold_nullish args acc :
  (exists a, a ∈ args /\ nullish a = true) ->
  fold_left txn_step args (Ok acc) = Throw TypeError.
Proof.
  revert acc. induction args as [|a args IH]; intros acc (x & Hx & Hnull).
  - by apply elem_of_nil in Hx.
  - simpl. destruct (nullish a) eqn:Ha; [apply txn_fold_throw|].
    apply IH. exists x. split; [|done].
    apply elem_of_cons in Hx as [->|?]; [congruence | done].
Qed.

Lemma txn_fold_ok args acc :
  (forall a, a ∈ args -> nullish a = false) ->
  exists w,
    fold_left txn_step args (Ok acc) = Ok w /\
    (truthy w = true <->
     truthy acc = true \/ exists a, a ∈ args /\ has_transaction a = true).
Proof.
  revert acc. induction args as [|a args IH]; intros acc Hargs.
  - exists acc. split; [done|]. split; [auto|].
    intros [?|(a & Ha & _)]; [done | by apply elem_of_nil in Ha].
  - simpl. rewrite (Hargs a) by left.
    destruct (IH (if truthy acc then acc else get_prop "transaction" a))
      as (w & Hw & Hiff); [intros x Hx; apply Hargs; by right|].
    exists w. split; [done|]. rewrite Hiff. clear Hiff Hw.
    unfold has_transaction. split.
    + intros [Hacc|(x & Hx & Ht)].
      * destruct (truthy acc) eqn:Hta; [by left|].
        right. exists a. split; [left | done].
      * right. exists x. split; [by right | done].
    + intros [Hacc|(x & Hx & Ht)].
      * left. by rewrite Hacc.
      * apply elem_of_cons in Hx as [->|Hx].
        -- left. destruct (truthy acc) eqn:Hta; done.
        -- right. by exists x.
Qed.

Lemma withinTxn_nullish args :
  (exists a, a ∈ args /\ nullish a = true) -> withinTxn args = Throw TypeError.
Proof. apply txn_fold_nullish. Qed.

Lemma withinTxn_ok args :
  (forall a, a ∈ args -> nullish a = false) ->
  exists w,
    withinTxn args = Ok w /\
    (truthy w = true <-> exists a, a ∈ args /\ has_transaction a = true).
Proof.
  intros Hargs. destruct (txn_fold_ok args (VBool false) Hargs) as (w & Hw & Hiff).
  exists w. split; [done|]. rewrite Hiff. simpl. naive_solver.
Qed.

Lemma is_live_spec now e :
  e <> ENum 0 ->
  is_live now e = true <-> e = EFalse \/ exists t, e = ENum t /\ now < t.
Proof.
  intros Hz. unfold is_live. destruct e as [|t]; simpl.
  - split; [by left | done].
  - rewrite orb_true_iff, negb_true_iff, negb_false_iff, Z.eqb_eq, Z.ltb_lt.
    split.
    + intros [->|Hlt]; [done|]. right. by exists t.
    + intros [?|(t' & [= <-] & Hlt)]; [done | by right].
Qed.

Lemma live_entry_cases now c hash :
  store_ok c ->
  (exists it, live_entry now c hash it) \/ ~ (exists it, live_entry now c hash it).
Proof.
  intros Hok. destruct (JsMap.get hash c) as [it|] eqn:Hget.
  - destruct (is_live now (expires it)) eqn:Hlive.
    + left. exists it. split; [done|].
      apply is_live_spec; [by apply (Hok hash)|done].
    + right. intros (it' & Hget' & Hlive').
      rewrite Hget in Hget'. injection Hget' as <-.
      apply is_live_spec in Hlive'; [congruence | by apply (Hok hash)].
  - right. intros (it' & Hget' & _). congruence.
Qed.

Section Callable.
Variable inspect : value -> string.
Variable md5_hex : string -> string.
Variables type prop : string.
Variable now : Z.
Variable args : list value.
Variable r : response.
Variable st : state.

Lemma fn_throw e :
  withinTxn args = Throw e ->
  fn inspect md5_hex type prop now args r st = (st, Throw e).
Proof. intros H. unfold fn, bind. by rewrite H. Qed.

Lemma fn_bypass w :
  withinTxn args = Ok w -> truthy w = true ->
  fn inspect md5_hex type prop now args r st
  = (called type prop args st, map_outcome Bypassed (asserted r)).
Proof.
  intros H Hw. unfold fn, bind. rewrite H, Hw.
  unfold call_target, bind, modify, called. by destruct r.
Qed.

Lemma fn_hit w it :
  withinTxn args = Ok w -> truthy w = false ->
  JsMap.get (hash_of inspect md5_hex type prop args) (store_of type st) = Some it ->
  is_live now (expires it) = true ->
  fn inspect md5_hex type prop now args r st
  = (with_stats (bump EvHit (stats st)) st, Ok (FromCache (data it))).
Proof.
  intros H Hw Hget Hlive. unfold fn, bind. rewrite H, Hw.
  unfold hash_of in Hget. simpl. rewrite Hget.
  destruct it as [d e]. simpl in *. by rewrite Hlive.
Qed.

Lemma fn_miss w :
  withinTxn args = Ok w -> truthy w = false ->
  (forall it,
     JsMap.get (hash_of inspect md5_hex type prop args) (store_of type st) = Some it ->
     is_live now (expires it) = false) ->
  fn inspect md5_hex type prop now args r st
  = (called type prop args (with_stats (bump EvMiss (stats st)) st),
     map_outcome
       (Loading (key_of inspect type prop args)
          (hash_of inspect md5_hex type prop args))
       (asserted r)).
Proof.
  intros H Hw Hstale. unfold fn, bind. rewrite H, Hw.
  unfold hash_of in *. simpl.
  destruct (JsMap.get _ (store_of type st)) as [[d e]|] eqn:Hget.
  - pose proof (Hstale _ eq_refl) as Hs. simpl in Hs. rewrite Hs.
    unfold call_target, bind, modify, called, log. by destruct r.
  - unfold call_target, bind, modify, called, log. by destruct r.
Qed.

End Callable.

(** C10.  A call one of whose arguments is [null] or [undefined] fails
    with a [TypeError] in the transaction check: the cache object is left
    as it was, no entry is looked up or stored, no counter moves and the
    model is not called. *)
Theorem fn_nullish_argument (inspect : value -> string)
    (md5_hex : string -> string) (type prop : string) (now : Z)
    (args : list value) (r : response) (st : state) :
  (exists a, a ∈ args /\ nullish a = true) ->
  fn inspect md5_hex type prop now args r st = (st, Throw TypeError).
Proof. intros H. apply fn_throw. by apply withinTxn_nullish. Qed.

Lemma fn_nullish_argument_witness :
  fn demo_inspect demo_md5 "User" "findOne" 100 [VNum 1; VNull]
    (RPromise (Resolved (VNum 7))) user_state
  = (user_state, Throw TypeError).
Proof.
  apply fn_nullish_argument. exists VNull. split; [|reflexivity].
  right. left.
Defined.

(** C7, counterexample.  A transaction marker next to a [null] argument:
    the call throws and the model is not called. *)
Lemma transaction_bypasses_fails : ~ transaction_bypasses.
Proof.
  intros H.
  specialize (H demo_inspect demo_md5 "User" "findOne" 100
                [VObj [("transaction", VBool true)]; VNull]
                (Resolved (VNum 7)) user_state).
  assert (Hex : exists a,
             a ∈ [VObj [("transaction", VBool true)]; VNull] /\
             has_transaction a = true).
  { exists (VObj [("transaction", VBool true)]). split; [left | reflexivity]. }
  specialize (H Hex). vm_compute in H. discriminate H.
Qed.

(** C7, amended.  A call none of whose arguments is [null] or
    [undefined] and one of whose arguments carries a transaction marker
    goes straight to the model: whatever [inspect] and the digest are, the
    stores and the counters are left as they were, the model is called
    once, and its promise is what the call returns (a model that throws,
    or returns no promise, makes the call fail), so that the caller gets
    the value the promise resolves to. *)
Theorem fn_transaction (inspect : value -> string)
    (md5_hex : string -> string) (type prop : string) (cf : cfg)
    (now now' : Z) (args : list value) (r : response) (st : state) :
  (forall a, a ∈ args -> nullish a = false) ->
  (exists a, a ∈ args /\ has_transaction a = true) ->
  fn inspect md5_hex type prop now args r st
  = (called type prop args st, map_outcome Bypassed (asserted r)) /\
  cache (called type prop args st) = cache st /\
  stats (called type prop args st) = stats st /\
  forall d,
    r = RPromise (Resolved d) ->
    (let* v := fn inspect md5_hex type prop now args r in
     fn_settle type cf now now' v) st
    = (called type prop args st, Ok d).
Proof.
  intros Hargs Htxn.
  destruct (withinTxn_ok args Hargs) as (w & Hw & Hiff).
  assert (Hrun := fn_bypass inspect md5_hex type prop now args r st w Hw
                    (proj2 Hiff Htxn)).
  split_and!; [done|done|done|].
  intros d ->. unfold bind. by rewrite Hrun.
Qed.

Lemma fn_transaction_witness :
  fn demo_inspect demo_md5 "User" "findOne" 100
    [VObj [("transaction", VBool true)]] (RPromise (Resolved (VNum 9)))
    user_state
  = (called "User" "findOne" [VObj [("transaction", VBool true)]] user_state,
     Ok (Bypassed (Resolved (VNum 9)))).
Proof.
  refine (proj1 (fn_transaction demo_inspect demo_md5 "User" "findOne"
                   user_cfg 100 100 [VObj [("transaction", VBool true)]]
                   (RPromise (Resolved (VNum 9))) user_state _ _)).
  - intros a Ha. apply elem_of_cons in Ha as [->|Ha]; [reflexivity|].
    by apply elem_of_nil in Ha.
  - exists (VObj [("transaction", VBool true)]). split; [left | reflexivity].
Defined.

(** C1.  A call that reaches the lookup (no argument is [null] or
    [undefined], none carries a transaction marker) is a hit exactly when
    the store holds an entry for the hash of the call whose expiry is
    [false] or later than [now].  On a hit the data of the entry is
    returned, the hit counter goes up by one and nothing else changes: the
    model is not called.  Otherwise the miss counter goes up by one and
    the model is called, the stores being left as they were, a stale
    entry included. *)
Theorem fn_lookup (inspect : value -> string) (md5_hex : string -> string)
    (type prop : string) (now : Z) (args : list value) (r : response)
    (st : state) :
  (forall a, a ∈ args -> nullish a = false) ->
  (forall a, a ∈ args -> has_transaction a = false) ->
  store_ok (store_of type st) ->
  let hash := hash_of inspect md5_hex type prop args in
  let run := fn inspect md5_hex type prop now args r st in
  ((exists d, run.2 = Ok (FromCache d)) <->
   (exists it, live_entry now (store_of type st) hash it)) /\
  (forall it,
     live_entry now (store_of type st) hash it ->
     run = (with_stats (bump EvHit (stats st)) st, Ok (FromCache (data it))) /\
     st_hit (stats run.1) = S (st_hit (stats st)) /\
     st_miss (stats run.1) = st_miss (stats st) /\
     calls run.1 = calls st /\
     cache run.1 = cache st) /\
  ((~ exists it, live_entry now (store_of type st) hash it) ->
   run = (called type prop args (with_stats (bump EvMiss (stats st)) st),
          map_outcome (Loading (key_of inspect type prop args) hash)
            (asserted r)) /\
   st_hit (stats run.1) = st_hit (stats st) /\
   st_miss (stats run.1) = S (st_miss (stats st)) /\
   calls run.1 = calls st ++ [Call type prop args] /\
   cache run.1 = cache st).
Proof.
  intros Hargs Hnotxn Hok hash run.
  destruct (withinTxn_ok args Hargs) as (w & Hw & Hiff).
  assert (Hfalse : truthy w = false).
  { destruct (truthy w); [|done]. destruct (proj1 Hiff eq_refl) as (a & Ha & Ht).
    by rewrite (Hnotxn a Ha) in Ht. }
  assert (Hhit : forall it,
    live_entry now (store_of type st) hash it ->
    run = (with_stats (bump EvHit (stats st)) st, Ok (FromCache (data it)))).
  { intros it [Hget Hlive]. apply (fn_hit _ _ _ _ _ _ _ _ w); [done|done|done|].
    apply is_live_spec; [by apply (Hok hash)|done]. }
  assert (Hmiss : (~ exists it, live_entry now (store_of type st) hash it) ->
    run = (called type prop args (with_stats (bump EvMiss (stats st)) st),
           map_outcome (Loading (key_of inspect type prop args) hash)
             (asserted r))).
  { intros Hnone. apply (fn_miss _ _ _ _ _ _ _ _ w); [done|done|].
    intros it Hget. destruct (is_live now (expires it)) eqn:Hlive; [|done].
    exfalso. apply Hnone. exists it. split; [done|].
    apply is_live_spec; [by apply (Hok hash)|done]. }
  split_and!.
  - split.
    + intros [d Hd].
      destruct (live_entry_cases now (store_of type st) hash Hok)
        as [?|Hnone]; [done|].
      rewrite (Hmiss Hnone) in Hd. simpl in Hd. by destruct r.
    + intros [it Hit]. exists (data it). by rewrite (Hhit it Hit).
  - intros it Hit. rewrite (Hhit it Hit). by destruct (stats st).
  - intros Hnone. rewrite (Hmiss Hnone). by destruct (stats st).
Qed.

Lemma fn_lookup_witness :
  fn demo_inspect demo_md5 "User" "findOne" 100 [VObj [("where", VNum 1)]]
    ROther user_state
  = (with_stats (bump EvHit (stats user_state)) user_state,
     Ok (FromCache (VNum 7))).
Proof.
  refine (proj1 (proj1 (proj2 (fn_lookup demo_inspect demo_md5 "User" "findOne"
            100 [VObj [("where", VNum 1)]] ROther user_state _ _ _))
            (Item (VNum 7) (ENum 5000)) _)).
  - intros a Ha. apply elem_of_cons in Ha as [->|Ha]; [reflexivity|].
    by apply elem_of_nil in Ha.
  - intros a Ha. apply elem_of_cons in Ha as [->|Ha]; [reflexivity|].
    by apply elem_of_nil in Ha.
  - intros h it Hget. apply JsMapFacts.get_Some_elem, list_elem_of_In in Hget.
    vm_compute in Hget. destruct Hget as [Heq|[]].
    injection Heq as _ <-. discriminate.
  - split; [reflexivity|]. right. exists 5000. split; [reflexivity | lia].
Defined.

(** ** The callback of [promise.then] *)

Lemma purged_load n s : st_load (purged n s) = st_load s.
Proof. induction n as [|n IH]; [done|]. simpl. by rewrite <- IH. Qed.

(** [purge(type)] on a configured type. *)
Lemma purge_one now type st c cf :
  JsMap.get type (cache st) = Some c ->
  JsMap.get type (config st) = Some cf ->
  purge now [type] st
  = (with_stats (purged (purge_store now (limit cf) c).2 (stats st))
       (with_cache (JsMap.set type (purge_store now (limit cf) c).1 (cache st)) st),
     Ok tt).
Proof.
  intros Hc Hcf. unfold purge, types_of. simpl.
  unfold bind at 1. unfold purge_type.
  rewrite (cache_slot_own _ _ _ Hc), (config_slot_own _ _ _ Hcf).
  unfold purge_store. destruct (purge_evict _ _) as [c' n]. done.
Qed.

Lemma expires_at_positive ttl now n :
  ttl = TtlNum n -> 0 < n -> expires_at ttl now = ENum (now + n * 1000).
Proof.
  intros -> Hn. unfold expires_at. by rewrite (proj2 (Z.ltb_lt 0 n) Hn).
Qed.

Lemma expires_at_never ttl now :
  ttl = TtlFalse \/ (exists n, ttl = TtlNum n /\ n <= 0) ->
  expires_at ttl now = EFalse.
Proof.
  intros [->|(n & -> & Hn)]; [done|].
  unfold expires_at. by rewrite (proj2 (Z.ltb_ge 0 n) Hn).
Qed.

(** The callback on a value that is stored. *)
Lemma fn_then_run type cf hash now now' data st :
  nullish data = false ->
  let stored :=
    JsMap.set hash (Item data (expires_at (ttl cf) now)) (store_of type st) in
  let loaded :=
    with_stats (bump EvLoad (stats st))
      (with_cache (JsMap.set type stored (cache st)) st) in
  fn_then type cf hash now now' data st
  = if Z.of_nat (JsMap.size stored) >? limit cf
    then (purge now' [type] >> ret data) loaded
    else (loaded, Ok data).
Proof.
  intros Hn stored loaded.
  assert (Hstore : store_of type loaded = stored).
  { unfold store_of, loaded. simpl. by rewrite JsMapFacts.get_set_eq. }
  unfold fn_then. rewrite Hn. simpl.
  unfold bind, set_store, modify, log. simpl. fold stored.
  change (with_stats _ (with_cache (JsMap.set type stored (cache st)) st))
    with loaded.
  rewrite Hstore.
  by destruct (Z.of_nat (JsMap.size stored) >? limit cf).
Qed.

(** C8.  When the promise of a miss resolves, the value is stored under
    the hash of the call exactly when it is neither [undefined] nor
    [null]; the entry stored expires at [now + ttl * 1000] when [ttl > 0]
    and never ([false]) when [ttl] is [false] or at most 0; storing counts
    one ['load'], and a store left over its limit is purged; the value is
    what the caller gets in every case. *)
Theorem fn_then_spec (type : string) (cf : cfg) (hash : string)
    (now now' : Z) (data : value) (st : state) :
  JsMap.get type (config st) = Some cf ->
  let run := fn_then type cf hash now now' data st in
  let it := Item data (expires_at (ttl cf) now) in
  let stored := JsMap.set hash it (store_of type st) in
  let loaded :=
    with_stats (bump EvLoad (stats st))
      (with_cache (JsMap.set type stored (cache st)) st) in
  run.2 = Ok data /\
  (nullish data = true -> run.1 = st) /\
  (nullish data = false ->
   JsMap.get hash (store_of type loaded) = Some it /\
   st_load (stats run.1) = S (st_load (stats st)) /\
   (Z.of_nat (JsMap.size stored) <= limit cf -> run.1 = loaded) /\
   (limit cf < Z.of_nat (JsMap.size stored) ->
    run.1
    = with_stats
        (purged (purge_store now' (limit cf) stored).2 (stats loaded))
        (with_cache
           (JsMap.set type (purge_store now' (limit cf) stored).1
              (cache loaded))
           loaded))) /\
  (forall n, ttl cf = TtlNum n -> 0 < n -> expires it = ENum (now + n * 1000)) /\
  (ttl cf = TtlFalse \/ (exists n, ttl cf = TtlNum n /\ n <= 0) ->
   expires it = EFalse).
Proof.
  intros Hcf run it stored loaded.
  assert (Hstore : store_of type loaded = stored).
  { unfold store_of, loaded. simpl. by rewrite JsMapFacts.get_set_eq. }
  assert (Hget : JsMap.get type (cache loaded) = Some stored).
  { unfold loaded. simpl. by rewrite JsMapFacts.get_set_eq. }
  assert (Hrun : nullish data = false ->
    run = if Z.of_nat (JsMap.size stored) >? limit cf
          then (purge now' [type] >> ret data) loaded
          else (loaded, Ok data)) by apply fn_then_run.
  assert (Hpurge := purge_one now' type loaded stored cf Hget Hcf).
  split_and!.
  - destruct (nullish data) eqn:Hn.
    + subst run. unfold fn_then. by rewrite Hn.
    + rewrite (Hrun eq_refl).
      destruct (Z.of_nat (JsMap.size stored) >? limit cf); [|done].
      unfold bind. by rewrite Hpurge.
  - intros Hn. subst run. unfold fn_then. by rewrite Hn.
  - intros Hn. rewrite (Hrun Hn). split_and!.
    + rewrite Hstore. apply JsMapFacts.get_set_eq.
    + destruct (Z.of_nat (JsMap.size stored) >? limit cf).
      * unfold bind. rewrite Hpurge. simpl. rewrite purged_load.
        by destruct (stats st).
      * simpl. by destruct (stats st).
    + intros Hle.
      destruct (Z.gtb_spec (Z.of_nat (JsMap.size stored)) (limit cf)); [lia|done].
    + intros Hlt.
      destruct (Z.gtb_spec (Z.of_nat (JsMap.size stored)) (limit cf)); [|lia].
      unfold bind. by rewrite Hpurge.
  - intros n Httl Hn. by apply expires_at_positive.
  - intros Httl. by apply expires_at_never.
Qed.

Lemma fn_then_spec_witness :
  (fn_then "User" user_cfg "#User.findOne/__" 100 101 (VNum 8) user_state).2
  = Ok (VNum 8).
Proof.
  exact (proj1 (fn_then_spec "User" user_cfg "#User.findOne/__" 100 101
                  (VNum 8) user_state eq_refl)).
Defined.

(** The callback at work: a value is stored with its expiry, [null] is
    not. *)
Example fn_then_stores :
  cache (fn_then "User" user_cfg "h" 100 101 (VNum 8) user_state).1
  = [("User", [("#User.findOne/_", Item (VNum 7) (ENum 5000));
               ("h", Item (VNum 8) (ENum 5100))])] /\
  fn_then "User" user_cfg "h" 100 101 VNull user_state = (user_state, Ok VNull).
Proof. split; reflexivity. Qed.

(** ** Associations *)

(** C5, the code at the failing input.  [B] declares an association to
    [A], then [A] declares one to [C]: the second registration replaces
    the list of [A], which held the reverse edge to [B], so the map is no
    longer symmetric.  Likewise, once [C] has added itself to the list of
    [A], registering the edge from [A] to [B] again shortens that list. *)
Theorem register_associations_overwrites :
  let b_to_a := Model "B" true (Some [Some "A"]) in
  let a_to_c := Model "A" true (Some [Some "C"]) in
  let a_to_b := Model "A" true (Some [Some "B"]) in
  let c_to_a := Model "C" true (Some [Some "A"]) in
  let st1 := ((_registerAssociations b_to_a) empty_state).1 in
  let st2 := ((_registerAssociations a_to_c) st1).1 in
  let st3 :=
    ((_registerAssociations a_to_b >> _registerAssociations c_to_a)
       empty_state).1 in
  let st4 := ((_registerAssociations a_to_b) st3).1 in
  associations st1 = [("B", ["A"]); ("A", ["B"])] /\
  associations st2 = [("B", ["A"]); ("A", ["C"]); ("C", ["A"])] /\
  ~ associations_symmetric (associations st2) /\
  associations st3 = [("A", ["B"; "C"]); ("B", ["A"]); ("C", ["A"])] /\
  associations st4 = [("A", ["B"]); ("B", ["A"]); ("C", ["A"])].
Proof.
  split_and!; try reflexivity.
  intros Hsym.
  destruct (Hsym "B" "A" ["A"]) as (l & Hl & Hin); [reflexivity|left|].
  vm_compute in Hl. injection Hl as <-.
  apply elem_of_cons in Hin as [?|Hin]; [done|].
  by apply elem_of_nil in Hin.
Qed.

(** ** The classification of the members *)

Lemma config_slot_absent type st :
  JsMap.get type (config st) = None -> type ∉ object_prototype ->
  config_slot type st = Absent.
Proof.
  intros Hget Hni. unfold config_slot. rewrite Hget.
  by rewrite bool_decide_false.
Qed.

Lemma config_slot_inherited type st :
  JsMap.get type (config st) = None -> type ∈ object_prototype ->
  config_slot type st = Inherited.
Proof.
  intros Hget Hin. unfold config_slot. rewrite Hget.
  by rewrite bool_decide_true.
Qed.

(** A model for which [this.config[type]] is [undefined] is passed
    through. *)
Lemma proxy_get_unconfigured fuel target prop st :
  own_member target prop = false ->
  JsMap.get (name target) (config st) = None ->
  name target ∉ object_prototype ->
  proxy_get fuel target prop st = (st, Ok Original).
Proof.
  intros Hown Hcfg Hni. unfold own_member in Hown.
  apply orb_false_elim in Hown as [Hown H4].
  apply orb_false_elim in Hown as [Hown H3].
  apply orb_false_elim in Hown as [H1 H2].
  unfold proxy_get.
  by rewrite H1, H2, H3, H4, (config_slot_absent _ _ Hcfg Hni).
Qed.

(** A model without configuration whose name is that of a member of
    [Object.prototype]: the trap takes the member for the configuration
    and throws. *)
Lemma proxy_get_inherited fuel target prop st :
  own_member target prop = false ->
  JsMap.get (name target) (config st) = None ->
  name target ∈ object_prototype ->
  proxy_get fuel target prop st = (st, Throw TypeError).
Proof.
  intros Hown Hcfg Hin. unfold own_member in Hown.
  apply orb_false_elim in Hown as [Hown H4].
  apply orb_false_elim in Hown as [Hown H3].
  apply orb_false_elim in Hown as [H1 H2].
  unfold proxy_get.
  by rewrite H1, H2, H3, H4, (config_slot_inherited _ _ Hcfg Hin).
Qed.

(** A member that is in neither list of methods is passed through. *)
Lemma proxy_get_other fuel target prop cf st :
  own_member target prop = false ->
  JsMap.get (name target) (config st) = Some cf ->
  prop ∉ methods cf -> prop ∉ methodsUpdate cf ->
  proxy_get fuel target prop st = (st, Ok Original).
Proof.
  intros Hown Hcfg Hm Hu. unfold own_member in Hown.
  apply orb_false_elim in Hown as [Hown H4].
  apply orb_false_elim in Hown as [Hown H3].
  apply orb_false_elim in Hown as [H1 H2].
  unfold proxy_get. rewrite H1, H2, H3, H4, (config_slot_own _ _ _ Hcfg).
  rewrite bool_decide_false; [done|].
  rewrite elem_of_app. tauto.
Qed.

(** A member of [methods] that is not in [methodsUpdate] is answered by
    the caching callable, and reading it changes nothing. *)
Lemma proxy_get_cacheable fuel target prop cf st :
  own_member target prop = false ->
  JsMap.get (name target) (config st) = Some cf ->
  prop ∈ methods cf -> prop ∉ methodsUpdate cf ->
  proxy_get fuel target prop st = (st, Ok (Fn cf)).
Proof.
  intros Hown Hcfg Hm Hu. unfold own_member in Hown.
  apply orb_false_elim in Hown as [Hown H4].
  apply orb_false_elim in Hown as [Hown H3].
  apply orb_false_elim in Hown as [H1 H2].
  unfold proxy_get. rewrite H1, H2, H3, H4, (config_slot_own _ _ _ Hcfg).
  rewrite bool_decide_true by (apply elem_of_app; by left).
  by rewrite bool_decide_false.
Qed.

(** With [clearOnUpdate] off, reading an updating method changes
    nothing. *)
Lemma proxy_get_update_keep fuel target prop cf st :
  own_member target prop = false ->
  JsMap.get (name target) (config st) = Some cf ->
  prop ∈ methodsUpdate cf -> clearOnUpdate cf = false ->
  proxy_get fuel target prop st = (st, Ok Original).
Proof.
  intros Hown Hcfg Hu Hc. unfold own_member in Hown.
  apply orb_false_elim in Hown as [Hown H4].
  apply orb_false_elim in Hown as [Hown H3].
  apply orb_false_elim in Hown as [H1 H2].
  unfold proxy_get. rewrite H1, H2, H3, H4, (config_slot_own _ _ _ Hcfg).
  rewrite bool_decide_true by (apply elem_of_app; by right).
  rewrite bool_decide_true by done. simpl. by rewrite Hc.
Qed.

(** ** The invariant of the cache object *)

(** [state_ok] holds of the cache object throughout: it holds when the
    object is created and every method keeps it, provided the clock read
    by the callback of [promise.then] is not negative. *)

Lemma store_wf_empty : store_wf JsMap.empty.
Proof. split; [apply NoDup_nil_2 | done]. Qed.

Lemma store_wf_sublist (r c : list (string * item)) :
  r `sublist_of` c -> store_wf c -> store_wf r.
Proof.
  intros Hsub [Hwf Hok]. split.
  - unfold JsMap.wf, JsMap.keys in *.
    apply (sublist_NoDup (r.*1) (c.*1)); [done | by apply fmap_sublist].
  - intros h it Hget. apply (Hok h).
    apply JsMapFacts.elem_get; [done|].
    apply (elem_of_sublist r c); [|done].
    by apply JsMapFacts.get_Some_elem.
Qed.

Lemma delete_sublist (k : string) (c : list (string * item)) :
  JsMap.delete k c `sublist_of` c.
Proof.
  induction c as [|[k' v] c IH]; simpl; [done|].
  destruct (decide (k = k')).
  - by apply sublist_cons.
  - by apply sublist_skip.
Qed.

Lemma store_wf_set hash it c :
  expires it <> ENum 0 -> store_wf c -> store_wf (JsMap.set hash it c).
Proof.
  intros Hit [Hwf Hok]. split; [by apply JsMapFacts.wf_set|].
  intros h it'. rewrite JsMapFacts.get_set.
  destruct (decide (hash = h)); [by intros [= <-] | apply Hok].
Qed.

Lemma expires_at_nonzero ttl now : 0 <= now -> expires_at ttl now <> ENum 0.
Proof.
  intros Hnow. unfold expires_at. destruct ttl as [|n]; [done|].
  destruct (Z.ltb_spec 0 n); [|done]. intros [= ?]. lia.
Qed.

Lemma purge_scan_wf now c : store_wf c -> store_wf (s_cache (purge_scan now c)).
Proof.
  intros Hc. rewrite purge_scan_spec by apply Hc. simpl.
  apply (store_wf_sublist _ c); [apply sublist_filter | done].
Qed.

Lemma purge_evict_wf limit s :
  store_wf (s_cache s) -> store_wf (purge_evict limit s).1.
Proof.
  intros Hs. unfold purge_evict. destruct (s_oldest s) as [o|]; [|done].
  destruct (_ >? _); [|done]. simpl.
  by apply (store_wf_sublist _ (s_cache s)); [apply delete_sublist|].
Qed.

Lemma state_ok_set type c st :
  state_ok st -> store_wf c ->
  state_ok (with_cache (JsMap.set type c (cache st)) st).
Proof.
  intros [Hwf Hall] Hc. split; simpl.
  - by apply JsMapFacts.wf_set.
  - intros t c'. rewrite JsMapFacts.get_set.
    destruct (decide (type = t)); [by intros [= <-] | apply Hall].
Qed.

Lemma state_ok_same_cache st st' :
  cache st' = cache st -> state_ok st -> state_ok st'.
Proof. unfold state_ok. by intros ->. Qed.

Lemma state_ok_store_of type st : state_ok st -> store_wf (store_of type st).
Proof.
  intros [_ Hall]. unfold store_of.
  destruct (JsMap.get type (cache st)) as [c|] eqn:Hget; simpl.
  - by apply (Hall type).
  - apply store_wf_empty.
Qed.

Lemma state_ok_created (cfgs : JsMap.t cfg) :
  state_ok (State cfgs [] [] (Stats 0 0 0 0) []).
Proof. split; [apply NoDup_nil_2 | done]. Qed.

Lemma state_ok_init target st : state_ok st -> state_ok (init target st).1.
Proof.
  intros Hst.
  assert (Hassign : state_ok (assign_store (name target) st).1).
  { unfold assign_store.
    destruct (cache_slot _ st) as [sl|e|]; [|done|done]. simpl.
    apply state_ok_set; [done | apply store_wf_empty]. }
  unfold init, bind.
  destruct (config_slot _ st); [|  |done];
    by destruct (assign_store _ st) as [st1 [[]|e|]].
Qed.

Lemma forEach_preserves {A} (P : state -> Prop) (f : A -> M unit) l st :
  (forall a st, P st -> P (f a st).1) -> P st -> P (forEach f l st).1.
Proof.
  intros Hf. revert st. induction l as [|a l IH]; intros st Hst; [done|].
  simpl. unfold bind. specialize (Hf a st Hst).
  destruct (f a st) as [st1 [[]|e|]]; simpl in *; [by apply IH|done|done].
Qed.

Lemma state_ok_purge_type now type st :
  state_ok st -> state_ok (purge_type now type st).1.
Proof.
  intros Hst. unfold purge_type, cache_slot.
  destruct (JsMap.get type (cache st)) as [c|] eqn:Hc;
    [|by repeat (match goal with
                 | |- context [if ?b then _ else _] => destruct b
                 end)].
  assert (Hscan : store_wf (s_cache (purge_scan now c))).
  { apply purge_scan_wf. by apply (proj2 Hst type). }
  assert (Hsc : state_ok
                  (with_cache
                     (JsMap.set type (s_cache (purge_scan now c)) (cache st)) st))
    by by apply state_ok_set.
  destruct (config_slot type st) as [cf| |]; [|done|done].
  - pose proof (purge_evict_wf (limit cf) _ Hscan) as Hev.
    destruct (purge_evict _ _) as [c' n]. simpl in *.
    apply (state_ok_same_cache (with_cache (JsMap.set type c' (cache st)) st));
      [done|].
    by apply state_ok_set.
Qed.

Lemma state_ok_purge now modelNames st :
  state_ok st -> state_ok (purge now modelNames st).1.
Proof.
  intros Hst. unfold purge.
  apply forEach_preserves; [|done].
  intros type st'. apply state_ok_purge_type.
Qed.

Lemma state_ok_clear_type type st :
  state_ok st -> state_ok (clear_type type st).1.
Proof.
  intros Hst. unfold clear_type.
  destruct (cache_slot type st) as [[c| |]|e|]; try done. simpl.
  apply state_ok_set; [done | apply store_wf_empty].
Qed.

Lemma state_ok_clear fuel modelNames st :
  state_ok st -> state_ok (clear fuel modelNames st).1.
Proof.
  intros Hst. unfold clear. destruct (clear_loop _ _ _ _ _) as [c|]; [|done].
  apply forEach_preserves; [|done].
  intros type st'. apply state_ok_clear_type.
Qed.

Lemma state_ok_register target st :
  state_ok st -> state_ok (_registerAssociations target st).1.
Proof.
  intros Hst. unfold _registerAssociations.
  destruct (model_associations target) as [l|]; [|done].
  by destruct (associated_names l).
Qed.

Lemma state_ok_proxy_get fuel target prop st :
  state_ok st -> state_ok (proxy_get fuel target prop st).1.
Proof.
  intros Hst. unfold proxy_get.
  repeat (match goal with |- context [if ?b then _ else _] => destruct b end;
          try done).
  destruct (config_slot _ st) as [cf| |]; [|done|done].
  repeat (match goal with |- context [if ?b then _ else _] => destruct b end;
          try done).
  unfold bind.
  pose proof (state_ok_clear fuel [name target] st Hst) as Hc.
  by destruct (clear fuel [name target] st) as [st' [[]|e|]].
Qed.

Lemma fn_cache inspect md5_hex type prop now args r st :
  cache (fn inspect md5_hex type prop now args r st).1 = cache st.
Proof.
  unfold fn, bind. destruct (withinTxn args) as [w|e|]; [|done|done].
  destruct (truthy w).
  - unfold call_target, bind, modify. by destruct r.
  - simpl. destruct (JsMap.get _ (store_of type st)) as [[d e]|].
    + destruct (is_live now e); [done|].
      unfold call_target, bind, modify, log. by destruct r.
    + unfold call_target, bind, modify, log. by destruct r.
Qed.

Lemma state_ok_fn inspect md5_hex type prop now args r st :
  state_ok st -> state_ok (fn inspect md5_hex type prop now args r st).1.
Proof. apply state_ok_same_cache, fn_cache. Qed.

Lemma state_ok_fn_then type cf hash now now' data st :
  0 <= now -> state_ok st ->
  state_ok (fn_then type cf hash now now' data st).1.
Proof.
  intros Hnow Hst. destruct (nullish data) eqn:Hn.
  { unfold fn_then. by rewrite Hn. }
  rewrite fn_then_run by done.
  set (stored := JsMap.set hash _ (store_of type st)).
  set (loaded := with_stats _ (with_cache (JsMap.set type stored (cache st)) st)).
  assert (Hloaded : state_ok loaded).
  { apply (state_ok_same_cache (with_cache (JsMap.set type stored (cache st)) st));
      [done|].
    apply state_ok_set; [done|].
    apply store_wf_set; [by apply expires_at_nonzero|].
    by apply state_ok_store_of. }
  destruct (_ >? _); [|done].
  unfold bind.
  pose proof (state_ok_purge now' [type] loaded Hloaded) as Hp.
  by destruct (purge now' [type] loaded) as [st' [[]|e|]].
Qed.

(** ** A call repeated *)

(** A value loaded by a miss is served by the next call with the same
    arguments for as long as its expiry lies ahead: the model is not
    called again. *)
Lemma fn_second_call_hits (inspect : value -> string)
    (md5_hex : string -> string) (type prop : string) (cf : cfg) (n : Z)
    (now now' now2 : Z) (args : list value) (r : response) (data : value)
    (st : state) :
  (forall a, a ∈ args -> nullish a = false) ->
  (forall a, a ∈ args -> has_transaction a = false) ->
  nullish data = false ->
  ttl cf = TtlNum n -> 0 < n -> 0 <= now -> now2 < now + n * 1000 ->
  let hash := hash_of inspect md5_hex type prop args in
  let st1 := (fn_then type cf hash now now' data st).1 in
  Z.of_nat (JsMap.size (JsMap.set hash (Item data (ENum (now + n * 1000)))
                          (store_of type st))) <= limit cf ->
  fn inspect md5_hex type prop now2 args r st1
  = (with_stats (bump EvHit (stats st1)) st1, Ok (FromCache data)).
Proof.
  intros Hargs Hnotxn Hdata Httl Hn Hnow Hnow2 hash st1 Hsize.
  destruct (withinTxn_ok args Hargs) as (w & Hw & Hiff).
  assert (Hfalse : truthy w = false).
  { destruct (truthy w); [|done]. destruct (proj1 Hiff eq_refl) as (a & Ha & Ht).
    by rewrite (Hnotxn a Ha) in Ht. }
  assert (Hexp : expires_at (ttl cf) now = ENum (now + n * 1000))
    by by apply expires_at_positive.
  assert (Hst1 : store_of type st1
                 = JsMap.set hash (Item data (ENum (now + n * 1000)))
                     (store_of type st)).
  { subst st1. rewrite fn_then_run by done. rewrite Hexp.
    destruct (Z.gtb_spec (Z.of_nat (JsMap.size
                (JsMap.set hash (Item data (ENum (now + n * 1000)))
                   (store_of type st)))) (limit cf)); [lia|].
    unfold store_of. simpl. by rewrite JsMapFacts.get_set_eq. }
  apply (fn_hit inspect md5_hex type prop now2 args r st1 w
           (Item data (ENum (now + n * 1000)))); [done|done| |].
  - fold hash. rewrite Hst1. apply JsMapFacts.get_set_eq.
  - unfold is_live. simpl. apply orb_true_iff. right. by apply Z.ltb_lt.
Qed.

(** A model cached for five seconds: the value loaded at time 100 is
    served at time 4000 and looked up in the model again at time 6000,
    the stale entry still being in the store. *)
Example ttl_scenario :
  let args := [VObj [("where", VNum 1)]] in
  let st0 := State [("User", user_cfg)] [("User", [])] [] (Stats 0 0 0 0) [] in
  let st1 :=
    (let* v := fn demo_inspect demo_md5 "User" "findOne" 100 args
                 (RPromise (Resolved (VNum 7))) in
     fn_settle "User" user_cfg 100 100 v) st0 in
  let st2 := fn demo_inspect demo_md5 "User" "findOne" 4000 args ROther st1.1 in
  let st3 :=
    fn demo_inspect demo_md5 "User" "findOne" 6000 args
      (RPromise (Resolved (VNum 8))) st2.1 in
  st1.2 = Ok (VNum 7) /\
  st2.2 = Ok (FromCache (VNum 7)) /\
  stats st2.1 = Stats 1 1 1 0 /\
  length (calls st2.1) = 1%nat /\
  st3.2 = Ok (Loading "User.findOne/_" "#User.findOne/_" (Resolved (VNum 8))) /\
  stats st3.1 = Stats 1 2 1 0 /\
  length (calls st3.1) = 2%nat /\
  cache st3.1 = [("User", [("#User.findOne/_", Item (VNum 7) (ENum 5100))])].
Proof. repeat split; reflexivity. Qed.

(** Under limit 2 a third entry triggers the purge, which removes the
    entry that expires first. *)
Example limit_scenario :
  let st0 := State [("User", user_cfg)] [("User", [])] [] (Stats 0 0 0 0) [] in
  let st1 := (fn_then "User" user_cfg "h1" 100 100 (VNum 1) st0).1 in
  let st2 := (fn_then "User" user_cfg "h2" 200 200 (VNum 2) st1).1 in
  let st3 := (fn_then "User" user_cfg "h3" 300 300 (VNum 3) st2).1 in
  cache st3 = [("User", [("h2", Item (VNum 2) (ENum 5200));
                         ("h3", Item (VNum 3) (ENum 5300))])] /\
  stats st3 = Stats 0 0 3 1.
Proof. split; reflexivity. Qed.

(** * Further properties *)

(** ** Purging and the size limit *)

Lemma purge_store_sublist now limit (m : list (string * item)) :
  JsMap.wf m -> (purge_store now limit m).1 `sublist_of` m.
Proof.
  intros Hwf. unfold purge_store.
  transitivity (s_cache (purge_scan now m)).
  - unfold purge_evict. destruct (s_oldest _) as [o|]; [|done].
    destruct (_ >? _); [|done]. apply delete_sublist.
  - rewrite purge_scan_spec by done. apply sublist_filter.
Qed.

Lemma purge_store_wf now limit (m : store) :
  JsMap.wf m -> JsMap.wf (purge_store now limit m).1.
Proof.
  intros Hwf. unfold JsMap.wf, JsMap.keys in *.
  apply (sublist_NoDup _ (m.*1)); [done|].
  by apply fmap_sublist, purge_store_sublist.
Qed.

Lemma purge_store_length now limit (m : store) :
  JsMap.wf m -> (length (purge_store now limit m).1 <= length m)%nat.
Proof. intros Hwf. by apply sublist_length, purge_store_sublist. Qed.

(** A purge of a store that is over its limit removes at least one
    entry. *)
Lemma purge_store_shrinks now limit (m : store) :
  JsMap.wf m -> 0 <= limit -> limit < Z.of_nat (length m) ->
  (length (purge_store now limit m).1 < length m)%nat.
Proof.
  intros Hwf Hlim Hover.
  pose proof (length_filter (fun e => is_expired now (expires e.2) = false) m)
    as Hk. fold (kept now m) in Hk.
  destruct (Z.le_gt_cases (Z.of_nat (length (kept now m))) limit) as [Hle|Hgt].
  - rewrite purge_store_under by done. simpl. lia.
  - destruct (purge_store_over now limit m Hwf) as (a & h & it & b & Hkm & _ & _ & Hr).
    + lia.
    + intros Hnil. rewrite Hnil in Hgt. simpl in Hgt. lia.
    + rewrite Hr. simpl. rewrite Hkm in Hk.
      rewrite length_app in *. simpl in Hk. lia.
Qed.

(** X1.  Purging converges: a purge never adds an entry, and purging a
    store as many times as it has entries beyond its limit, whatever the
    clock reads, leaves at most [limit] entries. *)
Theorem purge_rounds_converge (limit : Z) (nows : list Z) (m : store) :
  JsMap.wf m -> 0 <= limit ->
  Z.of_nat (length m) <= limit + Z.of_nat (length nows) ->
  JsMap.wf (purge_rounds limit nows m) /\
  purge_rounds limit nows m `sublist_of` m /\
  Z.of_nat (length (purge_rounds limit nows m)) <= limit.
Proof.
  intros Hwf Hlim. revert m Hwf.
  induction nows as [|now nows IH]; intros m Hwf Hlen; simpl in *.
  - split_and!; [done|done|lia].
  - pose proof (purge_store_wf now limit m Hwf) as Hwf'.
    pose proof (purge_store_sublist now limit m Hwf) as Hsub.
    pose proof (purge_store_length now limit m Hwf) as Hle.
    destruct (IH (purge_store now limit m).1 Hwf') as (H1 & H2 & H3).
    + destruct (Z.le_gt_cases (Z.of_nat (length m)) limit) as [?|Hgt]; [lia|].
      pose proof (purge_store_shrinks now limit m Hwf Hlim Hgt). lia.
    + split_and!; [done| |done]. by transitivity (purge_store now limit m).1.
Qed.

Lemma purge_rounds_converge_witness :
  JsMap.wf purge_example /\
  Z.of_nat (length (purge_rounds 2 [10; 20] purge_example)) <= 2.
Proof.
  split; [exact purge_example_wf|].
  refine (proj2 (proj2 (purge_rounds_converge 2 [10; 20] purge_example
                          purge_example_wf _ _))).
  - lia.
  - vm_compute. discriminate.
Defined.

Lemma length_set {V} k (v : V) (m : JsMap.t V) :
  (length m <= length (JsMap.set k v m) <= S (length m))%nat.
Proof.
  induction m as [|[k' v'] m IH]; simpl; [lia|].
  destruct (decide (k = k')); simpl; lia.
Qed.

(** A store one entry over its limit is back within it after a purge. *)
Lemma purge_store_bound now limit (m : store) :
  JsMap.wf m -> 0 <= limit -> Z.of_nat (length m) <= limit + 1 ->
  Z.of_nat (length (purge_store now limit m).1) <= limit.
Proof.
  intros Hwf Hlim Hlen.
  destruct (Z.le_gt_cases (Z.of_nat (length m)) limit) as [Hle|Hgt].
  - pose proof (purge_store_length now limit m Hwf). lia.
  - pose proof (purge_store_shrinks now limit m Hwf Hlim Hgt). lia.
Qed.

Lemma store_of_set type c st :
  store_of type (with_cache (JsMap.set type c (cache st)) st) = c.
Proof. unfold store_of. simpl. by rewrite JsMapFacts.get_set_eq. Qed.

Lemma store_of_set_ne type type' c st :
  type <> type' ->
  store_of type' (with_cache (JsMap.set type c (cache st)) st) = store_of type' st.
Proof. intros Hne. unfold store_of. simpl. by rewrite JsMapFacts.get_set_ne. Qed.

(** The stores after the callback of [promise.then] has stored a value. *)
Lemma fn_then_stores_of type cf hash now now' data st :
  JsMap.get type (config st) = Some cf ->
  nullish data = false ->
  let stored :=
    JsMap.set hash (Item data (expires_at (ttl cf) now)) (store_of type st) in
  let st' := (fn_then type cf hash now now' data st).1 in
  store_of type st'
  = (if Z.of_nat (JsMap.size stored) >? limit cf
     then (purge_store now' (limit cf) stored).1 else stored) /\
  forall type', type <> type' -> store_of type' st' = store_of type' st.
Proof.
  intros Hcf Hn stored st'. subst st'. rewrite fn_then_run by done.
  fold stored.
  set (loaded := with_stats _ (with_cache (JsMap.set type stored (cache st)) st)).
  assert (Hget : JsMap.get type (cache loaded) = Some stored).
  { unfold loaded. simpl. by rewrite JsMapFacts.get_set_eq. }
  destruct (_ >? _).
  - unfold bind. rewrite (purge_one now' type loaded stored cf Hget Hcf). simpl.
    split.
    + unfold store_of. simpl. by rewrite JsMapFacts.get_set_eq.
    + intros type' Hne. unfold store_of. simpl.
      by rewrite !JsMapFacts.get_set_ne.
  - simpl. split.
    + unfold store_of. simpl. by rewrite JsMapFacts.get_set_eq.
    + intros type' Hne. unfold store_of. simpl.
      by rewrite JsMapFacts.get_set_ne.
Qed.

(** X2.  The size limit is kept: when the callback of [promise.then]
    runs on a store that holds at most [limit] entries, the store holds
    at most [limit] entries afterwards, and the stores of the other
    models are as they were. *)
Theorem fn_then_within_limit (type : string) (cf : cfg) (hash : string)
    (now now' : Z) (data : value) (st : state) :
  JsMap.get type (config st) = Some cf ->
  JsMap.wf (store_of type st) ->
  Z.of_nat (JsMap.size (store_of type st)) <= limit cf ->
  let st' := (fn_then type cf hash now now' data st).1 in
  Z.of_nat (JsMap.size (store_of type st')) <= limit cf /\
  forall type', type <> type' -> store_of type' st' = store_of type' st.
Proof.
  intros Hcf Hwf Hsize st'. subst st'.
  destruct (nullish data) eqn:Hn.
  { unfold fn_then. rewrite Hn. simpl. done. }
  destruct (fn_then_stores_of type cf hash now now' data st Hcf Hn) as [Hst Hframe].
  split; [|done]. rewrite Hst.
  set (stored := JsMap.set hash _ (store_of type st)).
  pose proof (length_set hash (Item data (expires_at (ttl cf) now))
                (store_of type st)) as Hlen.
  fold stored in Hlen. unfold JsMap.size in *.
  destruct (Z.gtb_spec (Z.of_nat (length stored)) (limit cf)); [|lia].
  apply purge_store_bound; [by apply JsMapFacts.wf_set| |]; lia.
Qed.

Lemma fn_then_within_limit_witness :
  Z.of_nat (JsMap.size (store_of "User"
    (fn_then "User" user_cfg "h" 100 101 (VNum 8) user_state).1)) <= 2.
Proof.
  refine (proj1 (fn_then_within_limit "User" user_cfg "h" 100 101 (VNum 8)
                   user_state eq_refl _ _)).
  - solve_wf.
  - vm_compute. discriminate.
Defined.

(** ** [purge] on the cache object *)

Lemma purge_type_run now type st c cf :
  JsMap.get type (cache st) = Some c ->
  JsMap.get type (config st) = Some cf ->
  purge_type now type st
  = (with_stats (purged (purge_store now (limit cf) c).2 (stats st))
       (with_cache (JsMap.set type (purge_store now (limit cf) c).1 (cache st)) st),
     Ok tt).
Proof.
  intros Hc Hcf. unfold purge_type.
  rewrite (cache_slot_own _ _ _ Hc), (config_slot_own _ _ _ Hcf).
  unfold purge_store. by destruct (purge_evict _ _) as [c' n].
Qed.

(** A store whose model has no configuration but the name of a member of
    [Object.prototype]: the scan runs, and nothing is evicted. *)
Lemma purge_type_scan now type st c :
  JsMap.get type (cache st) = Some c ->
  JsMap.get type (config st) = None -> type ∈ object_prototype ->
  purge_type now type st
  = (with_stats (purged (s_purged (purge_scan now c)) (stats st))
       (with_cache (JsMap.set type (s_cache (purge_scan now c)) (cache st)) st),
     Ok tt).
Proof.
  intros Hc Hcf Hin. unfold purge_type.
  by rewrite (cache_slot_own _ _ _ Hc), (config_slot_inherited _ _ Hcf Hin).
Qed.

Lemma purge_type_skip now type st :
  JsMap.get type (cache st) = None -> ~ inherits st type ->
  purge_type now type st = (st, Ok tt).
Proof.
  intros Hc Hni. unfold purge_type. by rewrite (cache_slot_absent _ _ Hc Hni).
Qed.

Lemma get_keys_None {V} (m m' : JsMap.t V) k :
  JsMap.keys m' = JsMap.keys m -> JsMap.get k m = None -> JsMap.get k m' = None.
Proof.
  intros Hk Hget. apply JsMapFacts.get_None. rewrite Hk.
  by apply JsMapFacts.get_None.
Qed.

Lemma keys_set_Some {V} k (v v' : V) (m : JsMap.t V) :
  JsMap.get k m = Some v' -> JsMap.keys (JsMap.set k v m) = JsMap.keys m.
Proof.
  intros Hget. apply JsMapFacts.keys_set_present.
  destruct (decide (k ∈ JsMap.keys m)) as [|Hout]; [done|].
  apply JsMapFacts.get_None in Hout. congruence.
Qed.

(** States with the same names of stores read the same members of the
    prototype chain. *)
Lemma keys_is_Some st st' t :
  JsMap.keys (cache st') = JsMap.keys (cache st) ->
  is_Some (JsMap.get t (cache st')) <-> is_Some (JsMap.get t (cache st)).
Proof.
  intros Hk. rewrite <- !not_eq_None_Some, !JsMapFacts.get_None.
  by rewrite Hk.
Qed.

Lemma keys_plain st st' t :
  JsMap.keys (cache st') = JsMap.keys (cache st) ->
  plain st' t <-> plain st t.
Proof.
  intros Hk. unfold plain, inherits.
  by rewrite (keys_is_Some st st' t Hk), (keys_is_Some st st' "__proto__" Hk).
Qed.

Lemma kept_not_expired now (c : list (string * item)) e :
  e ∈ kept now c -> ~ expired_at now e.2.
Proof.
  rewrite kept_fresh. unfold fresh. by intros [? _]%list_elem_of_filter.
Qed.

(** One store purged. *)
Lemma purge_type_ok now type st :
  configured st -> stores_wf st -> plain st type ->
  exists st',
    purge_type now type st = (st', Ok tt) /\
    shrunk st st' /\
    (forall c', JsMap.get type (cache st') = Some c' ->
                forall e, e ∈ c' -> ~ expired_at now e.2) /\
    (forall t, t <> type -> JsMap.get t (cache st') = JsMap.get t (cache st)).
Proof.
  intros Hconf Hwf Hpl.
  destruct (JsMap.get type (cache st)) as [c|] eqn:Hc.
  - assert (forall r n,
              r `sublist_of` c ->
              (forall e, e ∈ r -> ~ expired_at now e.2) ->
              let st' := with_stats n (with_cache (JsMap.set type r (cache st)) st) in
              shrunk st st' /\
              (forall c', JsMap.get type (cache st') = Some c' ->
                          forall e, e ∈ c' -> ~ expired_at now e.2) /\
              (forall t, t <> type ->
                         JsMap.get t (cache st') = JsMap.get t (cache st)))
      as Hstep.
    { intros r n Hsub Hexp st'. subst st'. simpl. split_and!.
      - unfold shrunk. simpl. split_and!; try done.
        + by apply (keys_set_Some type _ c).
        + intros t c0 Hc0. rewrite JsMapFacts.get_set.
          destruct (decide (type = t)) as [<-|Hne]; [|by exists c0].
          eexists. split; [done|]. congruence.
      - intros c'. rewrite JsMapFacts.get_set_eq. by intros [= <-].
      - intros t Hne. by apply JsMapFacts.get_set_ne. }
    destruct (Hconf type c Hc) as [[cf Hcf]|Hin].
    + eexists. split; [by apply (purge_type_run now type st c cf)|].
      apply Hstep.
      * apply purge_store_sublist. by apply (Hwf type).
      * intros e He.
        apply (purge_store_sound now (limit cf) c (Hwf type c Hc)) in He as [_ He].
        rewrite <- is_expired_spec. congruence.
    + destruct (JsMap.get type (config st)) as [cf|] eqn:Hcf.
      * eexists. split; [by apply (purge_type_run now type st c cf)|].
        apply Hstep.
        -- apply purge_store_sublist. by apply (Hwf type).
        -- intros e He.
           apply (purge_store_sound now (limit cf) c (Hwf type c Hc)) in He
             as [_ He].
           rewrite <- is_expired_spec. congruence.
      * eexists. split; [by apply (purge_type_scan now type st c)|].
        rewrite (purge_scan_spec now c (Hwf type c Hc)). simpl. apply Hstep.
        -- apply sublist_filter.
        -- intros e. apply kept_not_expired.
  - destruct Hpl as [[c Hc']|Hni]; [congruence|].
    exists st. split; [by apply purge_type_skip|]. split_and!.
    + unfold shrunk. split_and!; try done. intros t c Hc'. by exists c.
    + intros c' Hc'. congruence.
    + done.
Qed.

(** What [forEach (purge_type now)] establishes, by induction on the
    types. *)
Lemma purge_types_run now (types : list string) st :
  configured st -> stores_wf st -> (forall t, t ∈ types -> plain st t) ->
  exists st',
    forEach (purge_type now) types st = (st', Ok tt) /\
    shrunk st st' /\
    (forall type c',
       type ∈ types -> JsMap.get type (cache st') = Some c' ->
       forall e, e ∈ c' -> ~ expired_at now e.2) /\
    (forall type, type ∉ types ->
       JsMap.get type (cache st') = JsMap.get type (cache st)).
Proof.
  revert st. induction types as [|t0 types IH]; intros st Hconf Hwf Hpl.
  - exists st. split; [done|]. split_and!.
    + unfold shrunk. split_and!; try done. intros t c Hc. by exists c.
    + intros t c' Ht. by apply elem_of_nil in Ht.
    + done.
  - destruct (purge_type_ok now t0 st Hconf Hwf)
      as (st1 & Hrun1 & Hsh1 & Hexp1 & Hframe1); [apply Hpl; left|].
    destruct Hsh1 as (Hcfg1 & Has1 & Hcl1 & Hk1 & Hsub1).
    destruct (IH st1) as (st' & Hrun & (Hcfg & Has & Hcl & Hk & Hsub) & Hexp & Hframe).
    { intros t c Hc. rewrite Hcfg1.
      destruct (JsMap.get t (cache st)) as [c0|] eqn:Hc0.
      - by apply (Hconf t c0).
      - rewrite (get_keys_None (cache st) (cache st1) t Hk1 Hc0) in Hc. done. }
    { intros t c Hc.
      destruct (JsMap.get t (cache st)) as [c0|] eqn:Hc0.
      - destruct (Hsub1 t c0 Hc0) as (c1 & Hc1 & Hs1).
        assert (c1 = c) as -> by congruence.
        unfold JsMap.wf, JsMap.keys.
        apply (sublist_NoDup _ (c0.*1)); [by apply (Hwf t)|by apply fmap_sublist].
      - rewrite (get_keys_None (cache st) (cache st1) t Hk1 Hc0) in Hc. done. }
    { intros t Ht. apply (keys_plain st st1 t Hk1). apply Hpl. by right. }
    exists st'. split.
    { simpl. unfold bind. by rewrite Hrun1. }
    split_and!.
    + unfold shrunk. split_and!; try congruence.
      intros t c Hc. destruct (Hsub1 t c Hc) as (c1 & Hc1 & Hs1).
      destruct (Hsub t c1 Hc1) as (c' & Hc' & Hs').
      exists c'. split; [done|]. by transitivity c1.
    + intros t c' Ht Hc'.
      destruct (decide (t ∈ types)) as [Hin|Hout]; [by apply (Hexp t c')|].
      apply elem_of_cons in Ht as [->|?]; [|done].
      apply Hexp1. by rewrite <- (Hframe t0 Hout).
    + intros t Ht. apply not_elem_of_cons in Ht as [Hne Hout].
      rewrite (Hframe t Hout). by apply Hframe1.
Qed.

(** *** [size] across states with the same names of stores *)

Lemma shrunk_cache_slot st st' type :
  shrunk st st' ->
  match cache_slot type st with
  | Ok (Own c) =>
      exists c', cache_slot type st' = Ok (Own c') /\ (length c' <= length c)%nat
  | other => cache_slot type st' = other
  end.
Proof.
  intros (_ & _ & _ & Hk & Hsub). unfold cache_slot.
  assert (JsMap.has "__proto__" (cache st') = JsMap.has "__proto__" (cache st))
    as Hp.
  { unfold JsMap.has.
    pose proof (keys_is_Some st st' "__proto__" Hk) as [H1 H2].
    destruct (JsMap.get "__proto__" (cache st')) as [x|],
             (JsMap.get "__proto__" (cache st)) as [y|]; try done.
    - destruct H1 as [? ?]; [by eexists|done].
    - destruct H2 as [? ?]; [by eexists|done]. }
  destruct (JsMap.get type (cache st)) as [c|] eqn:Hc.
  - destruct (Hsub type c Hc) as (c' & -> & Hs).
    exists c'. split; [done|]. by apply sublist_length.
  - rewrite (get_keys_None (cache st) (cache st') type Hk Hc), Hp.
    by repeat (match goal with
               | |- context [if ?b then _ else _] => destruct b
               end).
Qed.

Lemma shrunk_types_of st st' names :
  shrunk st st' -> types_of names st' = types_of names st.
Proof.
  intros (_ & _ & _ & Hk & _). unfold types_of, own_keys.
  destruct names; [by rewrite Hk | done].
Qed.

Lemma fold_size_NaN st (l : list string) : fold_left (size_add st) l NaN = NaN.
Proof. induction l as [|t l IH]; [done|]. simpl. exact IH. Qed.

Lemma shrunk_fold st st' (l : list string) :
  shrunk st st' ->
  forall a a' n, (a' <= a)%nat ->
    fold_left (size_add st) l (Num a) = Num n ->
    exists n', fold_left (size_add st') l (Num a') = Num n' /\ (n' <= n)%nat.
Proof.
  intros Hsh. induction l as [|t l IH]; intros a a' n Ha; cbn [fold_left].
  - intros [= <-]. by exists a'.
  - pose proof (shrunk_cache_slot st st' t Hsh) as Hslot.
    destruct (cache_slot t st) as [[c| |]|e|] eqn:Hs.
    + destruct Hslot as (c' & Hs' & Hlen).
      assert (size_add st (Num a) t = Num (a + JsMap.size c)) as ->
        by (unfold size_add; by rewrite Hs).
      assert (size_add st' (Num a') t = Num (a' + JsMap.size c')) as ->
        by (unfold size_add; by rewrite Hs').
      apply IH. unfold JsMap.size. lia.
    + assert (size_add st (Num a) t = NaN) as ->
        by (unfold size_add; by rewrite Hs).
      by rewrite fold_size_NaN.
    + assert (size_add st (Num a) t = NaN) as ->
        by (unfold size_add; by rewrite Hs).
      by rewrite fold_size_NaN.
    + assert (size_add st (Num a) t = NaN) as ->
        by (unfold size_add; by rewrite Hs).
      by rewrite fold_size_NaN.
    + assert (size_add st (Num a) t = NaN) as ->
        by (unfold size_add; by rewrite Hs).
      by rewrite fold_size_NaN.
Qed.

Lemma find_ext {A} (f g : A -> bool) (l : list A) :
  (forall a, f a = g a) -> List.find f l = List.find g l.
Proof.
  intros Hfg. induction l as [|a l IH]; [done|]. simpl.
  by rewrite Hfg, IH.
Qed.

Lemma shrunk_size st st' names n :
  shrunk st st' ->
  size names st = Ok (Num n) ->
  exists n', size names st' = Ok (Num n') /\ (n' <= n)%nat.
Proof.
  intros Hsh. unfold size. rewrite (shrunk_types_of st st' names Hsh).
  assert (forall t,
            match cache_slot t st' with Ok _ => false | _ => true end
            = match cache_slot t st with Ok _ => false | _ => true end) as Hthrow.
  { intros t. pose proof (shrunk_cache_slot st st' t Hsh) as Hslot.
    destruct (cache_slot t st) as [[c| |]|e|].
    - by destruct Hslot as (c' & -> & _).
    - by rewrite Hslot.
    - by rewrite Hslot.
    - by rewrite Hslot.
    - by rewrite Hslot. }
  assert (forall t, has_slot st' t = has_slot st t) as Hhas.
  { intros t. unfold has_slot.
    pose proof (shrunk_cache_slot st st' t Hsh) as Hslot.
    destruct (cache_slot t st) as [[c| |]|e|].
    - by destruct Hslot as (c' & -> & _).
    - by rewrite Hslot.
    - by rewrite Hslot.
    - by rewrite Hslot.
    - by rewrite Hslot. }
  rewrite (find_ext _ _ _ Hthrow).
  destruct (List.find _ (types_of names st)); [done|].
  rewrite (List.filter_ext _ _ Hhas).
  intros [= Hfold].
  destruct (shrunk_fold st st' _ Hsh 0%nat 0%nat n (le_n _) Hfold)
    as (n' & Hn' & Hle).
  exists n'. by rewrite Hn'.
Qed.

(** X3.  [purge(...modelNames)] on a cache object each of whose stores
    belongs to a model with a truthy [this.config[type]], for names none
    of which stands for an inherited member of [this.cache] (the names
    of all stores when none is given): it returns.  Afterwards no store
    it was asked to purge holds an entry that has expired, every store
    holds a part of what it held, the stores it was not asked to purge
    are untouched, and where [size] gave a count it gives one that is
    not greater. *)
Theorem purge_total (now : Z) (modelNames roots : list string) (st : state) :
  (modelNames <> [] -> roots = modelNames) ->
  (modelNames = [] ->
   roots = filter (fun type => type ≠ "__proto__") (JsMap.keys (cache st))) ->
  configured st -> stores_wf st ->
  (forall type, type ∈ roots -> plain st type) ->
  exists st',
    purge now modelNames st = (st', Ok tt) /\
    shrunk st st' /\
    (forall type c',
       type ∈ roots ->
       JsMap.get type (cache st') = Some c' ->
       forall e, e ∈ c' -> ~ expired_at now e.2) /\
    (forall type, type ∉ roots ->
       JsMap.get type (cache st') = JsMap.get type (cache st)) /\
    (forall names n,
       size names st = Ok (Num n) ->
       exists n', size names st' = Ok (Num n') /\ (n' <= n)%nat).
Proof.
  intros Hne Hnil Hconf Hwf Hpl.
  rewrite <- (types_of_roots modelNames roots st Hne Hnil) in *.
  destruct (purge_types_run now (types_of modelNames st) st Hconf Hwf Hpl)
    as (st' & Hrun & Hsh & Hexp & Hframe).
  exists st'. split_and!; try done.
  intros names n. by apply shrunk_size.
Qed.

Lemma purge_total_witness :
  size [] user_state = Ok (Num 1) /\
  exists st',
    purge 6000 [] user_state = (st', Ok tt) /\
    JsMap.get "User" (cache st') = Some [] /\
    size [] st' = Ok (Num 0).
Proof.
  split; [reflexivity|].
  destruct (purge_total 6000 [] ["User"] user_state) as (st' & Hrun & _).
  - done.
  - reflexivity.
  - intros type c Hc. apply JsMapFacts.get_Some_elem, list_elem_of_In in Hc.
    vm_compute in Hc. destruct Hc as [Heq|[]]. injection Heq as <- _.
    left. by exists user_cfg.
  - intros type c Hc. apply JsMapFacts.get_Some_elem, list_elem_of_In in Hc.
    vm_compute in Hc. destruct Hc as [Heq|[]]. injection Heq as _ <-. solve_wf.
  - intros type ->%list_elem_of_singleton. left. by eexists.
  - exists st'. split; [exact Hrun|].
    vm_compute in Hrun. injection Hrun as <-. split; reflexivity.
Defined.

(** ** Calls in a row *)

Lemma no_transaction_falsy args :
  (forall a, a ∈ args -> nullish a = false) ->
  (forall a, a ∈ args -> has_transaction a = false) ->
  exists w, withinTxn args = Ok w /\ truthy w = false.
Proof.
  intros Hargs Hnotxn. destruct (withinTxn_ok args Hargs) as (w & Hw & Hiff).
  exists w. split; [done|]. destruct (truthy w); [|done].
  destruct (proj1 Hiff eq_refl) as (a & Ha & Ht).
  by rewrite (Hnotxn a Ha) in Ht.
Qed.

(** A call that reaches the lookup and finds no live entry. *)
Lemma fn_miss_run inspect md5_hex type prop now args r st :
  (forall a, a ∈ args -> nullish a = false) ->
  (forall a, a ∈ args -> has_transaction a = false) ->
  (forall it,
     JsMap.get (hash_of inspect md5_hex type prop args) (store_of type st) = Some it ->
     is_live now (expires it) = false) ->
  fn inspect md5_hex type prop now args r st
  = (called type prop args (with_stats (bump EvMiss (stats st)) st),
     map_outcome
       (Loading (key_of inspect type prop args)
          (hash_of inspect md5_hex type prop args))
       (asserted r)).
Proof.
  intros Hargs Hnotxn Hstale.
  destruct (no_transaction_falsy args Hargs Hnotxn) as (w & Hw & Hfalse).
  by apply (fn_miss inspect md5_hex type prop now args r st w).
Qed.

(** A call that reaches the lookup and finds a live entry. *)
Lemma fn_hit_run inspect md5_hex type prop now args r st it :
  (forall a, a ∈ args -> nullish a = false) ->
  (forall a, a ∈ args -> has_transaction a = false) ->
  JsMap.get (hash_of inspect md5_hex type prop args) (store_of type st) = Some it ->
  is_live now (expires it) = true ->
  fn inspect md5_hex type prop now args r st
  = (with_stats (bump EvHit (stats st)) st, Ok (FromCache (data it))).
Proof.
  intros Hargs Hnotxn Hget Hlive.
  destruct (no_transaction_falsy args Hargs Hnotxn) as (w & Hw & Hfalse).
  by apply (fn_hit inspect md5_hex type prop now args r st w).
Qed.

(** The state the callback leaves when it stores without purging. *)
Lemma fn_then_no_purge type cf hash now now' data st :
  nullish data = false ->
  Z.of_nat (JsMap.size (JsMap.set hash (Item data (expires_at (ttl cf) now))
                          (store_of type st))) <= limit cf ->
  fn_then type cf hash now now' data st
  = (with_stats (bump EvLoad (stats st))
       (with_cache
          (JsMap.set type
             (JsMap.set hash (Item data (expires_at (ttl cf) now))
                (store_of type st))
             (cache st)) st),
     Ok data).
Proof.
  intros Hn Hsize. rewrite fn_then_run by done.
  destruct (Z.gtb_spec
              (Z.of_nat (JsMap.size
                 (JsMap.set hash (Item data (expires_at (ttl cf) now))
                    (store_of type st)))) (limit cf)); [lia|done].
Qed.

Lemma whole_call_miss inspect md5_hex type prop cf now0 now now' args p st :
  (forall a, a ∈ args -> nullish a = false) ->
  (forall a, a ∈ args -> has_transaction a = false) ->
  (forall it,
     JsMap.get (hash_of inspect md5_hex type prop args) (store_of type st) = Some it ->
     is_live now0 (expires it) = false) ->
  whole_call inspect md5_hex type prop cf now0 now now' args (RPromise p) st
  = fn_settle type cf now now'
      (Loading (key_of inspect type prop args)
         (hash_of inspect md5_hex type prop args) p)
      (called type prop args (with_stats (bump EvMiss (stats st)) st)).
Proof.
  intros Hargs Hnotxn Hstale. unfold whole_call, bind.
  by rewrite (fn_miss_run inspect md5_hex type prop now0 args (RPromise p) st).
Qed.

(** X4.  A miss followed by the same call: when a call finds no live
    entry, the model resolves to a value that is neither [null] nor
    [undefined] and the store stays within its limit, the caller gets the
    value, and the same call made before [now + ttl * 1000] is answered
    with that value from the cache: the model has been called once in
    all, and the counters show one miss, one load and one hit more. *)
Theorem miss_then_hit (inspect : value -> string) (md5_hex : string -> string)
    (type prop : string) (cf : cfg) (n now0 now now' now2 : Z)
    (args : list value) (r2 : response) (data : value) (st : state) :
  (forall a, a ∈ args -> nullish a = false) ->
  (forall a, a ∈ args -> has_transaction a = false) ->
  (forall it,
     JsMap.get (hash_of inspect md5_hex type prop args) (store_of type st) = Some it ->
     is_live now0 (expires it) = false) ->
  nullish data = false ->
  ttl cf = TtlNum n -> 0 < n -> now2 < now + n * 1000 ->
  Z.of_nat (JsMap.size
              (JsMap.set (hash_of inspect md5_hex type prop args)
                 (Item data (ENum (now + n * 1000))) (store_of type st)))
  <= limit cf ->
  let run1 :=
    whole_call inspect md5_hex type prop cf now0 now now' args
      (RPromise (Resolved data)) st in
  let run2 := fn inspect md5_hex type prop now2 args r2 run1.1 in
  run1.2 = Ok data /\
  run2.2 = Ok (FromCache data) /\
  calls run2.1 = calls st ++ [Call type prop args] /\
  stats run2.1
  = Stats (S (st_hit (stats st))) (S (st_miss (stats st)))
      (S (st_load (stats st))) (st_purge (stats st)).
Proof.
  intros Hargs Hnotxn Hstale Hdata Httl Hn Hnow2 Hsize run1 run2.
  assert (Hexp : expires_at (ttl cf) now = ENum (now + n * 1000))
    by by apply expires_at_positive.
  set (hash := hash_of inspect md5_hex type prop args) in *.
  set (st1 := called type prop args (with_stats (bump EvMiss (stats st)) st)).
  assert (Hrun1 : run1
    = (with_stats (bump EvLoad (stats st1))
         (with_cache
            (JsMap.set type
               (JsMap.set hash (Item data (ENum (now + n * 1000)))
                  (store_of type st1)) (cache st1)) st1),
       Ok data)).
  { subst run1. rewrite whole_call_miss by done. simpl. fold hash. fold st1.
    rewrite fn_then_no_purge by (by rewrite ?Hexp). by rewrite Hexp. }
  assert (Hrun2 : run2
    = (with_stats (bump EvHit (stats run1.1)) run1.1, Ok (FromCache data))).
  { subst run2.
    apply (fn_hit_run inspect md5_hex type prop now2 args r2 run1.1
             (Item data (ENum (now + n * 1000)))); [done|done| |].
    - rewrite Hrun1. unfold store_of at 1. simpl.
      rewrite JsMapFacts.get_set_eq. simpl. apply JsMapFacts.get_set_eq.
    - unfold is_live. simpl. apply orb_true_iff. right. by apply Z.ltb_lt. }
  rewrite Hrun2, Hrun1. simpl. split_and!; try done.
Qed.

Lemma miss_then_hit_witness :
  (fn demo_inspect demo_md5 "User" "findOne" 4000 [VObj [("where", VNum 2)]]
     ROther
     (whole_call demo_inspect demo_md5 "User" "findOne" user_cfg 100 110 120
        [VObj [("where", VNum 2)]] (RPromise (Resolved (VNum 9)))
        (State [("User", user_cfg)] [("User", [])] [] (Stats 0 0 0 0) [])).1).2
  = Ok (FromCache (VNum 9)).
Proof.
  refine (proj1 (proj2 (miss_then_hit demo_inspect demo_md5 "User" "findOne"
            user_cfg 5 100 110 120 4000 [VObj [("where", VNum 2)]] ROther
            (VNum 9)
            (State [("User", user_cfg)] [("User", [])] [] (Stats 0 0 0 0) [])
            _ _ _ eq_refl eq_refl _ _ _))).
  - intros a Ha. apply elem_of_cons in Ha as [->|Ha]; [reflexivity|].
    by apply elem_of_nil in Ha.
  - intros a Ha. apply elem_of_cons in Ha as [->|Ha]; [reflexivity|].
    by apply elem_of_nil in Ha.
  - intros it Hit. vm_compute in Hit. discriminate Hit.
  - lia.
  - lia.
  - vm_compute. discriminate.
Defined.

(** X5.  An entry goes stale: once the callback of [promise.then] has
    stored a value at the clock [now] under a positive [ttl], a call with
    the hash of that value made at [now + ttl * 1000] or later is a miss,
    whether or not the entry was purged meanwhile: the miss counter goes
    up, the model is called and the stores are left as they were. *)
Theorem stale_after_ttl (inspect : value -> string)
    (md5_hex : string -> string) (type prop : string) (cf : cfg)
    (n now now' now2 : Z) (args : list value) (r : response) (data : value)
    (st : state) :
  (forall a, a ∈ args -> nullish a = false) ->
  (forall a, a ∈ args -> has_transaction a = false) ->
  JsMap.get type (config st) = Some cf ->
  JsMap.wf (store_of type st) ->
  nullish data = false ->
  ttl cf = TtlNum n -> 0 < n -> 0 <= now -> now + n * 1000 <= now2 ->
  let hash := hash_of inspect md5_hex type prop args in
  let st1 := (fn_then type cf hash now now' data st).1 in
  fn inspect md5_hex type prop now2 args r st1
  = (called type prop args (with_stats (bump EvMiss (stats st1)) st1),
     map_outcome (Loading (key_of inspect type prop args) hash) (asserted r)).
Proof.
  intros Hargs Hnotxn Hcf Hwf Hdata Httl Hn Hnow Hnow2 hash st1.
  apply fn_miss_run; [done|done|]. fold hash. intros it Hit.
  assert (Hexp : expires_at (ttl cf) now = ENum (now + n * 1000))
    by by apply expires_at_positive.
  destruct (fn_then_stores_of type cf hash now now' data st Hcf Hdata) as [Hst _].
  fold st1 in Hst. rewrite Hexp in Hst.
  set (stored := JsMap.set hash (Item data (ENum (now + n * 1000)))
                   (store_of type st)) in *.
  assert (Hswf : JsMap.wf stored) by by apply JsMapFacts.wf_set.
  assert (Hin : (hash, it) ∈ stored).
  { apply JsMapFacts.get_Some_elem in Hit. rewrite Hst in Hit.
    destruct (_ >? _); [|done].
    by apply (elem_of_sublist _ _ _ Hit), purge_store_sublist. }
  apply (JsMapFacts.elem_get _ _ _ Hswf) in Hin.
  unfold stored in Hin. rewrite JsMapFacts.get_set_eq in Hin.
  injection Hin as <-. unfold is_live. simpl.
  apply orb_false_iff. split.
  - apply negb_false_iff, negb_true_iff, Z.eqb_neq. lia.
  - apply Z.ltb_ge. lia.
Qed.

Lemma stale_after_ttl_witness :
  (fn demo_inspect demo_md5 "User" "findOne" 5100 [VObj [("where", VNum 1)]]
     (RPromise (Resolved (VNum 8)))
     (fn_then "User" user_cfg "#User.findOne/_" 100 101 (VNum 7) user_state).1).2
  = Ok (Loading "User.findOne/_" "#User.findOne/_" (Resolved (VNum 8))).
Proof.
  refine (f_equal snd
            (stale_after_ttl demo_inspect demo_md5 "User" "findOne" user_cfg
               5 100 101 5100 [VObj [("where", VNum 1)]]
               (RPromise (Resolved (VNum 8))) (VNum 7) user_state
               _ _ eq_refl _ eq_refl eq_refl _ _ _)).
  - intros a Ha. apply elem_of_cons in Ha as [->|Ha]; [reflexivity|].
    by apply elem_of_nil in Ha.
  - intros a Ha. apply elem_of_cons in Ha as [->|Ha]; [reflexivity|].
    by apply elem_of_nil in Ha.
  - solve_wf.
  - lia.
  - lia.
  - lia.
Defined.

(** X6.  Caching for ever: under a [ttl] that is [false], 0 or negative,
    a value stored by the callback of [promise.then] in a store within
    its limit is served to the same call whatever the clock reads. *)
Theorem never_expiring_hits (inspect : value -> string)
    (md5_hex : string -> string) (type prop : string) (cf : cfg)
    (now now' now2 : Z) (args : list value) (r : response) (data : value)
    (st : state) :
  (forall a, a ∈ args -> nullish a = false) ->
  (forall a, a ∈ args -> has_transaction a = false) ->
  nullish data = false ->
  ttl cf = TtlFalse \/ (exists n, ttl cf = TtlNum n /\ n <= 0) ->
  let hash := hash_of inspect md5_hex type prop args in
  Z.of_nat (JsMap.size (JsMap.set hash (Item data EFalse) (store_of type st)))
  <= limit cf ->
  let st1 := (fn_then type cf hash now now' data st).1 in
  fn inspect md5_hex type prop now2 args r st1
  = (with_stats (bump EvHit (stats st1)) st1, Ok (FromCache data)).
Proof.
  intros Hargs Hnotxn Hdata Httl hash Hsize st1.
  assert (Hexp : expires_at (ttl cf) now = EFalse) by by apply expires_at_never.
  assert (Hst1 : store_of type st1
                 = JsMap.set hash (Item data EFalse) (store_of type st)).
  { subst st1. rewrite fn_then_no_purge by (by rewrite ?Hexp).
    unfold store_of at 1. simpl. rewrite JsMapFacts.get_set_eq. simpl.
    by rewrite Hexp. }
  apply (fn_hit_run inspect md5_hex type prop now2 args r st1 (Item data EFalse));
    [done|done| |done].
  fold hash. rewrite Hst1. apply JsMapFacts.get_set_eq.
Qed.

Lemma never_expiring_hits_witness :
  (fn demo_inspect demo_md5 "Page" "findAll" 999999999 [] ROther
     (fn_then "Page" (Cfg (TtlNum 0) ["findAll"] [] 3 true) "#Page.findAll/"
        100 101 (VNum 4)
        (State [("Page", Cfg (TtlNum 0) ["findAll"] [] 3 true)] [("Page", [])]
           [] (Stats 0 0 0 0) [])).1).2
  = Ok (FromCache (VNum 4)).
Proof.
  refine (f_equal snd
            (never_expiring_hits demo_inspect demo_md5 "Page" "findAll"
               (Cfg (TtlNum 0) ["findAll"] [] 3 true) 100 101 999999999 []
               ROther (VNum 4)
               (State [("Page", Cfg (TtlNum 0) ["findAll"] [] 3 true)]
                  [("Page", [])] [] (Stats 0 0 0 0) [])
               _ _ eq_refl _ _)).
  - intros a Ha. by apply elem_of_nil in Ha.
  - intros a Ha. by apply elem_of_nil in Ha.
  - right. exists 0. split; [reflexivity | lia].
  - vm_compute. discriminate.
Defined.

Lemma is_live_later now0 now2 e :
  now0 <= now2 -> is_live now0 e = false -> is_live now2 e = false.
Proof.
  unfold is_live. intros Hle [H1 H2]%orb_false_iff.
  apply orb_false_iff. split; [done|].
  apply Z.ltb_ge in H2. apply Z.ltb_ge. lia.
Qed.

(** X7.  What is not cached: when a miss is answered by a promise that
    is rejected, or that resolves to [null] or [undefined], the caller
    gets the rejection or the value, the stores are left as they were,
    and the same call made later is a miss again: the model is called
    once more. *)
Theorem failed_load_not_cached (inspect : value -> string)
    (md5_hex : string -> string) (type prop : string) (cf : cfg)
    (now0 now now' now2 : Z) (args : list value) (p : settled)
    (r2 : response) (st : state) :
  (forall a, a ∈ args -> nullish a = false) ->
  (forall a, a ∈ args -> has_transaction a = false) ->
  (forall it,
     JsMap.get (hash_of inspect md5_hex type prop args) (store_of type st) = Some it ->
     is_live now0 (expires it) = false) ->
  now0 <= now2 ->
  match p with Resolved d => nullish d = true | Rejected _ => True end ->
  let st1 := called type prop args (with_stats (bump EvMiss (stats st)) st) in
  whole_call inspect md5_hex type prop cf now0 now now' args (RPromise p) st
  = (st1, match p with Resolved d => Ok d | Rejected e => Throw (Thrown e) end) /\
  cache st1 = cache st /\
  fn inspect md5_hex type prop now2 args r2 st1
  = (called type prop args (with_stats (bump EvMiss (stats st1)) st1),
     map_outcome
       (Loading (key_of inspect type prop args)
          (hash_of inspect md5_hex type prop args))
       (asserted r2)).
Proof.
  intros Hargs Hnotxn Hstale Hle Hp st1. split_and!.
  - rewrite whole_call_miss by done. fold st1. destruct p as [d|e]; simpl.
    + unfold fn_then. by rewrite Hp.
    + done.
  - done.
  - apply fn_miss_run; [done|done|]. intros it Hit.
    apply (is_live_later now0); [done|]. by apply Hstale.
Qed.

Lemma failed_load_not_cached_witness :
  whole_call demo_inspect demo_md5 "User" "findOne" user_cfg 6000 6001 6002
    [VObj [("where", VNum 1)]] (RPromise (Resolved VNull)) user_state
  = (called "User" "findOne" [VObj [("where", VNum 1)]]
       (with_stats (bump EvMiss (stats user_state)) user_state),
     Ok VNull).
Proof.
  refine (proj1 (failed_load_not_cached demo_inspect demo_md5 "User" "findOne"
            user_cfg 6000 6001 6002 6000 [VObj [("where", VNum 1)]]
            (Resolved VNull) ROther user_state _ _ _ _ eq_refl)).
  - intros a Ha. apply elem_of_cons in Ha as [->|Ha]; [reflexivity|].
    by apply elem_of_nil in Ha.
  - intros a Ha. apply elem_of_cons in Ha as [->|Ha]; [reflexivity|].
    by apply elem_of_nil in Ha.
  - intros it Hit. vm_compute in Hit. injection Hit as <-. reflexivity.
  - lia.
Defined.

(** ** Clearing *)

(** Reading an updating method of a model with [clearOnUpdate] runs
    [clear] on the model. *)
Lemma proxy_get_update_clear fuel target prop cf st :
  own_member target prop = false ->
  JsMap.get (name target) (config st) = Some cf ->
  prop ∈ methodsUpdate cf -> clearOnUpdate cf = true ->
  proxy_get fuel target prop st
  = (clear fuel [name target] >> ret Original) st.
Proof.
  intros Hown Hcfg Hu Hc. unfold own_member in Hown.
  apply orb_false_elim in Hown as [Hown H4].
  apply orb_false_elim in Hown as [Hown H3].
  apply orb_false_elim in Hown as [H1 H2].
  unfold proxy_get. rewrite H1, H2, H3, H4, (config_slot_own _ _ _ Hcfg).
  rewrite bool_decide_true by (apply elem_of_app; by right).
  rewrite bool_decide_true by done. simpl. by rewrite Hc.
Qed.


(** X23.  [clear(...modelNames)] starts from the names it is given, or
    from the names of all stores when it is given none.  Whatever the
    association map, cycles included, its loop ends once it has fuel for
    [clear_fuel] iterations; the body runs at most once for a type, for
    exactly the types reachable from the roots (the roots among them),
    and [typesToClear] lists each of these types once.  When none of the
    reachable names stands for an inherited member of [this.cache],
    [clear] returns, the store of every reachable type is emptied and
    the other stores are left as they were. *)
Theorem clear_closure (fuel : nat) (modelNames roots : list string)
    (st : state) :
  (modelNames <> [] -> roots = modelNames) ->
  (modelNames = [] ->
   roots = filter (fun type => type ≠ "__proto__") (JsMap.keys (cache st))) ->
  (clear_fuel (associations st) roots <= fuel)%nat ->
  exists c,
    clear_loop (associations st) fuel roots ∅ (Closure [] []) = Some c /\
    NoDup (visits c) /\
    (forall t, t ∈ visits c <-> reachable (associations st) roots t) /\
    typesToClear c = visits c /\
    ((forall t, reachable (associations st) roots t -> plain st t) ->
     exists st',
       clear fuel modelNames st = (st', Ok tt) /\
       cleared (reachable (associations st) roots) st st').
Proof.
  intros Hne Hnil Hfuel.
  rewrite <- (types_of_roots modelNames roots st Hne Hnil) in *.
  destruct (clear_run fuel modelNames st Hfuel)
    as (c & Hloop & (Htc & Hnd & Hreach) & Hrun).
  by exists c.
Qed.

Lemma clear_closure_witness :
  clear_loop (associations cycle_state) 7 ["A"] ∅ (Closure [] [])
  = Some (Closure ["A"; "B"; "C"] ["A"; "B"; "C"]) /\
  (forall t, reachable (associations cycle_state) ["A"] t
             <-> t ∈ ["A"; "B"; "C"]) /\
  exists st',
    clear 7 ["A"] cycle_state = (st', Ok tt) /\
    cleared (reachable (associations cycle_state) ["A"]) cycle_state st'.
Proof.
  destruct (clear_closure 7 ["A"] ["A"] cycle_state)
    as (c & Hloop & _ & Hreach & _ & Hrun).
  - reflexivity.
  - discriminate.
  - vm_compute. lia.
  - vm_compute in Hloop. injection Hloop as Hc. subst c. simpl in Hreach.
    split; [reflexivity|]. split; [intros t; symmetry; apply Hreach|].
    apply Hrun. intros t Ht%Hreach. left.
    apply elem_of_cons in Ht as [->|Ht]; [by eexists|].
    apply elem_of_cons in Ht as [->|Ht]; [by eexists|].
    apply elem_of_cons in Ht as [->|Ht]; [by eexists|].
    by apply elem_of_nil in Ht.
Defined.




Lemma own_keys_elem st t :
  t ∈ own_keys st <-> is_Some (JsMap.get t (cache st)) /\ t <> "__proto__".
Proof.
  unfold own_keys. rewrite list_elem_of_filter.
  rewrite <- not_eq_None_Some, JsMapFacts.get_None.
  split.
  - intros [Hne Hin]. split; [|done]. by intros Hout.
  - intros [Hnn Hne]. split; [done|]. by apply dec_stable.
Qed.

Lemma fold_size_empty st (l : list string) n :
  (forall t, t ∈ l -> JsMap.get t (cache st) = Some []) ->
  fold_left (size_add st) l (Num n) = Num n.
Proof.
  revert n. induction l as [|t l IH]; intros n Hall; [done|].
  cbn [fold_left].
  assert (size_add st (Num n) t = Num n) as ->.
  { unfold size_add. rewrite (cache_slot_own t st []) by (apply Hall; left).
    simpl. f_equal. lia. }
  apply IH. intros t' Ht'. apply Hall. by right.
Qed.

(** [size] on names that all have an empty store. *)
Lemma size_zero names st :
  (forall t, t ∈ types_of names st -> JsMap.get t (cache st) = Some []) ->
  size names st = Ok (Num 0).
Proof.
  intros Hall. unfold size.
  destruct (List.find _ (types_of names st)) as [t|] eqn:Hfind.
  - apply List.find_some in Hfind as [Hin Hthrow].
    apply list_elem_of_In in Hin.
    by rewrite (cache_slot_own t st [] (Hall t Hin)) in Hthrow.
  - f_equal. apply fold_size_empty.
    intros t Ht. apply Hall. apply list_elem_of_In in Ht.
    apply List.filter_In in Ht as [Ht _]. by apply list_elem_of_In.
Qed.

(** X9.  Clearing everything: [clear] without arguments, which is what
    [clearCacheAll] runs, starts from the names of all the stores that
    are properties of [this.cache]; when none of the names it reaches
    stands for an inherited member, it empties every one of these stores,
    so that [size()] is 0; the set of stores, the configuration, the
    association map and the counters are as before. *)
Theorem clear_all_empties (fuel : nat) (roots : list string) (st : state) :
  roots = filter (fun type => type ≠ "__proto__") (JsMap.keys (cache st)) ->
  (clear_fuel (associations st) roots <= fuel)%nat ->
  (forall t, reachable (associations st) roots t -> plain st t) ->
  exists st',
    clearCacheAll fuel st = (st', Ok tt) /\
    JsMap.keys (cache st') = JsMap.keys (cache st) /\
    (forall type c,
       JsMap.get type (cache st') = Some c -> type <> "__proto__" -> c = []) /\
    size [] st' = Ok (Num 0) /\
    config st' = config st /\ associations st' = associations st /\
    stats st' = stats st.
Proof.
  intros Hroots Hfuel Hplain.
  assert (Htypes : types_of [] st = roots) by done.
  rewrite <- Htypes in *.
  destruct (clear_run fuel [] st Hfuel) as (c & _ & _ & Hrun).
  destruct (Hrun Hplain) as (st' & Hrun' & Hcl).
  pose proof Hcl as (Hcfg & Has & Hst & _ & Hk & Hin & _).
  assert (Hall : forall type c0,
            JsMap.get type (cache st') = Some c0 -> type <> "__proto__" ->
            c0 = []).
  { intros type c0 Hc0 Hne.
    assert (type ∈ own_keys st) as Hkey.
    { apply own_keys_elem. split; [|done].
      apply (keys_is_Some st st' type Hk). by eexists. }
    rewrite (Hin type) in Hc0 by (by apply reach_root).
    destruct (JsMap.get type (cache st)); simpl in Hc0; [|done].
    by injection Hc0 as <-. }
  exists st'. split_and!; try done.
  apply size_zero. intros t Ht. simpl in Ht.
  apply own_keys_elem in Ht as [[c0 Hc0] Hne].
  by rewrite Hc0, (Hall t c0 Hc0 Hne).
Qed.

Lemma cycle_state_reachable (roots : list string) t :
  roots ⊆ ["A"; "B"; "C"; "D"] ->
  reachable (associations cycle_state) roots t -> t ∈ ["A"; "B"; "C"; "D"].
Proof.
  intros Hroots. induction 1 as [t Ht|s l t _ IH Hget Ht]; [by apply Hroots|].
  vm_compute in Hget.
  repeat (match type of Hget with
          | (if ?d then _ else _) = _ => destruct d
          end); simplify_eq; set_solver.
Qed.

Lemma clear_all_empties_witness :
  exists st',
    clearCacheAll 10 cycle_state = (st', Ok tt) /\ size [] st' = Ok (Num 0).
Proof.
  destruct (clear_all_empties 10 ["A"; "B"; "C"; "D"] cycle_state)
    as (st' & Hrun & _ & _ & Hsize & _).
  - reflexivity.
  - vm_compute. lia.
  - intros t Ht. apply cycle_state_reachable in Ht; [|done]. left.
    repeat (apply elem_of_cons in Ht as [->|Ht]; [by eexists|]).
    by apply elem_of_nil in Ht.
  - exists st'. split; [exact Hrun | exact Hsize].
Defined.

(** Two [Map]s with the same keys in the same order and the same values
    are the same. *)
Lemma jsmap_ext {V} (m m' : JsMap.t V) :
  JsMap.keys m' = JsMap.keys m -> JsMap.wf m ->
  (forall k, JsMap.get k m' = JsMap.get k m) -> m' = m.
Proof.
  revert m'. induction m as [|[k v] m IH]; intros m' Hk Hwf Hget.
  - destruct m'; [done|]. unfold JsMap.keys in Hk. done.
  - destruct m' as [|[k' v'] m']; [unfold JsMap.keys in Hk; done|].
    assert (k' = k /\ JsMap.keys m' = JsMap.keys m) as [-> Hk'].
    { unfold JsMap.keys in *. simpl in Hk. by injection Hk. }
    assert ((k ∉ JsMap.keys m) /\ JsMap.wf m) as [Hout Hwf'].
    { unfold JsMap.wf, JsMap.keys in *. simpl in Hwf. by apply NoDup_cons. }
    pose proof (Hget k) as Hv. unfold JsMap.get in Hv. simpl in Hv.
    rewrite !decide_True in Hv by done. injection Hv as ->.
    f_equal. apply IH; [done|done|].
    intros k0. specialize (Hget k0). unfold JsMap.get in Hget. simpl in Hget.
    destruct (decide (k0 = k)) as [->|Hne]; [|done].
    transitivity (@None V).
    + apply JsMapFacts.get_None. by rewrite Hk'.
    + symmetry. by apply JsMapFacts.get_None.
Qed.

(** X10.  Clearing twice is clearing once: when none of the names it
    reaches stands for an inherited member of [this.cache], a second
    [clear] of the same models finds the same closure and leaves the
    cache object exactly as the first left it. *)
Theorem clear_idempotent (fuel : nat) (modelNames roots : list string)
    (st : state) :
  (modelNames <> [] -> roots = modelNames) ->
  (modelNames = [] ->
   roots = filter (fun type => type ≠ "__proto__") (JsMap.keys (cache st))) ->
  JsMap.wf (cache st) ->
  (clear_fuel (associations st) roots <= fuel)%nat ->
  (forall t, reachable (associations st) roots t -> plain st t) ->
  exists st',
    clear fuel modelNames st = (st', Ok tt) /\
    cleared (reachable (associations st) roots) st st' /\
    clear fuel modelNames st' = (st', Ok tt).
Proof.
  intros Hne Hnil Hwf Hfuel Hplain.
  rewrite <- (types_of_roots modelNames roots st Hne Hnil) in *.
  destruct (clear_run fuel modelNames st Hfuel) as (c & _ & Hclo & Hrun).
  destruct (Hrun Hplain) as (st' & Hrun1 & Hcl).
  pose proof Hcl as (Hcfg & Has & Hst & Hca & Hk & Hin & Hout).
  assert (Htypes : types_of modelNames st' = types_of modelNames st).
  { unfold types_of, own_keys. destruct modelNames; [by rewrite Hk | done]. }
  assert (Hfuel' : (clear_fuel (associations st') (types_of modelNames st')
                    <= fuel)%nat) by by rewrite Has, Htypes.
  destruct (clear_run fuel modelNames st' Hfuel') as (c' & _ & _ & Hrun').
  rewrite Has, Htypes in Hrun'.
  destruct Hrun' as (st'' & Hrun2 & Hcl').
  { intros t Ht. apply (cleared_plain _ st st' t Hcl). by apply Hplain. }
  destruct Hcl' as (Hcfg' & Has' & Hst' & Hca' & Hk' & Hin' & Hout').
  exists st'. split; [done|]. split; [done|]. rewrite Hrun2. f_equal.
  assert (cache st'' = cache st') as Hcache.
  { apply jsmap_ext; [done| |].
    - unfold JsMap.wf. by rewrite Hk.
    - intros k. destruct Hclo as (_ & _ & Hreach).
      destruct (decide (k ∈ visits c)) as [Hv|Hv].
      + apply Hreach in Hv. rewrite (Hin' k Hv), (Hin k Hv).
        by destruct (JsMap.get k (cache st)).
      + rewrite Hreach in Hv. by apply Hout'. }
  destruct st'', st'. simpl in *. by subst.
Qed.

Lemma clear_idempotent_witness :
  exists st',
    clear 7 ["A"] cycle_state = (st', Ok tt) /\
    clear 7 ["A"] st' = (st', Ok tt).
Proof.
  destruct (clear_idempotent 7 ["A"] ["A"] cycle_state)
    as (st' & Hrun & _ & Hagain).
  - reflexivity.
  - discriminate.
  - solve_wf.
  - vm_compute. lia.
  - intros t Ht. apply cycle_state_reachable in Ht; [|set_solver]. left.
    repeat (apply elem_of_cons in Ht as [->|Ht]; [by eexists|]).
    by apply elem_of_nil in Ht.
  - by exists st'.
Defined.
(** ** Registering associations *)

Lemma add_reverse_get modelName a associatedModel k :
  JsMap.get k (add_reverse modelName a associatedModel)
  = if decide (associatedModel = k)
    then Some (with_reverse modelName (JsMap.get k a))
    else JsMap.get k a.
Proof.
  unfold add_reverse, with_reverse, JsMap.has.
  destruct (JsMap.get associatedModel a) as [l|] eqn:Hl; simpl.
  - rewrite Hl. destruct (decide (modelName ∈ l)).
    + destruct (decide (associatedModel = k)) as [<-|]; [|done].
      rewrite Hl. simpl. by rewrite decide_True.
    + rewrite JsMapFacts.get_set.
      destruct (decide (associatedModel = k)) as [<-|]; [|done].
      rewrite Hl. simpl. by rewrite decide_False.
  - rewrite JsMapFacts.get_set_eq.
    destruct (decide (modelName ∈ [])) as [H|_]; [by apply elem_of_nil in H|].
    rewrite !JsMapFacts.get_set.
    destruct (decide (associatedModel = k)) as [<-|]; [|done].
    rewrite Hl. simpl.
    destruct (decide (modelName ∈ [])) as [H|_]; [by apply elem_of_nil in H|done].
Qed.

Lemma with_reverse_elem modelName o : modelName ∈ with_reverse modelName o.
Proof.
  unfold with_reverse. destruct (decide (modelName ∈ default [] o)); [done|].
  apply elem_of_app. right. left.
Qed.

Lemma with_reverse_again modelName o :
  with_reverse modelName (Some (with_reverse modelName o))
  = with_reverse modelName o.
Proof.
  unfold with_reverse at 1. simpl.
  by rewrite decide_True by apply with_reverse_elem.
Qed.

(** The association map after the [for ... of] loop. *)
Lemma add_reverse_fold modelName names a k :
  JsMap.get k (fold_left (add_reverse modelName) names a)
  = if decide (k ∈ names)
    then Some (with_reverse modelName (JsMap.get k a))
    else JsMap.get k a.
Proof.
  revert a. induction names as [|am names IH]; intros a; simpl.
  - destruct (decide (k ∈ [])) as [H|_]; [by apply elem_of_nil in H|done].
  - rewrite IH, add_reverse_get.
    destruct (decide (k ∈ am :: names)) as [Hc|Hc].
    + destruct (decide (k ∈ names)) as [Hin|Hout].
      * destruct (decide (am = k)) as [->|]; [|done].
        by rewrite with_reverse_again.
      * destruct (decide (am = k)) as [->|Hne]; [done|].
        apply elem_of_cons in Hc as [?|?]; [congruence|done].
    + destruct (decide (k ∈ names)) as [Hin|Hout].
      * exfalso. apply Hc. by right.
      * destruct (decide (am = k)) as [->|]; [|done].
        exfalso. apply Hc. left.
Qed.

(** A registration that names at least one model. *)
Lemma register_run target l st :
  model_associations target = Some l ->
  associated_names l <> [] ->
  _registerAssociations target st
  = (with_associations
       (fold_left (add_reverse (name target)) (associated_names l)
          (JsMap.set (name target) (associated_names l) (associations st)))
       st, Ok tt).
Proof.
  intros Hl Hne. unfold _registerAssociations. rewrite Hl.
  by destruct (associated_names l).
Qed.

Lemma register_get_self target l st :
  model_associations target = Some l ->
  associated_names l <> [] ->
  JsMap.get (name target) (associations (_registerAssociations target st).1)
  = Some (associated_names l).
Proof.
  intros Hl Hne. rewrite (register_run target l st Hl Hne). simpl.
  rewrite add_reverse_fold, JsMapFacts.get_set_eq.
  destruct (decide (name target ∈ associated_names l)) as [Hin|]; [|done].
  unfold with_reverse. simpl. by rewrite decide_True.
Qed.

Lemma register_get_named target l st a :
  model_associations target = Some l ->
  a ∈ associated_names l ->
  JsMap.get a (associations (_registerAssociations target st).1)
  = Some (with_reverse (name target)
            (JsMap.get a (JsMap.set (name target) (associated_names l)
                            (associations st)))).
Proof.
  intros Hl Ha.
  assert (Hne : associated_names l <> []).
  { intros Hnil. rewrite Hnil in Ha. by apply elem_of_nil in Ha. }
  rewrite (register_run target l st Hl Hne). simpl.
  by rewrite add_reverse_fold, decide_True.
Qed.

(** X11.  A registration builds both directions: when the associations
    of a model name at least one model, the list of the declaring model
    becomes exactly the list of those names, whatever it was; the
    declaring model is in the list of each of them, appended once if it
    was missing; the lists of the other models and the rest of the cache
    object are untouched. *)
Theorem register_both_ways (target : model) (l : list (option string))
    (st : state) :
  model_associations target = Some l ->
  associated_names l <> [] ->
  let names := associated_names l in
  let st' := (_registerAssociations target st).1 in
  (_registerAssociations target st).2 = Ok tt /\
  JsMap.get (name target) (associations st') = Some names /\
  (forall a, a ∈ names -> a <> name target ->
     JsMap.get a (associations st')
     = Some (with_reverse (name target) (JsMap.get a (associations st)))) /\
  (forall a, a ∈ names ->
     exists la, JsMap.get a (associations st') = Some la /\ name target ∈ la) /\
  (forall k, k <> name target -> k ∉ names ->
     JsMap.get k (associations st') = JsMap.get k (associations st)) /\
  cache st' = cache st /\ config st' = config st /\ stats st' = stats st.
Proof.
  intros Hl Hne names st'. subst names st'.
  split_and!.
  - by rewrite (register_run target l st Hl Hne).
  - by apply register_get_self.
  - intros a Ha Hna. rewrite (register_get_named target l st a) by done.
    by rewrite JsMapFacts.get_set_ne.
  - intros a Ha. rewrite (register_get_named target l st a) by done.
    eexists. split; [done|]. apply with_reverse_elem.
  - intros k Hk Hout. rewrite (register_run target l st Hl Hne). simpl.
    rewrite add_reverse_fold, decide_False by done.
    by rewrite JsMapFacts.get_set_ne.
  - by rewrite (register_run target l st Hl Hne).
  - by rewrite (register_run target l st Hl Hne).
  - by rewrite (register_run target l st Hl Hne).
Qed.

Lemma register_both_ways_witness :
  JsMap.get "A"
    (associations
       (_registerAssociations (Model "A" true (Some [Some "B"; None; Some "C"]))
          update_state).1)
  = Some ["B"; "C"].
Proof.
  refine (proj1 (proj2 (register_both_ways
            (Model "A" true (Some [Some "B"; None; Some "C"]))
            [Some "B"; None; Some "C"] update_state eq_refl _))).
  vm_compute. discriminate.
Defined.

(** X12.  Associated models are cleared together: right after a model
    has registered its associations, [clear] on the model empties the
    store of each model it named, and [clear] on any of those empties
    the store of the model, whatever else the association map holds;
    the names reached are taken not to stand for an inherited member of
    [this.cache]. *)
Theorem register_then_clear (fuel : nat) (target : model)
    (l : list (option string)) (other : string) (st : state) :
  model_associations target = Some l ->
  other ∈ associated_names l ->
  let st1 := (_registerAssociations target st).1 in
  (clear_fuel (associations st1) [name target] <= fuel)%nat ->
  (clear_fuel (associations st1) [other] <= fuel)%nat ->
  (forall t, reachable (associations st1) [name target] t -> plain st1 t) ->
  (forall t, reachable (associations st1) [other] t -> plain st1 t) ->
  exists st2 st3,
    clear fuel [name target] st1 = (st2, Ok tt) /\
    JsMap.get (name target) (cache st2)
    = (fun _ => JsMap.empty) <$> JsMap.get (name target) (cache st) /\
    JsMap.get other (cache st2)
    = (fun _ => JsMap.empty) <$> JsMap.get other (cache st) /\
    clear fuel [other] st1 = (st3, Ok tt) /\
    JsMap.get (name target) (cache st3)
    = (fun _ => JsMap.empty) <$> JsMap.get (name target) (cache st) /\
    JsMap.get other (cache st3)
    = (fun _ => JsMap.empty) <$> JsMap.get other (cache st).
Proof.
  intros Hl Hother st1 Hfuel1 Hfuel2 Hplain1 Hplain2.
  assert (Hne : associated_names l <> []).
  { intros Hnil. rewrite Hnil in Hother. by apply elem_of_nil in Hother. }
  assert (Hfwd : JsMap.get (name target) (associations st1)
                 = Some (associated_names l)) by by apply register_get_self.
  assert (Hbwd : exists la, JsMap.get other (associations st1) = Some la /\
                            name target ∈ la).
  { subst st1. rewrite (register_get_named target l st other) by done.
    eexists. split; [done|]. apply with_reverse_elem. }
  assert (Hcache : cache st1 = cache st).
  { subst st1. by rewrite (register_run target l st Hl Hne). }
  destruct Hbwd as (la & Hla & Hin).
  destruct (clear_run fuel [name target] st1 Hfuel1) as (c2 & _ & _ & Hrun2).
  destruct (Hrun2 Hplain1) as (st2 & Hrun2' & Hcl2).
  destruct (clear_run fuel [other] st1 Hfuel2) as (c3 & _ & _ & Hrun3).
  destruct (Hrun3 Hplain2) as (st3 & Hrun3' & Hcl3).
  destruct Hcl2 as (_ & _ & _ & _ & _ & Hin2 & _).
  destruct Hcl3 as (_ & _ & _ & _ & _ & Hin3 & _).
  rewrite <- Hcache.
  exists st2, st3. split_and!; try done.
  - apply Hin2. apply reach_root. left.
  - apply Hin2.
    apply (reach_step _ _ (name target) (associated_names l) other);
      [apply reach_root; left|done|done].
  - apply Hin3.
    apply (reach_step _ _ other la (name target));
      [apply reach_root; left|done|done].
  - apply Hin3. apply reach_root. left.
Qed.

Lemma register_then_clear_witness :
  let st1 :=
    (_registerAssociations (Model "C" true (Some [Some "A"])) update_state).1 in
  exists st2 st3,
    clear 9 ["C"] st1 = (st2, Ok tt) /\
    JsMap.get "C" (cache st2) = Some [] /\
    JsMap.get "A" (cache st2) = Some [] /\
    clear 9 ["A"] st1 = (st3, Ok tt) /\
    JsMap.get "C" (cache st3) = Some [] /\
    JsMap.get "A" (cache st3) = Some [].
Proof.
  assert (Hreach : forall roots t,
            roots ⊆ ["A"; "B"; "C"] ->
            reachable
              (associations
                 (_registerAssociations (Model "C" true (Some [Some "A"]))
                    update_state).1) roots t ->
            t ∈ ["A"; "B"; "C"]).
  { intros roots t Hroots. induction 1 as [t Ht|s l t _ IH Hget Ht];
      [by apply Hroots|].
    vm_compute in Hget.
    repeat (match type of Hget with
            | (if ?d then _ else _) = _ => destruct d
            end); simplify_eq; set_solver. }
  assert (Hplain : forall t, t ∈ ["A"; "B"; "C"] ->
            plain (_registerAssociations (Model "C" true (Some [Some "A"]))
                     update_state).1 t).
  { intros t Ht. left.
    repeat (apply elem_of_cons in Ht as [->|Ht]; [by eexists|]).
    by apply elem_of_nil in Ht. }
  apply (register_then_clear 9 (Model "C" true (Some [Some "A"])) [Some "A"] "A"
           update_state eq_refl).
  - left.
  - vm_compute. lia.
  - vm_compute. lia.
  - intros t Ht. apply Hplain, (Hreach ["C"]); [set_solver|done].
  - intros t Ht. apply Hplain, (Hreach ["A"]); [set_solver|done].
Defined.
(** ** The members of the proxy *)

(** The proxy's own members come first and leave the cache object
    alone. *)
Lemma proxy_get_own fuel target prop st :
  own_member target prop = true ->
  exists m,
    proxy_get fuel target prop st = (st, Ok m) /\
    (m = AssociateWrapper \/ m = NoCache \/ m = ClearCache \/ m = ClearCacheAll).
Proof.
  unfold own_member, proxy_get. intros Hown.
  destruct (bool_decide (prop = "associate") && has_associate target).
  { exists AssociateWrapper. auto. }
  destruct (bool_decide (prop = "noCache")). { exists NoCache. auto. }
  destruct (bool_decide (prop = "clearCache")). { exists ClearCache. auto. }
  destruct (bool_decide (prop = "clearCacheAll")); [|done].
  exists ClearCacheAll. auto 6.
Qed.

(** X13.  What the [get] trap answers.  It yields the caching callable
    exactly for a member of a configured model that is in [methods], not
    in [methodsUpdate] and not one of the proxy's own members: a method
    listed in both lists is never cached.  And it changes the cache
    object only when it clears, that is for a member in [methodsUpdate]
    of a configured model with [clearOnUpdate] that is not one of the
    proxy's own: any other read leaves the cache object as it was, and
    returns a member unless the model has no configuration and yet the
    name of a member of [Object.prototype], in which case every read but
    one of the proxy's own members throws. *)
Theorem proxy_get_classes (fuel : nat) (target : model) (prop : string)
    (st : state) :
  ((exists cf st', proxy_get fuel target prop st = (st', Ok (Fn cf))) <->
   own_member target prop = false /\
   exists cf,
     JsMap.get (name target) (config st) = Some cf /\
     prop ∈ methods cf /\ prop ∉ methodsUpdate cf) /\
  (~ (own_member target prop = false /\
      exists cf,
        JsMap.get (name target) (config st) = Some cf /\
        prop ∈ methodsUpdate cf /\ clearOnUpdate cf = true) ->
   if bool_decide (own_member target prop = false /\
                   JsMap.get (name target) (config st) = None /\
                   name target ∈ object_prototype)
   then proxy_get fuel target prop st = (st, Throw TypeError)
   else exists m, proxy_get fuel target prop st = (st, Ok m)).
Proof.
  destruct (own_member target prop) eqn:Hown.
  { destruct (proxy_get_own fuel target prop st Hown) as (m & Hrun & Hm).
    split.
    - split; [|by intros [? _]].
      intros (cf & st' & Hfn). rewrite Hrun in Hfn.
      injection Hfn as _ ->. by destruct Hm as [?|[?|[?|?]]].
    - intros _. rewrite bool_decide_false by (by intros [? _]). by exists m. }
  destruct (JsMap.get (name target) (config st)) as [cf|] eqn:Hcfg.
  2:{ destruct (decide (name target ∈ object_prototype)) as [Hin|Hni].
      - rewrite (proxy_get_inherited fuel target prop st Hown Hcfg Hin). split.
        + split; [by intros (? & ? & ?)|]. by intros (_ & ? & ? & _).
        + intros _. by rewrite bool_decide_true.
      - rewrite (proxy_get_unconfigured fuel target prop st Hown Hcfg Hni).
        split.
        + split; [by intros (? & ? & ?)|]. by intros (_ & ? & ? & _).
        + intros _. rewrite bool_decide_false by (by intros (_ & _ & ?)).
          by exists Original. }
  rewrite (bool_decide_false (_ /\ _ /\ _)) by (by intros (_ & ? & _)).
  destruct (decide (prop ∈ methodsUpdate cf)) as [Hu|Hu].
  - destruct (clearOnUpdate cf) eqn:Hc.
    + rewrite (proxy_get_update_clear fuel target prop cf st Hown Hcfg Hu Hc).
      split.
      * split.
        -- intros (cf' & st' & Hfn). unfold bind in Hfn.
           by destruct (clear fuel [name target] st) as [st1 [[]|e|]].
        -- intros (_ & cf' & [= <-] & _ & Hnu). done.
      * intros Hno. exfalso. apply Hno. split; [done|]. by exists cf.
    + rewrite (proxy_get_update_keep fuel target prop cf st Hown Hcfg Hu Hc).
      split.
      * split; [by intros (? & ? & ?)|].
        intros (_ & cf' & [= <-] & _ & Hnu). done.
      * intros _. by exists Original.
  - destruct (decide (prop ∈ methods cf)) as [Hm|Hm].
    + rewrite (proxy_get_cacheable fuel target prop cf st Hown Hcfg Hm Hu).
      split.
      * split; [|by exists cf, st]. intros _. split; [done|]. by exists cf.
      * intros _. by exists (Fn cf).
    + rewrite (proxy_get_other fuel target prop cf st Hown Hcfg Hm Hu).
      split.
      * split; [by intros (? & ? & ?)|].
        intros (_ & cf' & [= <-] & Hm' & _). done.
      * intros _. by exists Original.
Qed.
(** ** The constructor and the defaults *)

Lemma configure_from (raw : JsMap.t options_t) (acc : JsMap.t cfg) type :
  JsMap.wf raw ->
  JsMap.get type
    (fold_left (fun acc e => JsMap.set e.1 (with_defaults e.2) acc) raw acc)
  = match JsMap.get type raw with
    | Some o => Some (with_defaults o)
    | None => JsMap.get type acc
    end.
Proof.
  revert acc. induction raw as [|[k o] raw IH]; intros acc Hwf; [done|].
  assert ((k ∉ JsMap.keys raw) /\ JsMap.wf raw) as [Hout Hwf'].
  { unfold JsMap.wf, JsMap.keys in *. simpl in Hwf. by apply NoDup_cons. }
  simpl. rewrite IH by done. unfold JsMap.get at 3. simpl.
  destruct (decide (type = k)) as [->|Hne].
  - rewrite (proj2 (JsMapFacts.get_None k raw) Hout).
    by rewrite JsMapFacts.get_set_eq.
  - fold (JsMap.get type raw). destruct (JsMap.get type raw); [done|].
    by rewrite JsMapFacts.get_set_ne.
Qed.

(** The configuration of a model is what was given for it, with the
    defaults for what was left out. *)
Lemma configure_get (raw : JsMap.t options_t) type :
  JsMap.wf raw ->
  JsMap.get type (configure raw) = with_defaults <$> JsMap.get type raw.
Proof.
  intros Hwf. unfold configure. rewrite configure_from by done.
  by destruct (JsMap.get type raw).
Qed.

Lemma default_methods_plain :
  Forall (fun prop =>
            bool_decide (prop = "associate") = false /\
            bool_decide (prop = "noCache") = false /\
            bool_decide (prop = "clearCache") = false /\
            bool_decide (prop = "clearCacheAll") = false /\
            prop ∉ methodsUpdate defaults)
    (methods defaults).
Proof. apply (bool_decide_unpack _). vm_compute. exact I. Qed.

Lemma default_updates_plain :
  Forall (fun prop =>
            bool_decide (prop = "associate") = false /\
            bool_decide (prop = "noCache") = false /\
            bool_decide (prop = "clearCache") = false /\
            bool_decide (prop = "clearCacheAll") = false)
    (methodsUpdate defaults).
Proof. apply (bool_decide_unpack _). vm_compute. exact I. Qed.

(** X14.  Under the default lists: for a model whose options leave out
    [methods] and [methodsUpdate], each of the thirteen default read
    methods is answered by the caching callable, and reading any of the
    ten default updating methods, unless [clearOnUpdate] was given as
    [false], empties the stores of the model and of the models reachable
    from it and leaves the others alone (the names reached being taken
    not to stand for an inherited member of [this.cache]). *)
Theorem default_methods_classified (raw : JsMap.t options_t) (o : options_t)
    (fuel : nat) (target : model) (st : state) :
  JsMap.wf raw ->
  JsMap.get (name target) raw = Some o ->
  o_methods o = None -> o_methodsUpdate o = None ->
  config st = config (constructor raw) ->
  (forall prop, prop ∈ methods defaults ->
     proxy_get fuel target prop st = (st, Ok (Fn (with_defaults o)))) /\
  (forall prop, prop ∈ methodsUpdate defaults ->
     o_clearOnUpdate o <> Some false ->
     (clear_fuel (associations st) [name target] <= fuel)%nat ->
     (forall t, reachable (associations st) [name target] t -> plain st t) ->
     exists st',
       proxy_get fuel target prop st = (st', Ok Original) /\
       cleared (reachable (associations st) [name target]) st st').
Proof.
  intros Hwf Hraw Hm Hu Hcfg.
  assert (Hget : JsMap.get (name target) (config st) = Some (with_defaults o)).
  { rewrite Hcfg. simpl. by rewrite configure_get, Hraw. }
  assert (Hms : methods (with_defaults o) = methods defaults).
  { unfold with_defaults. simpl. by rewrite Hm. }
  assert (Hus : methodsUpdate (with_defaults o) = methodsUpdate defaults).
  { unfold with_defaults. simpl. by rewrite Hu. }
  split.
  - intros prop Hprop.
    pose proof (proj1 (Forall_forall _ _) default_methods_plain prop Hprop)
      as (H1 & H2 & H3 & H4 & H5).
    apply proxy_get_cacheable; [|done| |].
    + unfold own_member. by rewrite H1, H2, H3, H4.
    + by rewrite Hms.
    + by rewrite Hus.
  - intros prop Hprop Hclear Hfuel Hplain.
    pose proof (proj1 (Forall_forall _ _) default_updates_plain prop Hprop)
      as (H1 & H2 & H3 & H4).
    destruct (clear_run fuel [name target] st Hfuel) as (c & _ & _ & Hrun).
    destruct (Hrun Hplain) as (st' & Hrun' & Hcleared).
    exists st'. split; [|done].
    rewrite (proxy_get_update_clear fuel target prop (with_defaults o)).
    + unfold bind. by rewrite Hrun'.
    + unfold own_member. by rewrite H1, H2, H3, H4.
    + done.
    + by rewrite Hus.
    + unfold with_defaults. simpl.
      destruct (o_clearOnUpdate o) as [[]|]; done.
Qed.

Lemma default_methods_classified_witness :
  let st := constructor [("Page", Options None None None None None)] in
  proxy_get 0 (Model "Page" true None) "findByPk" st
  = (st, Ok (Fn (with_defaults (Options None None None None None)))) /\
  exists st',
    proxy_get 1 (Model "Page" true None) "destroy" st = (st', Ok Original) /\
    cleared (reachable (associations st) ["Page"]) st st'.
Proof.
  intros st.
  pose proof (default_methods_classified
                [("Page", Options None None None None None)]
                (Options None None None None None)) as H.
  split.
  - refine (proj1 (H 0%nat (Model "Page" true None) st _
                     eq_refl eq_refl eq_refl eq_refl) "findByPk" _).
    + solve_wf.
    + right. right. left.
  - refine (proj2 (H 1%nat (Model "Page" true None) st _
                     eq_refl eq_refl eq_refl eq_refl) "destroy" _ _ _ _).
    + solve_wf.
    + right. right. right. left.
    + discriminate.
    + vm_compute. lia.
    + intros t Ht. right. induction Ht as [t Ht|s l t _ _ Hget _].
      * apply list_elem_of_singleton in Ht as ->.
        intros [Hin|[[c Hc] _]]; [|discriminate Hc].
        revert Hin. apply (bool_decide_unpack _). vm_compute. exact I.
      * discriminate Hget.
Defined.

Lemma init_unconfigured target st :
  JsMap.get (name target) (config st) = None ->
  name target ∉ object_prototype ->
  init target st = (st, Ok tt).
Proof.
  intros Hcfg Hni. unfold init. rewrite (config_slot_absent _ _ Hcfg Hni).
  by destruct st.
Qed.

(** A name of a member of [Object.prototype] never meets the accessor
    of [Map.prototype]. *)
Lemma cache_slot_object_prototype type st :
  type ∈ object_prototype -> exists sl, cache_slot type st = Ok sl.
Proof.
  intros Hin. unfold cache_slot.
  destruct (JsMap.get type (cache st)); [by eexists|].
  destruct (JsMap.has "__proto__" (cache st)).
  - rewrite bool_decide_false.
    + rewrite bool_decide_true by (apply elem_of_app; by right). by eexists.
    + intros ->. revert Hin. apply (bool_decide_unpack _). vm_compute. exact I.
  - rewrite bool_decide_true by done. by eexists.
Qed.

Lemma init_inherited target st :
  JsMap.get (name target) (config st) = None ->
  name target ∈ object_prototype ->
  init target st
  = (with_cache (JsMap.set (name target) JsMap.empty (cache st)) st, Ok tt).
Proof.
  intros Hcfg Hin. unfold init. rewrite (config_slot_inherited _ _ Hcfg Hin).
  unfold bind, assign_store.
  destruct (cache_slot_object_prototype (name target) st Hin) as [sl ->].
  by destruct st.
Qed.

(** X15.  A model without configuration: [init] returns.  Unless the
    model is named like a member of [Object.prototype], the cache object
    is left as it was and reading any member but the proxy's own gives
    the original member.  If it is so named, [this.config[type]] is that
    member, which is truthy: [init] gives the model an empty store, and
    afterwards reading any member but the proxy's own throws. *)
Theorem unconfigured_pass_through (fuel : nat) (target : model)
    (prop : string) (st : state) :
  JsMap.get (name target) (config st) = None ->
  own_member target prop = false ->
  exists st',
    init target st = (st', Ok tt) /\
    (name target ∉ object_prototype ->
     st' = st /\ proxy_get fuel target prop st' = (st', Ok Original)) /\
    (name target ∈ object_prototype ->
     config st' = config st /\
     cache st' = JsMap.set (name target) JsMap.empty (cache st) /\
     proxy_get fuel target prop st' = (st', Throw TypeError)).
Proof.
  intros Hcfg Hown.
  destruct (decide (name target ∈ object_prototype)) as [Hin|Hni].
  - eexists. split; [by apply init_inherited|]. split; [done|].
    intros _. split_and!; [done|done|]. by apply proxy_get_inherited.
  - exists st. split; [by apply init_unconfigured|]. split; [|done].
    intros _. split; [done|]. by apply proxy_get_unconfigured.
Qed.

Lemma unconfigured_pass_through_witness :
  (init (Model "Order" true None) user_state = (user_state, Ok tt) /\
   proxy_get 0 (Model "Order" true None) "findAll" user_state
   = (user_state, Ok Original)) /\
  exists st',
    init (Model "toString" true None) user_state = (st', Ok tt) /\
    JsMap.get "toString" (cache st') = Some [] /\
    proxy_get 0 (Model "toString" true None) "findAll" st'
    = (st', Throw TypeError).
Proof.
  split.
  - destruct (unconfigured_pass_through 0 (Model "Order" true None) "findAll"
                user_state eq_refl eq_refl) as (st' & Hinit & Hplain & _).
    destruct Hplain as [-> Hget].
    + apply (bool_decide_unpack _). vm_compute. exact I.
    + by split.
  - destruct (unconfigured_pass_through 0 (Model "toString" true None)
                "findAll" user_state eq_refl eq_refl)
      as (st' & Hinit & _ & Hinh).
    destruct Hinh as (_ & Hcache & Hget).
    + apply (bool_decide_unpack _). vm_compute. exact I.
    + exists st'. split; [exact Hinit|]. split; [|exact Hget].
      rewrite Hcache. reflexivity.
Defined.
(** ** The life of a cache object *)

Lemma purge_store_shrinks_gen now limit (m : store) :
  JsMap.wf m -> m <> [] -> limit < Z.of_nat (length m) ->
  (length (purge_store now limit m).1 < length m)%nat.
Proof.
  intros Hwf Hne Hover.
  assert (0 < length m)%nat by (destruct m; [done | simpl; lia]).
  pose proof (length_filter (fun e => is_expired now (expires e.2) = false) m)
    as Hk. fold (kept now m) in Hk.
  destruct (decide (kept now m = [])) as [Hnil|Hkne].
  { by rewrite (purge_store_none now limit m Hwf Hnil). }
  destruct (Z.le_gt_cases (Z.of_nat (length (kept now m))) limit) as [Hle|Hgt].
  - rewrite purge_store_under by done. simpl. lia.
  - destruct (purge_store_over now limit m Hwf) as (a & h & it & b & Hkm & _ & _ & Hr);
      [lia|done|].
    rewrite Hr. simpl. rewrite Hkm in Hk.
    rewrite length_app in *. simpl in Hk. lia.
Qed.

Lemma set_set {V} k (v1 v2 : V) (m : JsMap.t V) :
  JsMap.set k v1 (JsMap.set k v2 m) = JsMap.set k v1 m.
Proof.
  induction m as [|[k' v'] m IH]; simpl.
  - by rewrite decide_True.
  - destruct (decide (k = k')); simpl.
    + by rewrite decide_True.
    + rewrite decide_False by done. by rewrite IH.
Qed.

Lemma invariant_same cfgs st st' :
  cache st' = cache st -> config st' = config st ->
  invariant cfgs st -> invariant cfgs st'.
Proof.
  intros Hc Hcf (H1 & H2 & H3 & H4). unfold invariant. split_and!.
  - congruence.
  - by apply (state_ok_same_cache st).
  - intros type c. rewrite Hc, Hcf. apply H3.
  - intros type cf. unfold store_of. rewrite Hc, Hcf. apply H4.
Qed.

Lemma invariant_store cfgs type c st :
  invariant cfgs st -> store_wf c ->
  is_Some (JsMap.get type (config st)) \/ type ∈ object_prototype ->
  (forall cf, JsMap.get type (config st) = Some cf ->
              Z.of_nat (JsMap.size c) <= Z.max 0 (limit cf)) ->
  invariant cfgs (with_cache (JsMap.set type c (cache st)) st).
Proof.
  intros (H1 & H2 & H3 & H4) Hc Hcf Hsize. unfold invariant. split_and!.
  - done.
  - by apply state_ok_set.
  - intros t c'. simpl. rewrite JsMapFacts.get_set.
    destruct (decide (type = t)) as [<-|]; [done | apply H3].
  - intros t cf' Hcf'. simpl in Hcf'.
    destruct (decide (type = t)) as [<-|Hne].
    + rewrite store_of_set. by apply Hsize.
    + rewrite store_of_set_ne by done. by apply H4.
Qed.

Lemma invariant_set cfgs type c cf st :
  invariant cfgs st -> store_wf c ->
  JsMap.get type (config st) = Some cf ->
  Z.of_nat (JsMap.size c) <= Z.max 0 (limit cf) ->
  invariant cfgs (with_cache (JsMap.set type c (cache st)) st).
Proof.
  intros Hinv Hc Hcf Hsize. apply invariant_store; [done|done| |].
  - left. by eexists.
  - intros cf' Hcf'. congruence.
Qed.

Lemma invariant_new raw : invariant (configure raw) (constructor raw).
Proof.
  unfold invariant, constructor. simpl. split_and!; [done| | |].
  - apply state_ok_created.
  - intros type c Hc. done.
  - intros type cf _. unfold store_of. simpl. lia.
Qed.

Lemma forEach_invariant {A} cfgs (f : A -> M unit) l st :
  (forall a st, invariant cfgs st -> invariant cfgs (f a st).1) ->
  invariant cfgs st -> invariant cfgs (forEach f l st).1.
Proof. apply (forEach_preserves (invariant cfgs)). Qed.

Lemma invariant_clear_type cfgs type st :
  invariant cfgs st -> invariant cfgs (clear_type type st).1.
Proof.
  intros Hinv. unfold clear_type, cache_slot.
  destruct (JsMap.get type (cache st)) as [c|] eqn:Hc;
    [|by repeat (match goal with
                 | |- context [if ?b then _ else _] => destruct b
                 end)].
  simpl.
  apply invariant_store; [done|apply store_wf_empty| |].
  - by apply (proj1 (proj2 (proj2 Hinv)) type c Hc).
  - intros cf _. simpl. lia.
Qed.

Lemma invariant_clear cfgs fuel modelNames st :
  invariant cfgs st -> invariant cfgs (clear fuel modelNames st).1.
Proof.
  intros Hinv. unfold clear. destruct (clear_loop _ _ _ _ _); [|done].
  apply forEach_invariant; [|done]. intros type st'. apply invariant_clear_type.
Qed.

Lemma invariant_purge_type cfgs now type st :
  invariant cfgs st -> invariant cfgs (purge_type now type st).1.
Proof.
  intros Hinv. pose proof Hinv as (H1 & H2 & H3 & H4).
  unfold purge_type, cache_slot.
  destruct (JsMap.get type (cache st)) as [c|] eqn:Hc;
    [|by repeat (match goal with
                 | |- context [if ?b then _ else _] => destruct b
                 end)].
  assert (Hcwf : store_wf c) by by apply (proj2 H2 type).
  assert (Hscan : invariant cfgs
            (with_cache
               (JsMap.set type (s_cache (purge_scan now c)) (cache st)) st)).
  { apply invariant_store; [done|by apply purge_scan_wf|by apply (H3 type c)|].
    intros cf Hcf. specialize (H4 type cf Hcf).
    unfold store_of in H4. rewrite Hc in H4. simpl in H4.
    rewrite (purge_scan_spec now c (proj1 Hcwf)). simpl.
    pose proof (length_filter
                  (fun e : string * item => is_expired now (expires e.2) = false)
                  c) as Hlen.
    unfold JsMap.size, kept in *. lia. }
  unfold config_slot.
  destruct (JsMap.get type (config st)) as [cf|] eqn:Hcf;
    [|destruct (bool_decide (type ∈ object_prototype));
      [by apply (invariant_same cfgs
                   (with_cache
                      (JsMap.set type (s_cache (purge_scan now c)) (cache st)) st))
      |by apply (invariant_same cfgs
                   (with_cache
                      (JsMap.set type (s_cache (purge_scan now c)) (cache st)) st))]].
  pose proof (purge_evict_wf (limit cf) _ (purge_scan_wf now c Hcwf)) as Hev.
  pose proof (purge_store_length now (limit cf) c (proj1 Hcwf)) as Hlen.
  unfold purge_store in Hlen.
  destruct (purge_evict _ _) as [c' n]. simpl in *.
  apply (invariant_same cfgs (with_cache (JsMap.set type c' (cache st)) st));
    [done|done|].
  apply (invariant_set cfgs type c' cf); [done|done|done|].
  specialize (H4 type cf Hcf). unfold store_of in H4. rewrite Hc in H4.
  simpl in H4. unfold JsMap.size in *. lia.
Qed.

Lemma invariant_purge cfgs now modelNames st :
  invariant cfgs st -> invariant cfgs (purge now modelNames st).1.
Proof.
  intros Hinv. unfold purge.
  apply forEach_invariant; [|done]. intros type st'. apply invariant_purge_type.
Qed.

Lemma invariant_init cfgs target st :
  invariant cfgs st -> invariant cfgs (init target st).1.
Proof.
  intros Hinv.
  assert (Hassign :
            config_slot (name target) st <> Absent ->
            invariant cfgs (assign_store (name target) st).1).
  { intros Hslot. unfold assign_store.
    destruct (cache_slot _ st) as [sl|e|]; [|done|done]. simpl.
    apply invariant_store; [done|apply store_wf_empty| |].
    - unfold config_slot in Hslot.
      destruct (JsMap.get (name target) (config st)); [left; by eexists|].
      right. by destruct (decide (name target ∈ object_prototype)) as [|Hni];
        [|rewrite bool_decide_false in Hslot].
    - intros cf _. simpl. lia. }
  unfold init, bind.
  destruct (config_slot (name target) st) eqn:Hslot.
  - specialize (Hassign ltac:(done)).
    by destruct (assign_store _ st) as [st1 [[]|e|]].
  - specialize (Hassign ltac:(done)).
    by destruct (assign_store _ st) as [st1 [[]|e|]].
  - by apply (invariant_same cfgs st).
Qed.

Lemma invariant_proxy_get cfgs fuel target prop st :
  invariant cfgs st -> invariant cfgs (proxy_get fuel target prop st).1.
Proof.
  intros Hinv. unfold proxy_get.
  repeat (match goal with |- context [if ?b then _ else _] => destruct b end;
          try done).
  destruct (config_slot _ st) as [cf| |]; [|done|done].
  repeat (match goal with |- context [if ?b then _ else _] => destruct b end;
          try done).
  unfold bind.
  pose proof (invariant_clear cfgs fuel [name target] st Hinv) as Hc.
  by destruct (clear fuel [name target] st) as [st' [[]|e|]].
Qed.

Lemma fn_config inspect md5_hex type prop now args r st :
  config (fn inspect md5_hex type prop now args r st).1 = config st.
Proof.
  unfold fn, bind. destruct (withinTxn args) as [w|e|]; [|done|done].
  destruct (truthy w).
  - unfold call_target, bind, modify. by destruct r.
  - simpl. destruct (JsMap.get _ (store_of type st)) as [[d e]|].
    + destruct (is_live now e); [done|].
      unfold call_target, bind, modify, log. by destruct r.
    + unfold call_target, bind, modify, log. by destruct r.
Qed.

Lemma invariant_register cfgs target st :
  invariant cfgs st -> invariant cfgs (_registerAssociations target st).1.
Proof.
  intros Hinv. unfold _registerAssociations.
  destruct (model_associations target) as [l|]; [|done].
  destruct (associated_names l); [done|].
  by apply (invariant_same cfgs st).
Qed.

Lemma invariant_fn_then cfgs type cf hash now now' data st :
  JsMap.get type (config st) = Some cf -> 0 <= now ->
  invariant cfgs st -> invariant cfgs (fn_then type cf hash now now' data st).1.
Proof.
  intros Hcf Hnow Hinv. pose proof Hinv as (H1 & H2 & H3 & H4).
  destruct (nullish data) eqn:Hn.
  { unfold fn_then. by rewrite Hn. }
  rewrite fn_then_run by done.
  set (stored := JsMap.set hash _ (store_of type st)).
  set (loaded := with_stats _ (with_cache (JsMap.set type stored (cache st)) st)).
  assert (Hswf : store_wf stored).
  { apply store_wf_set; [by apply expires_at_nonzero|].
    by apply state_ok_store_of. }
  pose proof (length_set hash (Item data (expires_at (ttl cf) now))
                (store_of type st)) as Hlen. fold stored in Hlen.
  pose proof (H4 type cf Hcf) as Hb. unfold JsMap.size in *.
  destruct (Z.gtb_spec (Z.of_nat (length stored)) (limit cf)) as [Hgt|Hle].
  - assert (Hget : JsMap.get type (cache loaded) = Some stored).
    { unfold loaded. simpl. by rewrite JsMapFacts.get_set_eq. }
    unfold bind. rewrite (purge_one now' type loaded stored cf Hget Hcf). simpl.
    set (c' := (purge_store now' (limit cf) stored).1).
    apply (invariant_same cfgs
             (with_cache (JsMap.set type c' (cache st)) st)); [|done|].
    + simpl. apply set_set.
    + apply (invariant_set cfgs type c' cf); [done| |done|].
      * apply (store_wf_sublist _ stored); [|done].
        apply purge_store_sublist, Hswf.
      * assert (stored <> []) as Hne.
        { intros Hnil. pose proof (JsMapFacts.get_set_eq hash
            (Item data (expires_at (ttl cf) now)) (store_of type st)) as Hg.
          fold stored in Hg. by rewrite Hnil in Hg. }
        pose proof (purge_store_shrinks_gen now' (limit cf) stored
                      (proj1 Hswf) Hne Hgt).
        unfold JsMap.size. fold c' in H. lia.
  - simpl.
    apply (invariant_same cfgs
             (with_cache (JsMap.set type stored (cache st)) st)); [done|done|].
    apply (invariant_set cfgs type stored cf); [done|done|done|].
    unfold JsMap.size. lia.
Qed.

Lemma invariant_step cfgs st st' :
  step st st' -> invariant cfgs st -> invariant cfgs st'.
Proof.
  intros Hstep Hinv. destruct Hstep.
  - by apply invariant_init.
  - by apply invariant_proxy_get.
  - apply (invariant_same cfgs st); [apply fn_cache|apply fn_config|done].
  - by apply invariant_fn_then.
  - by apply invariant_clear.
  - by apply invariant_purge.
  - by apply invariant_register.
Qed.

Lemma reachable_holds raw st :
  reachable_state raw st -> invariant (configure raw) st.
Proof.
  induction 1 as [|st st' _ IH Hstep].
  - apply invariant_new.
  - by apply (invariant_step (configure raw) st st').
Qed.

(** X16.  What a cache object keeps through its life, whatever is done
    with it: the configuration is the one the constructor built; every
    store is a [Map] with distinct keys no entry of which carries the
    timestamp 0; every store belongs to a model for which
    [this.config[type]] is truthy (a configured model, or one named like
    a member of [Object.prototype]); and no store of a configured model
    holds more entries than its [limit]. *)
Theorem reachable_invariant (raw : JsMap.t options_t) (st : state) :
  reachable_state raw st ->
  config st = configure raw /\ state_ok st /\ configured st /\ bounded st.
Proof. apply reachable_holds. Qed.

Lemma reachable_invariant_witness :
  let raw := [("User", Options (Some (TtlNum 5)) None None (Some 2) None)] in
  let st :=
    (fn_then "User"
       (with_defaults (Options (Some (TtlNum 5)) None None (Some 2) None))
       "h" 100 101 (VNum 1)
       (init (Model "toString" true None)
          (init (Model "User" true None) (constructor raw)).1).1).1 in
  JsMap.keys (cache st) = ["User"; "toString"] /\
  config st = configure raw /\ state_ok st /\ configured st /\ bounded st.
Proof.
  split; [reflexivity|].
  refine (reachable_invariant
    [("User", Options (Some (TtlNum 5)) None None (Some 2) None)] _ _).
  eapply reachable_step;
    [eapply reachable_step; [eapply reachable_step; [apply reachable_new|]|]|].
  - apply step_init.
  - apply step_init.
  - apply step_then; [reflexivity | lia].
Defined.


(** ** Storing and looking up *)

(** X18.  Storing and the rest of the store: when the callback of
    [promise.then] stores a value without the purge being triggered, the
    entry of the hash is the value with its expiry, every other hash
    keeps its entry, and the keys keep their order; the store grows, by
    one entry at its end, only if the hash was not there, a stale entry
    being replaced where it stands. *)
Theorem fn_then_round_trip (type : string) (cf : cfg) (hash : string)
    (now now' : Z) (data : value) (st : state) :
  nullish data = false ->
  let it := Item data (expires_at (ttl cf) now) in
  Z.of_nat (JsMap.size (JsMap.set hash it (store_of type st))) <= limit cf ->
  let c := store_of type st in
  let c' := store_of type (fn_then type cf hash now now' data st).1 in
  JsMap.get hash c' = Some it /\
  (forall h, h <> hash -> JsMap.get h c' = JsMap.get h c) /\
  (JsMap.get hash c <> None -> JsMap.keys c' = JsMap.keys c) /\
  (JsMap.get hash c = None -> c' = c ++ [(hash, it)]).
Proof.
  intros Hn it Hsize c c'.
  assert (Hc' : c' = JsMap.set hash it c).
  { subst c'. rewrite fn_then_no_purge by done.
    unfold store_of at 1. simpl. by rewrite JsMapFacts.get_set_eq. }
  rewrite Hc'. split_and!.
  - apply JsMapFacts.get_set_eq.
  - intros h Hne. by apply JsMapFacts.get_set_ne.
  - intros Hsome. destruct (JsMap.get hash c) as [v0|] eqn:Hget; [|done].
    by apply (keys_set_Some hash it v0).
  - intros Hnone. apply JsMapFacts.keys_set_fresh.
    by apply JsMapFacts.get_None.
Qed.

Lemma fn_then_round_trip_witness :
  JsMap.get "#User.findOne/_"
    (store_of "User"
       (fn_then "User" user_cfg "#User.findOne/_" 9000 9001 (VNum 8)
          user_state).1)
  = Some (Item (VNum 8) (ENum 14000)).
Proof.
  refine (proj1 (fn_then_round_trip "User" user_cfg "#User.findOne/_" 9000 9001
                   (VNum 8) user_state eq_refl _)).
  vm_compute. discriminate.
Defined.

(** ** The constructor *)

Lemma configure_keys (raw : JsMap.t options_t) (acc : JsMap.t cfg) :
  JsMap.wf raw ->
  (forall k, k ∈ JsMap.keys raw -> k ∉ JsMap.keys acc) ->
  JsMap.keys
    (fold_left (fun acc e => JsMap.set e.1 (with_defaults e.2) acc) raw acc)
  = JsMap.keys acc ++ JsMap.keys raw.
Proof.
  revert acc. induction raw as [|[k o] raw IH]; intros acc Hwf Hfresh.
  - simpl. change (JsMap.keys (@nil (string * options_t))) with (@nil string).
    by rewrite app_nil_r.
  - assert ((k ∉ JsMap.keys raw) /\ JsMap.wf raw) as [Hout Hwf'].
    { unfold JsMap.wf, JsMap.keys in *. simpl in Hwf. by apply NoDup_cons. }
    assert (Hk : k ∉ JsMap.keys acc).
    { apply Hfresh. unfold JsMap.keys. simpl. left. }
    simpl. rewrite IH; [|done|].
    + rewrite (JsMapFacts.keys_set_fresh k _ acc Hk), JsMapFacts.keys_app.
      unfold JsMap.keys. simpl. by rewrite <- app_assoc.
    + intros k0 Hk0. rewrite (JsMapFacts.keys_set_fresh k _ acc Hk).
      rewrite JsMapFacts.keys_app. intros [Hin|Hin]%elem_of_app.
      * apply (Hfresh k0); [|done]. unfold JsMap.keys. simpl. by right.
      * unfold JsMap.keys in Hin. simpl in Hin.
        apply list_elem_of_singleton in Hin. by subst.
Qed.

(** X19.  What the constructor builds, and what the first [init] finds:
    the configured models are the models given, in the order given, and
    the configuration of each is what was given for it, the defaults
    standing for what was left out; there is no store yet, so [size()]
    is 0; [init] of a model that was given options returns and creates
    the first store, an empty one, while [init] of any other model whose
    name is not that of a member of [Object.prototype] leaves the object
    as the constructor built it. *)
Theorem constructor_spec (raw : JsMap.t options_t) :
  JsMap.wf raw ->
  let st := constructor raw in
  JsMap.keys (config st) = JsMap.keys raw /\
  (forall type, JsMap.get type (config st) = with_defaults <$> JsMap.get type raw) /\
  size [] st = Ok (Num 0) /\
  (forall target,
     is_Some (JsMap.get (name target) raw) ->
     init target st = (with_cache [(name target, [])] st, Ok tt)) /\
  (forall target,
     JsMap.get (name target) raw = None -> name target ∉ object_prototype ->
     init target st = (st, Ok tt)).
Proof.
  intros Hwf st.
  assert (Hget : forall type,
            JsMap.get type (config st) = with_defaults <$> JsMap.get type raw)
    by (intros type; by apply configure_get).
  split_and!; try done.
  - unfold st, constructor, configure. simpl.
    rewrite configure_keys; [done|done|].
    intros k _ Hk. by apply elem_of_nil in Hk.
  - intros target [o Ho]. unfold init.
    rewrite (config_slot_own _ _ (with_defaults o)) by (by rewrite Hget, Ho).
    unfold bind, assign_store, cache_slot. simpl.
    by destruct (bool_decide (name target ∈ object_prototype)).
  - intros target Hnone Hni. apply init_unconfigured; [|done].
    by rewrite Hget, Hnone.
Qed.

Lemma constructor_spec_witness :
  let raw := [("User", Options (Some (TtlNum 300)) None None None None);
              ("Page", Options None None None (Some 30) None)] in
  JsMap.get "Page" (config (constructor raw))
  = Some (Cfg (TtlNum 3600) (methods defaults) (methodsUpdate defaults) 30 true) /\
  init (Model "Page" false None) (constructor raw)
  = (with_cache [("Page", [])] (constructor raw), Ok tt) /\
  init (Model "Order" false None) (constructor raw) = (constructor raw, Ok tt).
Proof.
  intros raw.
  destruct (constructor_spec raw) as (_ & Hget & _ & Hinit & Hnone); [solve_wf|].
  split; [exact (Hget "Page")|]. split.
  - apply (Hinit (Model "Page" false None)). by eexists.
  - apply (Hnone (Model "Order" false None)); [reflexivity|].
    apply (bool_decide_unpack _). vm_compute. exact I.
Defined.
(** ** Names that meet the prototype chain *)

Lemma clear_type_inherited type st :
  JsMap.get type (cache st) = None -> inherits st type ->
  clear_type type st = (st, Throw TypeError).
Proof.
  intros Hget Hin. unfold clear_type.
  by destruct (cache_slot_inherited type st Hget Hin) as [-> | ->].
Qed.

Lemma purge_type_inherited now type st :
  JsMap.get type (cache st) = None -> inherits st type ->
  purge_type now type st = (st, Throw TypeError).
Proof.
  intros Hget Hin. unfold purge_type.
  by destruct (cache_slot_inherited type st Hget Hin) as [-> | ->].
Qed.

Lemma forEach_clear_throw (pre post : list string) t st :
  (forall u, u ∈ pre -> plain st u) ->
  JsMap.get t (cache st) = None -> inherits st t ->
  exists st',
    forEach clear_type (pre ++ t :: post) st = (st', Throw TypeError) /\
    cleared (fun u => u ∈ pre) st st'.
Proof.
  intros Hpre Hget Hin.
  destruct (forEach_clear_type pre st Hpre) as (st' & Hrun & Hcl).
  exists st'. split; [|done].
  assert (Hthrow : clear_type t st' = (st', Throw TypeError)).
  { apply clear_type_inherited.
    - destruct (JsMap.get t (cache st')) eqn:Hget'; [|done].
      assert (is_Some (JsMap.get t (cache st))) as [? ?]; [|congruence].
      apply (cleared_is_Some _ st st' t Hcl). by eexists.
    - by apply (cleared_inherits _ st st' t Hcl). }
  clear Hcl Hpre Hget Hin. revert st Hrun.
  induction pre as [|u pre IH]; intros st Hrun; simpl in *.
  - injection Hrun as ->. unfold bind. by rewrite Hthrow.
  - unfold bind in *. destruct (clear_type u st) as [st1 [[]|e|]]; [|done|done].
    by apply IH.
Qed.

(** X20.  [clear] and a name that meets the prototype chain: when the
    closure holds a name that has no store and is that of a member
    [this.cache] inherits ([constructor], [toString], ...),
    [this.cache[type]] is truthy and has no [clear], and [clear] throws
    a [TypeError] at the first such name; by then the stores of the
    types visited before it have been emptied, and all the other stores
    are left as they were. *)
Theorem clear_inherited_throws (fuel : nat) (modelNames roots : list string)
    (st : state) (c : closure) (pre post : list string) (t : string) :
  (modelNames <> [] -> roots = modelNames) ->
  (modelNames = [] ->
   roots = filter (fun type => type ≠ "__proto__") (JsMap.keys (cache st))) ->
  clear_loop (associations st) fuel roots ∅ (Closure [] []) = Some c ->
  typesToClear c = pre ++ t :: post ->
  (forall u, u ∈ pre -> plain st u) ->
  JsMap.get t (cache st) = None -> inherits st t ->
  exists st',
    clear fuel modelNames st = (st', Throw TypeError) /\
    cleared (fun u => u ∈ pre) st st'.
Proof.
  intros Hne Hnil Hloop Htc Hpre Hget Hin.
  rewrite <- (types_of_roots modelNames roots st Hne Hnil) in Hloop.
  unfold clear. rewrite Hloop, Htc. by apply forEach_clear_throw.
Qed.

Lemma clear_inherited_throws_witness :
  clear 7 ["D"; "toString"; "A"] cycle_state
  = (with_cache
       [("A", [("h1", Item (VNum 1) EFalse)]);
        ("B", [("h2", Item (VNum 2) EFalse)]);
        ("C", [("h3", Item (VNum 3) EFalse)]);
        ("D", [])]
       cycle_state,
     Throw TypeError).
Proof.
  destruct (clear_inherited_throws 7 ["D"; "toString"; "A"]
              ["D"; "toString"; "A"] cycle_state
              (Closure ["D"; "toString"; "A"; "B"; "C"]
                 ["D"; "toString"; "A"; "B"; "C"])
              ["D"] ["A"; "B"; "C"] "toString")
    as (st' & Hrun & Hcl).
  - reflexivity.
  - discriminate.
  - reflexivity.
  - reflexivity.
  - intros u ->%list_elem_of_singleton. left. by eexists.
  - reflexivity.
  - left. apply (bool_decide_unpack _). vm_compute. exact I.
  - rewrite Hrun. vm_compute in Hrun. by injection Hrun as <-.
Defined.

Lemma fold_size_inherited st (l : list string) type acc :
  type ∈ l -> cache_slot type st = Ok Inherited ->
  fold_left (size_add st) l acc = NaN.
Proof.
  intros Hin Hslot. revert acc.
  induction l as [|t l IH]; intros acc; [by apply elem_of_nil in Hin|].
  cbn [fold_left]. destruct (decide (t = type)) as [->|Hne].
  - assert (size_add st acc type = NaN) as ->
      by (unfold size_add; rewrite Hslot; by destruct acc).
    apply fold_size_NaN.
  - apply IH. by apply elem_of_cons in Hin as [?|?].
Qed.

Lemma cache_slot_returns type st :
  JsMap.get "__proto__" (cache st) = None ->
  exists sl, cache_slot type st = Ok sl.
Proof.
  intros Hp. unfold cache_slot, JsMap.has. rewrite Hp.
  destruct (JsMap.get type (cache st)); [by eexists|].
  destruct (bool_decide (type ∈ object_prototype)); by eexists.
Qed.

(** X21.  [purge] and [size] on a name that meets the prototype chain:
    for a name of a member of [Object.prototype] under which there is no
    store, [purge] throws a [TypeError] when it comes to it, and [size]
    of any list that holds the name is [NaN] (here for an object whose
    prototype has not been replaced). *)
Theorem inherited_name_purge_size (now : Z) (type : string)
    (post names : list string) (st : state) :
  type ∈ object_prototype ->
  JsMap.get type (cache st) = None ->
  JsMap.get "__proto__" (cache st) = None ->
  type ∈ names ->
  purge now (type :: post) st = (st, Throw TypeError) /\
  size names st = Ok NaN.
Proof.
  intros Hin Hget Hp Hnames.
  assert (Hslot : cache_slot type st = Ok Inherited).
  { unfold cache_slot, JsMap.has. rewrite Hget, Hp.
    by rewrite bool_decide_true. }
  split.
  - unfold purge. simpl. unfold bind.
    rewrite purge_type_inherited; [done|done|by left].
  - unfold size.
    assert (types_of names st = names) as ->.
    { destruct names; [by apply elem_of_nil in Hnames | done]. }
    destruct (List.find _ names) as [t|] eqn:Hfind.
    + apply List.find_some in Hfind as [_ Hthrow].
      destruct (cache_slot_returns t st Hp) as [sl Hsl].
      by rewrite Hsl in Hthrow.
    + f_equal. apply (fold_size_inherited st _ type); [|done].
      apply list_elem_of_In, List.filter_In. split.
      * by apply list_elem_of_In.
      * unfold has_slot. by rewrite Hslot.
Qed.

Lemma inherited_name_purge_size_witness :
  purge 10 ["toString"; "User"] user_state = (user_state, Throw TypeError) /\
  size ["User"; "toString"] user_state = Ok NaN.
Proof.
  apply (inherited_name_purge_size 10 "toString" ["User"] ["User"; "toString"]
           user_state).
  - apply (bool_decide_unpack _). vm_compute. exact I.
  - reflexivity.
  - reflexivity.
  - right. left.
Defined.

(** The loop of [clear] only ever adds to [typesToClear]. *)
Lemma clear_loop_prefix assocs fuel queue visited acc c :
  clear_loop assocs fuel queue visited acc = Some c ->
  exists rest, typesToClear c = typesToClear acc ++ rest.
Proof.
  revert queue visited acc.
  induction fuel as [|fuel IH]; intros queue visited acc Hrun.
  - destruct queue; simpl in Hrun; [|done].
    injection Hrun as <-. exists []. by rewrite app_nil_r.
  - destruct queue as [|type queue]; simpl in Hrun.
    { injection Hrun as <-. exists []. by rewrite app_nil_r. }
    destruct (decide (type ∈ visited)); [by apply (IH _ _ _ Hrun)|].
    assert (exists rest,
              typesToClear c
              = Set_add type (typesToClear acc) ++ rest) as [rest Hrest].
    { destruct (JsMap.get type assocs);
        destruct (IH _ _ _ Hrun) as [rest Hrest]; by exists rest. }
    rewrite Hrest. unfold Set_add.
    destruct (decide (type ∈ typesToClear acc)); [by exists rest|].
    exists ([type] ++ rest). by rewrite app_assoc.
Qed.

(** [clear] on one name that has no store and meets the prototype
    chain. *)
Lemma clear_one_inherited fuel type st :
  (clear_fuel (associations st) [type] <= fuel)%nat ->
  JsMap.get type (cache st) = None -> inherits st type ->
  clear fuel [type] st = (st, Throw TypeError).
Proof.
  intros Hfuel Hget Hin.
  destruct (clear_loop_closure (associations st) [type] fuel Hfuel)
    as (c & Hloop & _).
  assert (exists post, typesToClear c = type :: post) as [post Htc].
  { destruct fuel as [|fuel]; [unfold clear_fuel in Hfuel; simpl in Hfuel; lia|].
    simpl in Hloop. rewrite decide_False in Hloop by set_solver.
    destruct (JsMap.get type (associations st));
      destruct (clear_loop_prefix _ _ _ _ _ _ Hloop) as [rest Hrest];
      by exists rest. }
  unfold clear. simpl. rewrite Hloop, Htc. simpl. unfold bind.
  by rewrite clear_type_inherited.
Qed.

(** X22.  A model named [__proto__]: [init] does not give [this.cache] a
    property but makes the new [Map] its prototype.  The store is found
    under the name, but [Object.keys] does not list it: [clear()],
    [purge()] and [size()] without names start from the same names as
    before.  And the members of [Map.prototype] are inherited from then
    on: [clear] and [purge] throw at such a name without a store, and
    [init] of a configured model named [size] throws where it assigns
    the store. *)
Theorem proto_model (fuel : nat) (now : Z) (target : model) (cf : cfg)
    (st : state) :
  name target = "__proto__" ->
  JsMap.get "__proto__" (config st) = Some cf ->
  JsMap.get "__proto__" (cache st) = None ->
  exists st',
    init target st = (st', Ok tt) /\
    cache st' = cache st ++ [("__proto__", [])] /\
    types_of [] st' = types_of [] st /\
    (forall type,
       type ∈ map_prototype -> JsMap.get type (cache st) = None ->
       purge now [type] st' = (st', Throw TypeError) /\
       ((clear_fuel (associations st) [type] <= fuel)%nat ->
        clear fuel [type] st' = (st', Throw TypeError))) /\
    (forall other cf',
       name other = "size" -> JsMap.get "size" (config st) = Some cf' ->
       JsMap.get "size" (cache st) = None ->
       init other st' = (st', Throw TypeError)).
Proof.
  intros Hname Hcf Hp.
  assert (Hfresh : "__proto__" ∉ JsMap.keys (cache st))
    by by apply JsMapFacts.get_None.
  assert (Hset : JsMap.set "__proto__" JsMap.empty (cache st)
                 = cache st ++ [("__proto__", [])]).
  { clear -Hfresh. induction (cache st) as [|[k v] m IH]; [done|].
    unfold JsMap.keys in Hfresh. simpl in *.
    apply not_elem_of_cons in Hfresh as [Hne Hfresh].
    rewrite decide_False by done. by rewrite IH. }
  exists (with_cache (cache st ++ [("__proto__", [])]) st).
  set (st' := with_cache _ st).
  assert (Hinit : init target st = (st', Ok tt)).
  { unfold init. rewrite Hname, (config_slot_own _ _ _ Hcf).
    unfold bind, assign_store, cache_slot, JsMap.has. rewrite Hp.
    rewrite bool_decide_true by (apply (bool_decide_unpack _); vm_compute; exact I).
    unfold modify. rewrite Hset. by destruct st. }
  assert (Hproto : JsMap.get "__proto__" (cache st') = Some []).
  { unfold st'. simpl. rewrite <- Hset. apply JsMapFacts.get_set_eq. }
  assert (Hother : forall type,
            type <> "__proto__" ->
            JsMap.get type (cache st') = JsMap.get type (cache st)).
  { intros type Hne. unfold st'. simpl. rewrite <- Hset.
    by apply JsMapFacts.get_set_ne. }
  split_and!; [done|done| | |].
  - unfold types_of, own_keys, st'. simpl.
    rewrite JsMapFacts.keys_app, filter_app.
    change (JsMap.keys [("__proto__", @nil (string * item))])
      with ["__proto__"].
    rewrite filter_cons_False by (intros H; by apply H).
    by rewrite filter_nil, app_nil_r.
  - intros type Hin Hget.
    assert (type <> "__proto__") as Hne.
    { intros ->. revert Hin. apply (bool_decide_unpack _). vm_compute. exact I. }
    assert (Hget' : JsMap.get type (cache st') = None)
      by by rewrite Hother.
    assert (Hinh : inherits st' type) by (right; split; [by eexists|done]).
    split.
    + unfold purge. simpl. unfold bind.
      by rewrite purge_type_inherited.
    + intros Hfuel. by apply clear_one_inherited.
  - intros other cf' Hsize Hcf' Hget. unfold init.
    rewrite Hsize.
    assert (config_slot "size" st' = Own cf') as -> by by apply config_slot_own.
    unfold bind, assign_store, cache_slot, JsMap.has.
    rewrite Hother by done. rewrite Hget, Hproto. done.
Qed.

Lemma proto_model_witness :
  let o := Options None None None None None in
  let st := constructor [("__proto__", o); ("size", o)] in
  exists st',
    init (Model "__proto__" false None) st = (st', Ok tt) /\
    cache st' = [("__proto__", [])] /\
    types_of [] st' = [] /\
    purge 0 ["get"] st' = (st', Throw TypeError) /\
    clear 1 ["get"] st' = (st', Throw TypeError) /\
    init (Model "size" false None) st' = (st', Throw TypeError).
Proof.
  intros o st.
  destruct (proto_model 1 0 (Model "__proto__" false None) (with_defaults o) st)
    as (st' & Hinit & Hcache & Htypes & Hmap & Hsize);
    [reflexivity|reflexivity|reflexivity|].
  exists st'. split; [exact Hinit|]. split; [exact Hcache|].
  split; [exact Htypes|].
  destruct (Hmap "get") as [Hpurge Hclear];
    [right; left|reflexivity|].
  split; [exact Hpurge|]. split; [apply Hclear; vm_compute; lia|].
  apply (Hsize (Model "size" false None) (with_defaults o)); reflexivity.
Defined.
